(** * Tom Select: the search engine (Sifter) and the selection state machine

    A shallow embedding of [src/dist/js/tom-select.complete.js].

    - [Module TomSelect] embeds the selection state machine of the widget
      ([addItem], [removeItem], [clear], [setCaret], [clearOptions],
      [onSearchChange] and the helpers they call).
    - [Module Sifter] embeds the search engine ([tokenize],
      [getScoreFunction], [getSortFunction], [prepareSearch], [search]).
    - [Module MicroEvent] embeds the event emitter ([on], [off], [trigger])
      and [Module Html] the escaping of markup ([escape_html]).
    - The modules of facts and laws that follow hold the theorems:
      [SelectionFacts] and [SifterFacts], then [SelectionLaws], [EventLaws],
      [DropdownLaws], [MicroEventLaws], [HtmlLaws] and [SifterLaws].

    Conventions.  A plain JavaScript object used as a dictionary is a finite
    map over its own enumerable string keys ([gmap string _], or [gset string]
    when every value is [true]); [hasOwnProperty] is membership.  Numbers that
    hold list positions are in [Z]; scores are rationals.  Event subscribers
    are observers: firing an event appends it to the log of the widget and
    runs no further widget code.  The original element is an [<input>], or a
    [<select>] whose selected keys all have their options whenever
    [updateOriginalInput] runs: the function then only writes to that
    element. *)

From Stdlib Require Import ZArith QArith Lia Lqa.
From stdpp Require Import base option list gmap sets strings.

Open Scope Z_scope.

(* ===================================================================== *)
(** * The selection state machine *)
(* ===================================================================== *)

Module TomSelect.

(** ** Values and keys *)

(** The scalars [hash_key] draws a distinction between.  A number [n] reaches
    the widget as the string [n + ''], so it is covered by [VString]. *)
Inductive Value :=
| VUndefined
| VNull
| VBool (b : bool)
| VString (str : string).

(** A key is what [hash_key] returns: [null] or a string. *)
Abbreviation Key := (option string).

Definition hash_key (value : Value) : Key :=
  match value with
  | VUndefined | VNull => None
  | VBool b => Some (if b then "1" else "0")%string
  | VString str => Some str
  end.

(** [obj[k]] and [obj.hasOwnProperty(k)] turn [k] into a property name;
    [null] becomes the name ["null"]. *)
Definition property_name (k : Key) : string := default "null"%string k.

(** The data of one option: field name to text. *)
Abbreviation Data := (gmap string string).

(** ** Settings *)

Inductive Mode := single | multi.

Global Instance Mode_eq_dec : EqDecision Mode.
Proof. solve_decision. Defined.

Record Settings := {
  mode : Mode;                 (* settings.mode *)
  maxItems : option Z;         (* null, or the cap *)
  duplicates : bool;
  persist : bool;
  controlInput : bool;         (* a custom control input is configured *)
  load : bool;                 (* a loader function is configured *)
  maxOptions : option Z;       (* used when typeof maxOptions === 'number' *)
  render_no_results : bool     (* settings.render['no_results'] is set *)
}.

(** ** Events *)

Inductive Event :=
| EvChange
| EvItemAdd (value : Key)
| EvItemRemove (value : string)
| EvClear
| EvOptionAdd (value : string)
| EvOptionRemove (value : Key)
| EvOptionClear
| EvDropdownOpen
| EvDropdownClose
| EvBlur.

Definition event_type (e : Event) : string :=
  match e with
  | EvChange => "change"
  | EvItemAdd _ => "item_add"
  | EvItemRemove _ => "item_remove"
  | EvClear => "clear"
  | EvOptionAdd _ => "option_add"
  | EvOptionRemove _ => "option_remove"
  | EvOptionClear => "option_clear"
  | EvDropdownOpen => "dropdown_open"
  | EvDropdownClose => "dropdown_close"
  | EvBlur => "blur"
  end%string.

(** One activation of [debounce_events]: the event types it holds back and
    the [event_args] it has collected, one entry per type. *)
Record Hold := { types : list string; event_args : list Event }.

(** ** The state of a widget *)

Record State := {
  settings : Settings;
  items : list Key;              (* self.items, the selection *)
  caretPos : Z;                  (* self.caretPos *)
  control : list string;         (* data-value of the item elements in self.control, in document order *)
  options : gmap string Data;    (* self.options *)
  userOptions : gset string;     (* self.userOptions *)
  loadedSearches : gset string;  (* self.loadedSearches *)
  lastQuery : option string;     (* self.lastQuery; None is null (or not yet set) *)
  loading : nat;                 (* self.loading *)
  dispatched : list string;      (* the queries handed to settings.load, oldest first *)
  isSetup : bool;
  isPending : bool;
  isLocked : bool;
  isOpen : bool;
  isFocused : bool;
  isBlurring : bool;
  inputValue : string;           (* self.inputValue(): the trimmed text of the control input *)
  events : list Event;           (* the events delivered to subscribers, oldest first *)
  held : list Hold               (* the running debounce_events calls, innermost first *)
}.

Definition set_items v (s : State) : State :=
  {| settings := settings s; items := v; caretPos := caretPos s; control := control s;
     options := options s; userOptions := userOptions s; loadedSearches := loadedSearches s; lastQuery := lastQuery s;
     loading := loading s; dispatched := dispatched s; isSetup := isSetup s; isPending := isPending s;
     isLocked := isLocked s; isOpen := isOpen s; isFocused := isFocused s; isBlurring := isBlurring s;
     inputValue := inputValue s; events := events s; held := held s |}.

Definition set_caretPos v (s : State) : State :=
  {| settings := settings s; items := items s; caretPos := v; control := control s;
     options := options s; userOptions := userOptions s; loadedSearches := loadedSearches s; lastQuery := lastQuery s;
     loading := loading s; dispatched := dispatched s; isSetup := isSetup s; isPending := isPending s;
     isLocked := isLocked s; isOpen := isOpen s; isFocused := isFocused s; isBlurring := isBlurring s;
     inputValue := inputValue s; events := events s; held := held s |}.

Definition set_control v (s : State) : State :=
  {| settings := settings s; items := items s; caretPos := caretPos s; control := v;
     options := options s; userOptions := userOptions s; loadedSearches := loadedSearches s; lastQuery := lastQuery s;
     loading := loading s; dispatched := dispatched s; isSetup := isSetup s; isPending := isPending s;
     isLocked := isLocked s; isOpen := isOpen s; isFocused := isFocused s; isBlurring := isBlurring s;
     inputValue := inputValue s; events := events s; held := held s |}.

Definition set_options v (s : State) : State :=
  {| settings := settings s; items := items s; caretPos := caretPos s; control := control s;
     options := v; userOptions := userOptions s; loadedSearches := loadedSearches s; lastQuery := lastQuery s;
     loading := loading s; dispatched := dispatched s; isSetup := isSetup s; isPending := isPending s;
     isLocked := isLocked s; isOpen := isOpen s; isFocused := isFocused s; isBlurring := isBlurring s;
     inputValue := inputValue s; events := events s; held := held s |}.

Definition set_userOptions v (s : State) : State :=
  {| settings := settings s; items := items s; caretPos := caretPos s; control := control s;
     options := options s; userOptions := v; loadedSearches := loadedSearches s; lastQuery := lastQuery s;
     loading := loading s; dispatched := dispatched s; isSetup := isSetup s; isPending := isPending s;
     isLocked := isLocked s; isOpen := isOpen s; isFocused := isFocused s; isBlurring := isBlurring s;
     inputValue := inputValue s; events := events s; held := held s |}.

Definition set_loadedSearches v (s : State) : State :=
  {| settings := settings s; items := items s; caretPos := caretPos s; control := control s;
     options := options s; userOptions := userOptions s; loadedSearches := v; lastQuery := lastQuery s;
     loading := loading s; dispatched := dispatched s; isSetup := isSetup s; isPending := isPending s;
     isLocked := isLocked s; isOpen := isOpen s; isFocused := isFocused s; isBlurring := isBlurring s;
     inputValue := inputValue s; events := events s; held := held s |}.

Definition set_lastQuery v (s : State) : State :=
  {| settings := settings s; items := items s; caretPos := caretPos s; control := control s;
     options := options s; userOptions := userOptions s; loadedSearches := loadedSearches s; lastQuery := v;
     loading := loading s; dispatched := dispatched s; isSetup := isSetup s; isPending := isPending s;
     isLocked := isLocked s; isOpen := isOpen s; isFocused := isFocused s; isBlurring := isBlurring s;
     inputValue := inputValue s; events := events s; held := held s |}.

Definition set_loading v (s : State) : State :=
  {| settings := settings s; items := items s; caretPos := caretPos s; control := control s;
     options := options s; userOptions := userOptions s; loadedSearches := loadedSearches s; lastQuery := lastQuery s;
     loading := v; dispatched := dispatched s; isSetup := isSetup s; isPending := isPending s;
     isLocked := isLocked s; isOpen := isOpen s; isFocused := isFocused s; isBlurring := isBlurring s;
     inputValue := inputValue s; events := events s; held := held s |}.

Definition set_dispatched v (s : State) : State :=
  {| settings := settings s; items := items s; caretPos := caretPos s; control := control s;
     options := options s; userOptions := userOptions s; loadedSearches := loadedSearches s; lastQuery := lastQuery s;
     loading := loading s; dispatched := v; isSetup := isSetup s; isPending := isPending s;
     isLocked := isLocked s; isOpen := isOpen s; isFocused := isFocused s; isBlurring := isBlurring s;
     inputValue := inputValue s; events := events s; held := held s |}.

Definition set_isOpen v (s : State) : State :=
  {| settings := settings s; items := items s; caretPos := caretPos s; control := control s;
     options := options s; userOptions := userOptions s; loadedSearches := loadedSearches s; lastQuery := lastQuery s;
     loading := loading s; dispatched := dispatched s; isSetup := isSetup s; isPending := isPending s;
     isLocked := isLocked s; isOpen := v; isFocused := isFocused s; isBlurring := isBlurring s;
     inputValue := inputValue s; events := events s; held := held s |}.

Definition set_isFocused v (s : State) : State :=
  {| settings := settings s; items := items s; caretPos := caretPos s; control := control s;
     options := options s; userOptions := userOptions s; loadedSearches := loadedSearches s; lastQuery := lastQuery s;
     loading := loading s; dispatched := dispatched s; isSetup := isSetup s; isPending := isPending s;
     isLocked := isLocked s; isOpen := isOpen s; isFocused := v; isBlurring := isBlurring s;
     inputValue := inputValue s; events := events s; held := held s |}.

Definition set_isBlurring v (s : State) : State :=
  {| settings := settings s; items := items s; caretPos := caretPos s; control := control s;
     options := options s; userOptions := userOptions s; loadedSearches := loadedSearches s; lastQuery := lastQuery s;
     loading := loading s; dispatched := dispatched s; isSetup := isSetup s; isPending := isPending s;
     isLocked := isLocked s; isOpen := isOpen s; isFocused := isFocused s; isBlurring := v;
     inputValue := inputValue s; events := events s; held := held s |}.

Definition set_inputValue v (s : State) : State :=
  {| settings := settings s; items := items s; caretPos := caretPos s; control := control s;
     options := options s; userOptions := userOptions s; loadedSearches := loadedSearches s; lastQuery := lastQuery s;
     loading := loading s; dispatched := dispatched s; isSetup := isSetup s; isPending := isPending s;
     isLocked := isLocked s; isOpen := isOpen s; isFocused := isFocused s; isBlurring := isBlurring s;
     inputValue := v; events := events s; held := held s |}.

Definition set_events v (s : State) : State :=
  {| settings := settings s; items := items s; caretPos := caretPos s; control := control s;
     options := options s; userOptions := userOptions s; loadedSearches := loadedSearches s; lastQuery := lastQuery s;
     loading := loading s; dispatched := dispatched s; isSetup := isSetup s; isPending := isPending s;
     isLocked := isLocked s; isOpen := isOpen s; isFocused := isFocused s; isBlurring := isBlurring s;
     inputValue := inputValue s; events := v; held := held s |}.

Definition set_held v (s : State) : State :=
  {| settings := settings s; items := items s; caretPos := caretPos s; control := control s;
     options := options s; userOptions := userOptions s; loadedSearches := loadedSearches s; lastQuery := lastQuery s;
     loading := loading s; dispatched := dispatched s; isSetup := isSetup s; isPending := isPending s;
     isLocked := isLocked s; isOpen := isOpen s; isFocused := isFocused s; isBlurring := isBlurring s;
     inputValue := inputValue s; events := events s; held := v |}.


(** ** The event bus *)

Definition same_type (e e' : Event) : bool := String.eqb (event_type e) (event_type e').

(** [event_args[type] = arguments]: a later event of a type replaces the
    earlier one and keeps its place. *)
Definition queue_event (e : Event) (q : list Event) : list Event :=
  if existsb (same_type e) q
  then map (λ e', if same_type e e' then e else e') q
  else q ++ [e].

(** The chain of [trigger] overrides installed by [debounce_events]: the
    innermost override that lists the type keeps the event, the others pass
    it on.  [None]: the event reaches [MicroEvent.trigger]. *)
Fixpoint trigger_held (e : Event) (hs : list Hold) : option (list Hold) :=
  match hs with
  | [] => None
  | h :: hs' =>
      if bool_decide (event_type e ∈ types h)
      then Some ({| types := types h; event_args := queue_event e (event_args h) |} :: hs')
      else cons h <$> trigger_held e hs'
  end.

Definition trigger (e : Event) (s : State) : State :=
  match trigger_held e (held s) with
  | Some hs => set_held hs s
  | None => set_events (events s ++ [e]) s
  end.

Definition debounce_events (tys : list string) (fn : State → State) (s : State) : State :=
  let s1 := fn (set_held ({| types := tys; event_args := [] |} :: held s) s) in
  match held s1 with
  | h :: hs => foldl (λ s' e, trigger e s') (set_held hs s1) (event_args h)
  | [] => s1
  end.

(** ** Helpers of the selection *)

Definition is_single (s : State) : bool := bool_decide (mode (settings s) = single).
Definition is_multi (s : State) : bool := bool_decide (mode (settings s) = multi).

Definition isFull (s : State) : bool :=
  match maxItems (settings s) with
  | None => false
  | Some m => m <=? Z.of_nat (length (items s))
  end.

(** [Array.prototype.indexOf]; [None] is -1. *)
Fixpoint indexOf {A} `{EqDecision A} (x : A) (l : list A) : option nat :=
  match l with
  | [] => None
  | y :: l' => if decide (y = x) then Some 0%nat else S <$> indexOf x l'
  end.

(** [l.splice(start, 0, x)] *)
Definition splice_insert {A} (start : Z) (x : A) (l : list A) : list A :=
  let len := Z.of_nat (length l) in
  let i := if start <? 0 then Z.max (len + start) 0 else Z.min start len in
  take (Z.to_nat i) l ++ x :: drop (Z.to_nat i) l.

(** [el.remove()] for the first item element whose data-value is [k] *)
Fixpoint remove_first (k : string) (l : list string) : list string :=
  match l with
  | [] => []
  | x :: l' => if decide (x = k) then l' else x :: remove_first k l'
  end.

(** [setTextboxValue('')] within [hideInput]; a custom control input is left alone. *)
Definition hideInput (s : State) : State :=
  if controlInput (settings s) then s else set_inputValue EmptyString s.

Definition setCaret (i : Z) (s : State) : State :=
  let len := Z.of_nat (length (items s)) in
  let i := if is_single s || controlInput (settings s) then len
           else Z.max 0 (Z.min len i) in
  set_caretPos i s.

(** ** Dropdown and focus *)

(** [close()].  In single mode with a selection it hides the input and, unless
    a blur is already being handled, calls [blur()].  The steps that only
    touch the page ([applyCSS], [setActiveOption(null)], [refreshState()])
    leave the state below unchanged. *)
Definition close_with (blur : State → State) (s : State) : State :=
  let trigger_close := isOpen s in
  let s1 :=
    if is_single s && negb (bool_decide (items s = []))
    then let s' := hideInput s in
         if isBlurring s' then s' else blur s'
    else s in
  let s2 := set_isOpen false s1 in
  if trigger_close then trigger EvDropdownClose s2 else s2.

(** [close()] as [deactivate] reaches it: [isBlurring] is set, so [blur()] is
    skipped. *)
Definition close_blurring : State → State := close_with (λ s, s).

(** [onBlur(null, dest)] with the create-on-blur feature off
    ([settings.create] is [false], its default) and the page's active element
    outside the dropdown: its [deactivate] step runs at once. *)
Definition onBlur (s : State) : State :=
  if negb (isFocused s) then s
  else
    let s := set_isFocused false s in
    let s := set_isBlurring true s in
    (* deactivate() *)
    let s := close_blurring s in
    let s := setCaret (Z.of_nat (length (items s))) s in
    let s := set_isBlurring false s in
    trigger EvBlur s.

(** [blur()]: [control_input.blur()], then [onBlur]. *)
Definition blur : State → State := onBlur.

Definition close : State → State := close_with blur.

(** [open()]; [focus()] only schedules [onFocus] for a later turn. *)
Definition open (s : State) : State :=
  if isLocked s || isOpen s || (is_multi s && isFull s) then s
  else trigger EvDropdownOpen (set_isOpen true s).

(** ** The cached search *)

(** [query !== self.lastQuery] in [search]: whether [search(query)] runs the
    search engine again instead of copying [currentResults]. *)
Definition search_recomputes (query : string) (s : State) : bool :=
  negb (bool_decide (lastQuery s = Some query)).

(** The effect of [search(query)] on the marker. *)
Definition search (query : string) (s : State) : State :=
  if search_recomputes query s then set_lastQuery (Some query) s else s.

(** What the page answers during one call: the length of the result list of
    [search] (after the selected items are filtered out) and the number of
    selectable option elements in the dropdown. *)
Record Rendering := { results_length : nat; selectable_length : nat }.

(** [refreshOptions(triggerDropdown)].  The create prompt is off
    ([canCreate] is [false] without [settings.create]). *)
Definition refreshOptions (dom : Rendering) (triggerDropdown : bool) (s : State) : State :=
  let query := inputValue s in
  let s := search query s in
  let n := Z.of_nat (results_length dom) in
  let n := match maxOptions (settings s) with Some m => Z.min n m | None => n end in
  let show_dropdown :=
    (0 <? n)
    || (bool_decide (results_length dom = 0%nat) && render_no_results (settings s)
        && bool_decide (loading s = 0%nat) && negb (bool_decide (query = EmptyString))) in
  if show_dropdown
  then if triggerDropdown && negb (isOpen s) then open s else s
  else if triggerDropdown && isOpen s then close s else s.

(** [updateOriginalInput({silent})]: rewrites the original element, then
    fires [change]. *)
Definition updateOriginalInput (silent : bool) (s : State) : State :=
  if isSetup s && negb silent then trigger EvChange s else s.

(** ** Selection *)

(** [clear(silent)].  [setActiveItem(null)] and [showInput()] touch only the
    active-item list and the style of the input. *)
Definition clear (silent : bool) (s : State) : State :=
  if bool_decide (items s = []) then s
  else
    let s := set_control [] s in
    let s := set_items [] s in
    let s := set_lastQuery None s in
    let s := setCaret 0 s in
    let s := updateOriginalInput silent s in
    trigger EvClear s.

(** [insertAtCaret(el)], [el] carrying the data-value [k]. *)
Definition insertAtCaret (k : string) (s : State) : State :=
  let caret := Z.min (caretPos s) (Z.of_nat (length (items s))) in
  let s := set_control (take (Z.to_nat caret) (control s) ++ k :: drop (Z.to_nat caret) (control s)) s in
  setCaret (caret + 1) s.

Definition has_option (k : Key) (s : State) : bool :=
  bool_decide (is_Some (options s !! property_name k)).

(** The steps of [addItem] once the item is in place: the block under
    [if (self.isSetup)]. *)
Definition addItem_refresh (dom : Rendering) (value : Key) (silent : bool) (s : State) : State :=
  if isSetup s then
    let s := if negb (isPending s)
             then refreshOptions dom (isFocused s && negb (is_single s)) s
             else s in
    let s := if bool_decide (selectable_length dom = 0%nat) || isFull s
             then close s else s in
    let s := trigger (EvItemAdd value) s in
    if negb (isPending s) then updateOriginalInput silent s else s
  else s.

(** [self.items.splice(self.caretPos, 0, value); self.insertAtCaret(item)] *)
Definition insert_item (value : Key) (s : State) : State :=
  let s := set_items (splice_insert (caretPos s) value (items s)) s in
  insertAtCaret (property_name value) s.

(** The function [addItem] hands to [debounce_events]. *)
Definition addItem_body (dom : Rendering) (value : Value) (silent : bool) (s : State) : State :=
  let value := hash_key value in
  let selected := bool_decide (value ∈ items s) in
  let s := if selected && is_single s then close s else s in
  if selected && (is_single s || negb (duplicates (settings s))) then s
  else if negb (has_option value s) then s
  else
    let s := if is_single s then clear silent s else s in
    if is_multi s && isFull s then s
    else addItem_refresh dom value silent (insert_item value s).

Definition addItem (dom : Rendering) (value : Value) (silent : bool) : State → State :=
  debounce_events (if silent then [] else ["change"%string]) (addItem_body dom value silent).

(** A key as the argument of a call. *)
Definition value_of_key (k : Key) : Value :=
  match k with None => VNull | Some str => VString str end.

(** [removeOption(value, silent)] once [value] is hashed, with the
    [removeItem] it ends in as a parameter. *)
Definition removeOption_open (self_removeItem : Value → bool → State → State)
    (value : Key) (silent : bool) (s : State) : State :=
  let s := set_userOptions (userOptions s ∖ {[property_name value]}) s in
  let s := set_options (delete (property_name value) (options s)) s in
  let s := set_lastQuery None s in
  let s := trigger (EvOptionRemove value) s in
  self_removeItem (value_of_key value) silent s.

(** The steps of [removeItem] once the item element with the data-value [k]
    is found at index [i] of the selection. *)
Definition removeItem_at (self_removeItem : Value → bool → State → State)
    (k : string) (i : nat) (silent : bool) (s : State) : State :=
  let s := set_control (remove_first k (control s)) s in
  let s := set_items (delete i (items s)) s in
  let s := set_lastQuery None s in
  let s := if negb (persist (settings s)) && bool_decide (k ∈ userOptions s)
           then removeOption_open self_removeItem (Some k) silent s else s in
  let s := if Z.of_nat i <? caretPos s then setCaret (caretPos s - 1) s else s in
  let s := updateOriginalInput silent s in
  trigger (EvItemRemove k) s.

(** [removeItem(value, silent)], with the [removeItem] that [removeOption]
    calls back as a parameter.  A [null] key finds no element. *)
Definition removeItem_open (self_removeItem : Value → bool → State → State)
    (value : Value) (silent : bool) (s : State) : State :=
  match hash_key value with
  | None => s
  | Some k =>
      if negb (bool_decide (k ∈ control s)) then s      (* if (!item) return *)
      else
        match indexOf (Some k) (items s) with
        | None => s
        | Some i => removeItem_at self_removeItem k i silent s
        end
  end.

(** The recursion [removeItem] -> [removeOption] -> [removeItem] stops at the
    second [removeItem]: [removeOption] has dropped the key from
    [userOptions] by then (lemma [removeItem_unfold]). *)
Definition removeItem : Value → bool → State → State :=
  removeItem_open (removeItem_open (λ _ _ s, s)).

Definition removeOption (value : Value) (silent : bool) (s : State) : State :=
  removeOption_open removeItem (hash_key value) silent s.

(** ** The option registry *)

Inductive Completion := Normal | Throw (error : string).

(** [clearOptions()].  The loop variable [key] is declared nowhere and the
    code is strict, so the first iteration of [for (key in this.options)]
    raises a ReferenceError unless the host page defines a global [key]
    ([global_key]); with no option to iterate over the loop assigns nothing. *)
Definition clearOptions (global_key : bool) (s : State) : State * Completion :=
  let s := set_loadedSearches ∅ s in
  let s := set_userOptions ∅ s in
  if negb global_key && negb (bool_decide (options s = ∅))
  then (s, Throw "ReferenceError: key is not defined")
  else
    let selected := filter (λ kv, Some kv.1 ∈ items s) (options s) in
    let s := set_options selected s in
    let s := set_lastQuery None s in
    (trigger EvOptionClear s, Normal).

(** [registerOption(data)] for data whose value field hashes to [key];
    [None] is the [false] it returns. *)
Definition registerOption (key : Key) (data : Data) (s : State) : State * option string :=
  match key with
  | None => (s, None)
  | Some k =>
      if bool_decide (is_Some (options s !! k)) then (s, None)
      else (set_options (<[k := data]> (options s)) s, Some k)
  end.

(** [addOption(data)] for one option. *)
Definition addOption (key : Key) (data : Data) (s : State) : State :=
  match registerOption key data s with
  | (s, Some k) =>
      let s := set_userOptions ({[k]} ∪ userOptions s) s in
      let s := set_lastQuery None s in
      trigger (EvOptionAdd k) s
  | (s, None) => s
  end.

(** ** The loader *)

(** [load(fn)] as [onSearchChange] calls it: the counter goes up and the
    query is handed to [settings.load]. *)
Definition load_query (value : string) (s : State) : State :=
  let s := set_loading (S (loading s)) s in
  set_dispatched (dispatched s ++ [value]) s.

Definition onSearchChange (value : string) (s : State) : State :=
  if negb (load (settings s)) then s
  else if bool_decide (value ∈ loadedSearches s) then s
  else load_query value (set_loadedSearches ({[value]} ∪ loadedSearches s) s).

(** ** Sequences of calls *)

Inductive Op :=
| OpAddItem (dom : Rendering) (value : Value) (silent : bool)
| OpRemoveItem (value : Value) (silent : bool)
| OpClear (silent : bool)
| OpSetCaret (i : Z)
| OpAddOption (key : Key) (data : Data)
| OpRemoveOption (value : Value) (silent : bool)
| OpClearOptions (global_key : bool)
| OpSearchChange (value : string).

Definition step (op : Op) (s : State) : State :=
  match op with
  | OpAddItem dom value silent => addItem dom value silent s
  | OpRemoveItem value silent => removeItem value silent s
  | OpClear silent => clear silent s
  | OpSetCaret i => setCaret i s
  | OpAddOption key data => addOption key data s
  | OpRemoveOption value silent => removeOption value silent s
  | OpClearOptions global_key => (clearOptions global_key s).1
  | OpSearchChange value => onSearchChange value s
  end.

(** The calls of [ops] in order, first to last. *)
Definition run (ops : list Op) (s : State) : State := foldl (λ s op, step op s) s ops.

(** The state the constructor builds before [setup()]: the defaults of
    [Object.assign(self, {...})] and the registered options. *)
Definition constructed (st : Settings) (opts : gmap string Data) : State :=
  {| settings := st; items := []; caretPos := 0; control := [];
     options := opts; userOptions := ∅; loadedSearches := ∅; lastQuery := None;
     loading := 0; dispatched := []; isSetup := false; isPending := false;
     isLocked := false; isOpen := false; isFocused := false; isBlurring := false;
     inputValue := EmptyString; events := []; held := [] |}.

(** ** Locking *)

Definition set_isLocked v (s : State) : State :=
  {| settings := settings s; items := items s; caretPos := caretPos s; control := control s;
     options := options s; userOptions := userOptions s; loadedSearches := loadedSearches s; lastQuery := lastQuery s;
     loading := loading s; dispatched := dispatched s; isSetup := isSetup s; isPending := isPending s;
     isLocked := v; isOpen := isOpen s; isFocused := isFocused s; isBlurring := isBlurring s;
     inputValue := inputValue s; events := events s; held := held s |}.

(** [lock()]: [close()], then the flag; [refreshState()] touches the
    classes of the page only. *)
Definition lock (s : State) : State := set_isLocked true (close s).

(** [unlock()] *)
Definition unlock (s : State) : State := set_isLocked false s.

End TomSelect.


(* ===================================================================== *)
(** * The search engine *)
(* ===================================================================== *)

Module Sifter.

(** ** Strings *)

(** A JavaScript string is a sequence of UTF-16 code units. *)
Abbreviation char := N.
Abbreviation jsstring := (list N).

(** An ASCII literal as a JavaScript string. *)
Definition str (s : string) : jsstring := map Ascii.N_of_ascii (String.list_ascii_of_string s).

(** The class [\s]: the white space and line terminator code units. *)
Definition is_whitespace (c : char) : bool :=
  bool_decide (c ∈ [9; 10; 11; 12; 13; 32; 160; 5760; 8232; 8233; 8239; 8287; 12288; 65279]%N)
  || ((8192 <=? c) && (c <=? 8202))%N.

(** What the engine takes from the JavaScript runtime.  [toLowerCase] is
    [String.prototype.toLowerCase]; [canonicalize] is the case folding a
    regular expression with the flag [i] applies to a code unit before it
    compares (ECMAScript's Canonicalize).  The two laws hold of every
    runtime: no white space character has a case mapping. *)
Class Runtime := {
  toLowerCase : jsstring → jsstring;
  canonicalize : char → char;
  toLowerCase_nil : toLowerCase [] = [];
  toLowerCase_whitespace : ∀ s, forallb is_whitespace s = true → toLowerCase s = s
}.

(** [trim(str)]: [str.replace(/^\s+|\s+$|/g, '')] removes the white space at
    both ends (the empty alternative replaces nothing). *)
Fixpoint trim_start (s : jsstring) : jsstring :=
  match s with
  | [] => []
  | c :: s' => if is_whitespace c then trim_start s' else s
  end.

Fixpoint trim_end (s : jsstring) : jsstring :=
  match s with
  | [] => []
  | c :: s' =>
      match trim_end s' with
      | [] => if is_whitespace c then [] else [c]
      | t => c :: t
      end
  end.

Definition trim (s : jsstring) : jsstring := trim_end (trim_start s).

Definition is_space (c : char) : bool := (c =? 32)%N.

(** [s.split(/ +/)] from inside a piece ([in_sep] is [false], [cur] holds the
    piece read so far, reversed) or from inside a run of spaces. *)
Fixpoint split_go (in_sep : bool) (cur : jsstring) (s : jsstring) : list jsstring :=
  match s with
  | [] => [rev cur]
  | c :: s' =>
      if is_space c
      then if in_sep then split_go true cur s' else rev cur :: split_go true [] s'
      else split_go false (c :: cur) s'
  end.

Definition split_spaces (s : jsstring) : list jsstring := split_go false [] s.

(** The characters of [/([.?*+^$[\]\\(){}|-])/]. *)
Definition is_metachar (c : char) : bool :=
  bool_decide (c ∈ str ".?*+^$[]\(){}|-").

(** [escape_regex(str)]: a backslash before every metacharacter. *)
Definition escape_regex (s : jsstring) : jsstring :=
  flat_map (λ c, if is_metachar c then [92%N; c] else [c]) s.

(** [regex.replace(new RegExp(letter, 'g'), replacement)] for a one-letter
    pattern and a replacement with no [$] in it. *)
Definition replace_all (letter : char) (replacement : jsstring) (s : jsstring) : jsstring :=
  flat_map (λ c, if (c =? letter)%N then replacement else [c]) s.


(** ** Regular expressions *)

(** The patterns [tokenize] builds: an escaped character, a bracket
    expression or a plain character per position. *)
Inductive Atom :=
| ALit (c : char)
| AClass (members : jsstring).

Record RegExp := { source : jsstring; pattern : list Atom }.

(** Reading a pattern source; [cls] holds the members of the bracket
    expression being read, reversed.  [None] is the SyntaxError of the
    constructor (or a construct outside the fragment). *)
Fixpoint parse_pattern (cls : option jsstring) (src : jsstring) : option (list Atom) :=
  match cls, src with
  | None, [] => Some []
  | Some _, [] => None
  | Some acc, c :: rest =>
      if (c =? 93)%N then cons (AClass (rev acc)) <$> parse_pattern None rest
      else if bool_decide (c ∈ str "\^-") then None
      else parse_pattern (Some (c :: acc)) rest
  | None, c :: rest =>
      if (c =? 92)%N then
        match rest with
        | d :: rest' => if is_metachar d then cons (ALit d) <$> parse_pattern None rest' else None
        | [] => None
        end
      else if (c =? 91)%N then parse_pattern (Some []) rest
      else if is_metachar c then None
      else cons (ALit c) <$> parse_pattern None rest
  end.

(** [new RegExp(src, 'i')] *)
Definition new_RegExp (src : jsstring) : option RegExp :=
  (λ p, {| source := src; pattern := p |}) <$> parse_pattern None src.

Definition atom_matches `{Runtime} (a : Atom) (c : char) : bool :=
  match a with
  | ALit x => (canonicalize x =? canonicalize c)%N
  | AClass members => existsb (λ x, (canonicalize x =? canonicalize c)%N) members
  end.

Fixpoint match_here `{Runtime} (p : list Atom) (s : jsstring) : bool :=
  match p, s with
  | [], _ => true
  | _ :: _, [] => false
  | a :: p', c :: s' => atom_matches a c && match_here p' s'
  end.

(** [value.search(regex)]; [None] is -1. *)
Fixpoint String_search `{Runtime} (p : list Atom) (s : jsstring) : option nat :=
  if match_here p s then Some 0%nat
  else match s with
       | [] => None
       | _ :: s' => S <$> String_search p s'
       end.

(** ** The table of diacritics

    [DIACRITICS]: each of the 25 plain letters (there is no entry for m) with
    its bracket expression, as UTF-16 code units. *)
Definition DIACRITICS : list (char * jsstring) := [
  (97 (* a *),
     [91; 97; 7680; 7681; 258; 259; 194; 226; 461; 462; 570; 11365; 550; 551; 7840; 7841;
      196; 228; 192; 224; 193; 225; 256; 257; 195; 227; 197; 229; 261; 260; 195; 261; 260;
      93]);
  (98 (* b *),
     [91; 98; 9250; 946; 914; 66; 3647; 55296; 57089; 5842; 93]);
  (99 (* c *),
     [91; 99; 262; 263; 264; 265; 268; 269; 266; 267; 67; 772; 99; 772; 199; 231; 7688;
      7689; 571; 572; 391; 392; 597; 7428; 65315; 65347; 93]);
  (100 (* d *),
     [91; 100; 270; 271; 7690; 7691; 7696; 7697; 7692; 7693; 7698; 7699; 7694; 7695; 272;
      273; 68; 806; 100; 806; 393; 598; 394; 599; 395; 396; 7533; 7553; 7569; 545; 7429;
      65316; 65348; 240; 93]);
  (101 (* e *),
     [91; 101; 201; 233; 200; 232; 202; 234; 7704; 7705; 282; 283; 276; 277; 7868; 7869;
      7706; 7707; 7866; 7867; 278; 279; 203; 235; 274; 275; 552; 553; 280; 281; 7570; 582;
      583; 516; 517; 7870; 7871; 7872; 7873; 7876; 7877; 7874; 7875; 7708; 7709; 7702;
      7703; 7700; 7701; 518; 519; 7864; 7865; 7878; 7879; 11384; 7431; 65317; 65349; 600;
      477; 399; 400; 949; 93]);
  (102 (* f *),
     [91; 102; 401; 402; 7710; 7711; 93]);
  (103 (* g *),
     [91; 103; 610; 8370; 484; 485; 284; 285; 286; 287; 290; 291; 403; 608; 288; 289; 93]);
  (104 (* h *),
     [91; 104; 292; 293; 294; 295; 7720; 7721; 7830; 7830; 7716; 7717; 7714; 7715; 614;
      688; 502; 405; 93]);
  (105 (* i *),
     [91; 105; 205; 237; 204; 236; 300; 301; 206; 238; 463; 464; 207; 239; 7726; 7727; 296;
      297; 302; 303; 298; 299; 7880; 7881; 520; 521; 522; 523; 7882; 7883; 7724; 7725; 407;
      616; 616; 774; 7547; 7574; 304; 105; 73; 305; 618; 65321; 65353; 93]);
  (106 (* j *),
     [91; 106; 567; 308; 309; 584; 585; 669; 607; 690; 93]);
  (107 (* k *),
     [91; 107; 408; 409; 42816; 42817; 7728; 7729; 488; 489; 7730; 7731; 7732; 7733; 954;
      1008; 8365; 93]);
  (108 (* l *),
     [91; 108; 321; 322; 317; 318; 315; 316; 313; 314; 7734; 7735; 7736; 7737; 7740; 7741;
      7738; 7739; 319; 320; 573; 410; 11360; 11361; 11362; 619; 620; 7557; 621; 564; 671;
      65324; 65356; 93]);
  (110 (* n *),
     [91; 110; 323; 324; 504; 505; 327; 328; 209; 241; 7748; 7749; 325; 326; 7750; 7751;
      7754; 7755; 7752; 7753; 78; 776; 110; 776; 413; 626; 544; 414; 7536; 7559; 627; 565;
      628; 65326; 65358; 330; 331; 93]);
  (111 (* o *),
     [91; 111; 216; 248; 214; 246; 211; 243; 210; 242; 212; 244; 465; 466; 336; 337; 334;
      335; 558; 559; 7884; 7885; 415; 629; 416; 417; 7886; 7887; 332; 333; 213; 245; 490;
      491; 524; 525; 1365; 1413; 93]);
  (112 (* p *),
     [91; 112; 7764; 7765; 7766; 7767; 11363; 7549; 420; 421; 7537; 93]);
  (113 (* q *),
     [91; 113; 42838; 42839; 672; 586; 587; 42840; 42841; 113; 771; 93]);
  (114 (* r *),
     [91; 114; 340; 341; 588; 589; 344; 345; 342; 343; 7768; 7769; 528; 529; 530; 531;
      7770; 7771; 11364; 637; 93]);
  (115 (* s *),
     [91; 115; 346; 347; 7776; 7777; 7778; 7779; 42920; 42921; 348; 349; 352; 353; 350;
      351; 536; 537; 83; 776; 115; 776; 93]);
  (116 (* t *),
     [91; 116; 356; 357; 7786; 7787; 354; 355; 7788; 7789; 430; 648; 538; 539; 7792; 7793;
      7790; 7791; 428; 429; 93]);
  (117 (* u *),
     [91; 117; 364; 365; 580; 649; 7908; 7909; 220; 252; 218; 250; 217; 249; 219; 251; 467;
      468; 368; 369; 364; 365; 431; 432; 7910; 7911; 362; 363; 360; 361; 370; 371; 532;
      533; 8746; 93]);
  (118 (* v *),
     [91; 118; 7804; 7805; 7806; 7807; 434; 651; 42846; 42847; 11377; 651; 93]);
  (119 (* w *),
     [91; 119; 7810; 7811; 7808; 7809; 372; 373; 7812; 7813; 7814; 7815; 7816; 7817; 93]);
  (120 (* x *),
     [91; 120; 7820; 7821; 7818; 7819; 967; 93]);
  (121 (* y *),
     [91; 121; 221; 253; 7922; 7923; 374; 375; 376; 255; 7928; 7929; 7822; 7823; 7924;
      7925; 590; 591; 435; 436; 93]);
  (122 (* z *),
     [91; 122; 377; 378; 7824; 7825; 381; 382; 379; 380; 7826; 7827; 7828; 7829; 437; 438;
      93])
]%N.

(** ** The engine *)

Abbreviation Item := (gmap string jsstring).     (* a searched object: field name to text *)

Record SortKey := { field : string; direction : option string }.

Record Options := {
  o_fields : list string;
  o_sort : option (list SortKey);
  o_sort_empty : option (list SortKey);
  o_score : option (Item → Q);
  o_filter : option bool;
  o_limit : option Z;
  o_conjunction : string
}.

Record Token := { tok_string : jsstring; tok_regex : RegExp }.

Record ResultItem := { score : Q; id : string }.

Record Search := {
  s_options : Options;
  s_query : jsstring;
  s_tokens : list Token;
  s_total : nat;
  s_items : list ResultItem
}.

(** A [Sifter] object: the items in the order [iterator] visits them, and
    [settings.diacritics]. *)
Record Sifter := { items : list (string * Item); diacritics : bool }.

Definition expand_diacritics (regex : jsstring) : jsstring :=
  foldl (λ r entry, replace_all entry.1 entry.2 r) regex DIACRITICS.

Definition tokenize `{Runtime} (self : Sifter) (query : jsstring) : option (list Token) :=
  let query := trim (toLowerCase query) in
  if bool_decide (query = []) then Some []
  else
    mapM (λ word,
            let regex := escape_regex word in
            let regex := if diacritics self then expand_diacritics regex else regex in
            (λ r, {| tok_string := word; tok_regex := r |}) <$> new_RegExp regex)
         (split_spaces query).

(** [getattr(obj, name, nesting)] on a flat object with [nesting] off. *)
Definition getattr (obj : Item) (name : string) : option jsstring :=
  if bool_decide (name = EmptyString) then None else obj !! name.

Definition length_Q {A} (l : list A) : Q := inject_Z (Z.of_nat (length l)).

Definition scoreValue `{Runtime} (value : option jsstring) (token : Token) : Q :=
  match value with
  | None => 0%Q
  | Some value =>
      if bool_decide (value = []) then 0%Q
      else
        match String_search (pattern (tok_regex token)) value with
        | None => 0%Q
        | Some pos =>
            let score := (length_Q (tok_string token) / length_Q value)%Q in
            if bool_decide (pos = 0%nat) then (score + (1 # 2))%Q else score
        end
  end.

Definition sum_Q (l : list Q) : Q := foldl Qplus 0%Q l.

Definition scoreObject `{Runtime} (fields : list string) (token : Token) (data : Item) : Q :=
  match fields with
  | [] => 0%Q
  | [f] => scoreValue (getattr data f) token
  | _ => (sum_Q (map (λ f, scoreValue (getattr data f) token) fields) / length_Q fields)%Q
  end.

(** The loop of the "and" conjunction: [None] once a token scores 0 or less. *)
Fixpoint sum_and (scores : list Q) (sum : Q) : option Q :=
  match scores with
  | [] => Some sum
  | sc :: rest => if Qle_bool sc 0 then None else sum_and rest (sum + sc)%Q
  end.

Definition getScoreFunction `{Runtime} (search : Search) : Item → Q :=
  let tokens := s_tokens search in
  let fields := o_fields (s_options search) in
  match tokens with
  | [] => λ _, 0%Q
  | [t] => λ data, scoreObject fields t data
  | _ =>
      if bool_decide (o_conjunction (s_options search) = "and"%string)
      then λ data,
             match sum_and (map (λ t, scoreObject fields t data) tokens) 0%Q with
             | None => 0%Q
             | Some sum => (sum / length_Q tokens)%Q
             end
      else λ data, (sum_Q (map (λ t, scoreObject fields t data) tokens) / length_Q tokens)%Q
  end.

(** ** Sorting *)

(** [chunk = DIACRITICS[k].substring(2, DIACRITICS[k].length - 1)] *)
Definition chunk (cls : jsstring) : jsstring := removelast (drop 2 cls).

(** [lookup[foreignletter]]: the last entry of the table whose chunk holds
    the letter; a letter of no chunk stays. *)
Definition fold_letter (c : char) : char :=
  foldl (λ acc entry, if bool_decide (c ∈ chunk entry.2) then entry.1 else acc) c DIACRITICS.

Definition asciifold `{Runtime} (s : jsstring) : jsstring :=
  toLowerCase (map fold_letter s).

(** [a > b] on strings: the order of the code units. *)
Fixpoint string_gt (a b : jsstring) : bool :=
  match a, b with
  | [], _ => false
  | _ :: _, [] => true
  | x :: a', y :: b' => (y <? x)%N || ((x =? y)%N && string_gt a' b')
  end.

(** [cmp(a, b)] on two numbers. *)
Definition cmp_number (a b : Q) : Z :=
  match (a ?= b)%Q with Gt => 1 | Lt => -1 | Eq => 0 end.

(** [cmp(a, b)] on two field values: [String(a || '')] is the text, or the
    empty string for a missing field. *)
Definition cmp_text `{Runtime} (a b : option jsstring) : Z :=
  let a := asciifold (default [] a) in
  let b := asciifold (default [] b) in
  if string_gt a b then 1 else if string_gt b a then -1 else 0.

Definition lookup_item (self : Sifter) (i : string) : option Item :=
  snd <$> List.find (λ p, bool_decide (p.1 = i)) (items self).

(** [cmp(get_field(name, a), get_field(name, b))]: [get_field] yields the
    score, a number, for ["$score"] and a field of the item otherwise, so the
    name selects the branch of [cmp]. *)
Definition cmp_field `{Runtime} (self : Sifter) (name : string) (a b : ResultItem) : Z :=
  if bool_decide (name = "$score"%string) then cmp_number (score a) (score b)
  else cmp_text (lookup_item self (id a) ≫= λ it, getattr it name)
                (lookup_item self (id b) ≫= λ it, getattr it name).

Definition is_score_key (k : SortKey) : bool := bool_decide (field k = "$score"%string).

(** [fields.splice(i, 1)] at the first ["$score"] key *)
Fixpoint splice_first_score (fields : list SortKey) : list SortKey :=
  match fields with
  | [] => []
  | k :: rest => if is_score_key k then rest else k :: splice_first_score rest
  end.

(** The array [fields] of [getSortFunction] once the options are parsed. *)
Definition sort_fields (search : Search) (options : Options) : list SortKey :=
  let has_query := negb (bool_decide (s_query search = [])) in
  let sort :=
    if has_query then o_sort options
    else match o_sort_empty options with Some l => Some l | None => o_sort options end in
  let fields :=
    match sort with
    | Some l => List.filter (λ k, has_query || negb (is_score_key k)) l
    | None => []
    end in
  if has_query then
    if existsb is_score_key fields then fields
    else {| field := "$score"; direction := Some "desc"%string |} :: fields
  else splice_first_score fields.

Definition multiplier (k : SortKey) : Z :=
  if bool_decide (direction k = Some "desc"%string) then -1 else 1.

(** The comparator over several keys: the first result that is not 0. *)
Fixpoint cmp_fields `{Runtime} (self : Sifter) (fields : list SortKey) (a b : ResultItem) : Z :=
  match fields with
  | [] => 0
  | k :: rest =>
      let result := multiplier k * cmp_field self (field k) a b in
      if bool_decide (result = 0) then cmp_fields self rest a b else result
  end.

Definition getSortFunction `{Runtime} (self : Sifter) (search : Search) (options : Options)
    : option (ResultItem → ResultItem → Z) :=
  match sort_fields search options with
  | [] => None
  | [k] => Some (λ a b, multiplier k * cmp_field self (field k) a b)
  | fields => Some (cmp_fields self fields)
  end.

(** [Array.prototype.sort] with a comparator, stable: each element goes
    behind the elements that do not compare greater. *)
Fixpoint insert_sorted {A} (cmp : A → A → Z) (x : A) (l : list A) : list A :=
  match l with
  | [] => [x]
  | y :: l' => if 0 <? cmp y x then x :: l else y :: insert_sorted cmp x l'
  end.

Definition Array_sort {A} (cmp : A → A → Z) (l : list A) : list A :=
  foldl (λ sorted x, insert_sorted cmp x sorted) [] l.

(** [l.slice(0, limit)] *)
Definition slice_to {A} (limit : Z) (l : list A) : list A :=
  let len := Z.of_nat (length l) in
  let stop := if limit <? 0 then Z.max (len + limit) 0 else Z.min limit len in
  take (Z.to_nat stop) l.

(** ** Searching *)

(** [prepareSearch(query, options)] for a query string; [fields], [sort] and
    [sort_empty] are lists already. *)
Definition prepareSearch `{Runtime} (self : Sifter) (query : jsstring) (options : Options)
    : option Search :=
  tokens ← tokenize self query;
  Some {| s_options := options; s_query := toLowerCase query; s_tokens := tokens;
          s_total := 0; s_items := [] |}.

(** The loop of [search] over the items: every item with score 1 for the
    empty query, the items the filter lets through otherwise. *)
Definition collect (self : Sifter) (fn_score : Item → Q) (options : Options)
    (query : jsstring) : list ResultItem :=
  if negb (bool_decide (query = []))
  then flat_map (λ entry,
                   let score := fn_score entry.2 in
                   if bool_decide (o_filter options = Some false) || negb (Qle_bool score 0)
                   then [{| score := score; id := entry.1 |}] else [])
                (items self)
  else map (λ entry, {| score := 1; id := entry.1 |}) (items self).

Definition search `{Runtime} (self : Sifter) (query : jsstring) (options : Options)
    : option Search :=
  search ← prepareSearch self query options;
  let options := s_options search in
  let query := s_query search in
  let fn_score := default (getScoreFunction search) (o_score options) in
  let found := collect self fn_score options query in
  let found :=
    match getSortFunction self search options with
    | Some fn_sort => Array_sort fn_sort found
    | None => found
    end in
  Some {| s_options := options; s_query := query; s_tokens := s_tokens search;
          s_total := length found;
          s_items := match o_limit options with
                     | Some limit => slice_to limit found
                     | None => found
                     end |}.

(** ** A runtime for Latin-1 text

    The case mappings of the code units below 256; the other code units are
    left alone.  It is the JavaScript runtime on text of that range. *)

Definition latin1_lower (c : char) : char :=
  if ((65 <=? c) && (c <=? 90) || (192 <=? c) && (c <=? 222) && negb (c =? 215))%N
  then (c + 32)%N else c.

Definition latin1_canonicalize (c : char) : char :=
  if ((97 <=? c) && (c <=? 122) || (224 <=? c) && (c <=? 254) && negb (c =? 247))%N
  then (c - 32)%N
  else if (c =? 255)%N then 376%N
  else if (c =? 181)%N then 924%N
  else c.

Lemma latin1_lower_whitespace (s : jsstring) :
  forallb is_whitespace s = true → map latin1_lower s = s.
Proof.
  induction s as [|c s IH]; simpl; [done|].
  intros [Hc Hs]%andb_prop. f_equal; [|by apply IH].
  unfold is_whitespace in Hc. unfold latin1_lower.
  apply orb_prop in Hc as [Hc|Hc].
  - apply bool_decide_eq_true_1 in Hc.
    repeat (apply elem_of_cons in Hc as [->|Hc]; [reflexivity|]).
    by apply elem_of_nil in Hc.
  - apply andb_prop in Hc as [H1 H2].
    apply N.leb_le in H1. apply N.leb_le in H2.
    destruct (_ || _) eqn:E; [|done].
    apply orb_prop in E as [E|E].
    + apply andb_prop in E as [_ E]. apply N.leb_le in E. lia.
    + apply andb_prop in E as [E _]. apply andb_prop in E as [_ E]. apply N.leb_le in E. lia.
Qed.

(** The runtime of the examples. *)
#[export] Instance latin1 : Runtime := {|
  toLowerCase := map latin1_lower;
  canonicalize := latin1_canonicalize;
  toLowerCase_nil := eq_refl;
  toLowerCase_whitespace := latin1_lower_whitespace
|}.

End Sifter.

(* ===================================================================== *)
(** * The event emitter *)
(* ===================================================================== *)

Module MicroEvent.

(** A handler is a function object; [indexOf] tells handlers apart by
    identity, which a number stands for. *)
Abbreviation Handler := nat.

(** [this._events]: [None] while the property is not there, else the
    handlers of each event, in the order of their registration. *)
Abbreviation Emitter := (option (gmap string (list Handler))).

(** [this._events = this._events || {}] *)
Definition events_of (self : Emitter) : gmap string (list Handler) := default ∅ self.

(** [on(event, fct)] *)
Definition on (event : string) (fct : Handler) (self : Emitter) : Emitter :=
  let evs := events_of self in
  Some (<[event := default [] (evs !! event) ++ [fct]]> evs).

(** [Array.prototype.indexOf]; [None] is -1. *)
Fixpoint indexOf (fct : Handler) (l : list Handler) : option nat :=
  match l with
  | [] => None
  | g :: l' => if decide (g = fct) then Some 0%nat else S <$> indexOf fct l'
  end.

(** [list.splice(i, 1)] for the [i] that [indexOf] returned: -1 counts from
    the end of the list, so the last handler goes. *)
Definition splice_one (i : option nat) (l : list Handler) : list Handler :=
  match i with
  | Some i => delete i l
  | None => removelast l
  end.

(** [off()] with no argument: [delete this._events] *)
Definition off_all (self : Emitter) : Emitter := None.

(** [off(event)]: [delete this._events[event]]; [None] is the TypeError of
    reading a property of [undefined]. *)
Definition off_event (event : string) (self : Emitter) : option Emitter :=
  match self with
  | None => None
  | Some evs => Some (Some (delete event evs))
  end.

(** [off(event, fct)] *)
Definition off (event : string) (fct : Handler) (self : Emitter) : Emitter :=
  let evs := events_of self in
  match evs !! event with
  | None => Some evs
  | Some l => Some (<[event := splice_one (indexOf fct l) l]> evs)
  end.

(** [trigger(event, args...)]: the emitter and the handlers it calls, first
    to last, when no handler registers or removes a handler of the event. *)
Definition trigger (event : string) (self : Emitter) : Emitter * list Handler :=
  let evs := events_of self in
  (Some evs, default [] (evs !! event)).

End MicroEvent.

(* ===================================================================== *)
(** * Escaping *)
(* ===================================================================== *)

Module Html.
Import Sifter.

(** [escape_html(str)]: the four replacements in the order of the source. *)
Definition escape_html (s : jsstring) : jsstring :=
  replace_all 34 (str "&quot;")
    (replace_all 62 (str "&gt;")
       (replace_all 60 (str "&lt;")
          (replace_all 38 (str "&amp;") s))).

End Html.


(* ===================================================================== *)
(** * Properties of the selection state machine *)
(* ===================================================================== *)

Module SelectionFacts.
Import TomSelect.

(** ** What the page-side steps leave alone *)

(** The fields no dropdown, focus or event step writes. *)
Definition frame (s s' : State) : Prop :=
  settings s' = settings s ∧ items s' = items s ∧ control s' = control s ∧
  options s' = options s ∧ userOptions s' = userOptions s ∧
  loadedSearches s' = loadedSearches s ∧ loading s' = loading s ∧
  dispatched s' = dispatched s ∧ isSetup s' = isSetup s ∧
  isPending s' = isPending s ∧ isLocked s' = isLocked s.

(** A step of the page side: the frame and the query marker stay, and the
    caret stays or goes behind the last item. *)
Definition ui_step (s s' : State) : Prop :=
  frame s s' ∧ lastQuery s' = lastQuery s ∧
  (caretPos s' = caretPos s ∨ caretPos s' = Z.of_nat (length (items s))).

Lemma frame_refl s : frame s s.
Proof. by repeat split. Qed.

Lemma frame_trans s1 s2 s3 : frame s1 s2 → frame s2 s3 → frame s1 s3.
Proof. unfold frame. intros H1 H2. destruct_and!. split_and!; congruence. Qed.

Lemma ui_step_refl s : ui_step s s.
Proof. split; [apply frame_refl|]. by split; [|left]. Qed.

Lemma ui_step_trans s1 s2 s3 : ui_step s1 s2 → ui_step s2 s3 → ui_step s1 s3.
Proof.
  intros (F1 & Q1 & C1) (F2 & Q2 & C2).
  split; [by eapply frame_trans|]. split; [congruence|].
  assert (items s2 = items s1) as E by apply F1.
  rewrite E in C2. destruct C1, C2; [left|right|right|right]; congruence.
Qed.

Lemma frame_is_single s s' : frame s s' → is_single s' = is_single s.
Proof. intros F. unfold is_single. by rewrite (proj1 F). Qed.

Lemma frame_is_multi s s' : frame s s' → is_multi s' = is_multi s.
Proof. intros F. unfold is_multi. by rewrite (proj1 F). Qed.

Lemma frame_isFull s s' : frame s s' → isFull s' = isFull s.
Proof.
  intros (F1 & F2 & _). unfold isFull. by rewrite F1, F2.
Qed.

Lemma frame_has_option k s s' : frame s s' → has_option k s' = has_option k s.
Proof. intros (_ & _ & _ & F & _). unfold has_option. by rewrite F. Qed.

Lemma ui_step_trigger e s : ui_step s (trigger e s).
Proof.
  unfold trigger. destruct (trigger_held e (held s)); repeat split; auto.
Qed.

Lemma ui_step_triggers es s : ui_step s (foldl (λ s' e, trigger e s') s es).
Proof.
  revert s. induction es as [|e es IH]; intros s; simpl; [apply ui_step_refl|].
  eapply ui_step_trans; [apply ui_step_trigger|apply IH].
Qed.

Lemma ui_step_hideInput s : ui_step s (hideInput s).
Proof. unfold hideInput. destruct (controlInput _); repeat split; auto. Qed.

Lemma ui_step_close_blurring s : ui_step s (close_blurring s).
Proof.
  unfold close_blurring, close_with.
  set (s1 := if _ && _ then _ else s).
  assert (ui_step s s1) as H1.
  { subst s1. destruct (_ && _); [|apply ui_step_refl].
    destruct (isBlurring _); apply ui_step_hideInput. }
  eapply ui_step_trans; [exact H1|].
  destruct (isOpen s).
  - eapply ui_step_trans; [|apply ui_step_trigger]. repeat split; auto.
  - repeat split; auto.
Qed.

Lemma ui_step_onBlur s : ui_step s (onBlur s).
Proof.
  unfold onBlur. destruct (negb _); [apply ui_step_refl|].
  eapply ui_step_trans; [|apply ui_step_trigger].
  set (s1 := close_blurring _).
  assert (ui_step s s1) as H1.
  { subst s1. eapply ui_step_trans; [|apply ui_step_close_blurring]. repeat split; auto. }
  eapply ui_step_trans; [exact H1|].
  unfold setCaret. repeat split; simpl; auto.
  destruct (_ || _); [by right|]. right. lia.
Qed.

Lemma ui_step_close s : ui_step s (close s).
Proof.
  unfold close, close_with, blur.
  set (s1 := if _ && _ then _ else s).
  assert (ui_step s s1) as H1.
  { subst s1. destruct (_ && _); [|apply ui_step_refl].
    destruct (isBlurring _); [apply ui_step_hideInput|].
    eapply ui_step_trans; [apply ui_step_hideInput|apply ui_step_onBlur]. }
  eapply ui_step_trans; [exact H1|].
  destruct (isOpen s).
  - eapply ui_step_trans; [|apply ui_step_trigger]. repeat split; auto.
  - repeat split; auto.
Qed.

Lemma ui_step_open s : ui_step s (open s).
Proof.
  unfold open. destruct (_ || _); [apply ui_step_refl|].
  eapply ui_step_trans; [|apply ui_step_trigger]. repeat split; auto.
Qed.

Lemma ui_step_updateOriginalInput silent s : ui_step s (updateOriginalInput silent s).
Proof.
  unfold updateOriginalInput. destruct (_ && _); [apply ui_step_trigger|apply ui_step_refl].
Qed.

(** [refreshOptions] is a page-side step but for the marker, which it sets
    to the current input text. *)
Lemma refreshOptions_spec dom td s :
  let s' := refreshOptions dom td s in
  frame s s' ∧ lastQuery s' = Some (inputValue s) ∧
  (caretPos s' = caretPos s ∨ caretPos s' = Z.of_nat (length (items s))).
Proof.
  unfold refreshOptions.
  set (s1 := search (inputValue s) s).
  assert (frame s s1 ∧ lastQuery s1 = Some (inputValue s) ∧ caretPos s1 = caretPos s
          ∧ inputValue s1 = inputValue s) as (F1 & Q1 & C1 & I1).
  { subst s1. unfold search, search_recomputes.
    case_bool_decide as E; simpl; repeat split; auto. }
  assert (∀ s2, ui_step s1 s2 →
            frame s s2 ∧ lastQuery s2 = Some (inputValue s) ∧
            (caretPos s2 = caretPos s ∨ caretPos s2 = Z.of_nat (length (items s)))) as K.
  { intros s2 (F2 & Q2 & C2). split; [by eapply frame_trans|]. split; [congruence|].
    assert (items s1 = items s) as E by apply F1. rewrite E, C1 in C2. exact C2. }
  simpl.
  destruct (_ || _).
  - destruct (_ && _); apply K; [apply ui_step_open|apply ui_step_refl].
  - destruct (_ && _); apply K; [apply ui_step_close|apply ui_step_refl].
Qed.

(** A step of the event bus: only [events] and [held] may differ. *)
Definition bus_step (s s' : State) : Prop :=
  frame s s' ∧ lastQuery s' = lastQuery s ∧ caretPos s' = caretPos s ∧
  isOpen s' = isOpen s ∧ isFocused s' = isFocused s ∧
  isBlurring s' = isBlurring s ∧ inputValue s' = inputValue s.

Lemma bus_step_refl s : bus_step s s.
Proof. by repeat split. Qed.

Lemma bus_step_trans s1 s2 s3 : bus_step s1 s2 → bus_step s2 s3 → bus_step s1 s3.
Proof.
  intros (F1 & H1) (F2 & H2). split; [by eapply frame_trans|].
  destruct_and!. split_and!; congruence.
Qed.

Lemma bus_step_ui s s' : bus_step s s' → ui_step s s'.
Proof. intros (F & Q & C & _). split; [done|]. split; [done|by left]. Qed.

Lemma bus_step_set_held hs s : bus_step s (set_held hs s).
Proof. by repeat split. Qed.

Lemma bus_step_trigger e s : bus_step s (trigger e s).
Proof. unfold trigger. destruct (trigger_held e (held s)); by repeat split. Qed.

Lemma bus_step_triggers es s : bus_step s (foldl (λ s' e, trigger e s') s es).
Proof.
  revert s. induction es as [|e es IH]; intros s; simpl; [apply bus_step_refl|].
  eapply bus_step_trans; [apply bus_step_trigger|apply IH].
Qed.

(** [debounce_events] runs [fn] on the state with one more layer of held
    events, then only moves events. *)
Lemma debounce_events_bus tys fn s :
  bus_step (fn (set_held ({| types := tys; event_args := [] |} :: held s) s))
           (debounce_events tys fn s).
Proof.
  unfold debounce_events. destruct (held (fn _)) as [|h hs]; [apply bus_step_refl|].
  eapply bus_step_trans; [apply bus_step_set_held|apply bus_step_triggers].
Qed.

Lemma set_held_id s : set_held (held s) s = s.
Proof. by destruct s. Qed.

(** ** Widgets of the examples *)

Definition settings_multi : Settings :=
  {| mode := multi; maxItems := None; duplicates := false; persist := true;
     controlInput := false; load := true; maxOptions := Some 1000;
     render_no_results := true |}.

Definition settings_single : Settings :=
  {| mode := single; maxItems := Some 1; duplicates := false; persist := true;
     controlInput := false; load := true; maxOptions := Some 1000;
     render_no_results := true |}.

Definition no_rendering : Rendering := {| results_length := 0; selectable_length := 0 |}.

Definition options_ab : gmap string Data :=
  {[ "a"%string := ∅; "b"%string := ∅ ]}.

(** ** Clearing the options *)

(** What [clearOptions] is written to do, and does when its loop can assign
    to [key]: on return the option map holds exactly the entries of the
    selected keys, unchanged, the selection is the one before the call, the
    loaded-queries set and the user-option markers are empty and the query
    marker is null. *)
Theorem clearOptions_keeps_selected (global_key : bool) (s s' : State) :
  clearOptions global_key s = (s', Normal) →
  (∀ k, options s' !! k = if decide (Some k ∈ items s) then options s !! k else None) ∧
  items s' = items s ∧
  loadedSearches s' = ∅ ∧
  userOptions s' = ∅ ∧
  lastQuery s' = None.
Proof.
  unfold clearOptions. destruct (_ && _); [discriminate|].
  intros [= <-].
  pose proof (bus_step_trigger EvOptionClear
    (set_lastQuery None (set_options
       (filter (λ kv : string * Data, Some kv.1 ∈ items s) (options s))
       (set_userOptions ∅ (set_loadedSearches ∅ s))))) as (F & Q & _).
  destruct F as (_ & Fi & _ & Fo & Fu & Fl & _).
  simpl in *. rewrite Fo, Fi, Fl, Fu, Q. split_and!; try done.
  intros k. destruct (decide (Some k ∈ items s)) as [Hin|Hin].
  - destruct (options s !! k) as [d|] eqn:E.
    + by apply map_lookup_filter_Some_2.
    + apply map_lookup_filter_None. by left.
  - apply map_lookup_filter_None. right. intros d _. exact Hin.
Qed.

(** [clearOptions] returns whenever the host defines the global it assigns
    to, or there is no option to iterate over. *)
Lemma clearOptions_returns (global_key : bool) (s : State) :
  global_key = true ∨ options s = ∅ → (clearOptions global_key s).2 = Normal.
Proof.
  unfold clearOptions. simpl. intros [->| ->]; simpl; [done|].
  rewrite bool_decide_eq_true_2 by done. by rewrite andb_false_r.
Qed.

Lemma clearOptions_returns_eq (global_key : bool) (s : State) :
  (clearOptions global_key s).2 = Normal →
  clearOptions global_key s = ((clearOptions global_key s).1, Normal).
Proof. destruct (clearOptions global_key s) as [s' c]. simpl. by intros ->. Qed.

(** Otherwise it raises before it replaces the option map. *)
Lemma clearOptions_throws (s : State) :
  options s ≠ ∅ →
  ∃ s', clearOptions false s = (s', Throw "ReferenceError: key is not defined") ∧
        options s' = options s ∧ lastQuery s' = lastQuery s ∧
        loadedSearches s' = ∅ ∧ userOptions s' = ∅.
Proof.
  intros Hne. unfold clearOptions. simpl.
  rewrite bool_decide_eq_false_2 by done. simpl.
  eexists. split; [reflexivity|]. by repeat split.
Qed.

Definition selected_a : State :=
  addItem no_rendering (VString "a") false (constructed settings_multi options_ab).

Lemma clearOptions_keeps_selected_witness :
  (∀ k, options (clearOptions true selected_a).1 !! k
        = if decide (Some k ∈ items selected_a) then options selected_a !! k else None) ∧
  items (clearOptions true selected_a).1 = items selected_a ∧
  loadedSearches (clearOptions true selected_a).1 = ∅ ∧
  userOptions (clearOptions true selected_a).1 = ∅ ∧
  lastQuery (clearOptions true selected_a).1 = None.
Proof.
  apply (clearOptions_keeps_selected true selected_a).
  apply clearOptions_returns_eq, clearOptions_returns. by left.
Defined.

(** C10: in a page that defines no global [key], [clearOptions] on a widget
    that holds the options a and b, with a selected, does not return: it
    raises at the first iteration of its loop.  The option b, which is not
    selected, is still registered afterwards and no option_clear event has
    been sent; only the loaded-queries set and the user-option markers have
    been emptied. *)
Lemma clearOptions_raises :
  items selected_a = [Some "a"%string] ∧
  ∃ s', clearOptions false selected_a = (s', Throw "ReferenceError: key is not defined") ∧
        options s' !! "b"%string = Some ∅ ∧
        events s' = events selected_a ∧
        loadedSearches s' = ∅ ∧ userOptions s' = ∅.
Proof.
  assert (options selected_a !! "b"%string = Some ∅) as Hb by (vm_compute; reflexivity).
  split; [vm_compute; reflexivity|].
  destruct (clearOptions_throws selected_a) as (s' & E & Ho & _ & Hl & Hu).
  { intros Hempty. rewrite Hempty in Hb. by rewrite lookup_empty in Hb. }
  exists s'. rewrite Ho. split_and!; try done.
  unfold clearOptions in E. simpl in E.
  destruct (negb (bool_decide _)); [|discriminate]. by injection E as <-.
Qed.

(** ** What the selection steps leave alone *)

(** The fields no call on the selection or the options writes. *)
Definition frame_reg (s s' : State) : Prop :=
  settings s' = settings s ∧ loadedSearches s' = loadedSearches s ∧
  loading s' = loading s ∧ dispatched s' = dispatched s ∧
  isSetup s' = isSetup s ∧ isPending s' = isPending s ∧ isLocked s' = isLocked s.

(** The fields no call on the selection writes. *)
Definition frame_sel (s s' : State) : Prop :=
  frame_reg s s' ∧ options s' = options s ∧ userOptions s' = userOptions s.

Lemma frame_reg_refl s : frame_reg s s.
Proof. by repeat split. Qed.

Lemma frame_reg_trans s1 s2 s3 : frame_reg s1 s2 → frame_reg s2 s3 → frame_reg s1 s3.
Proof. unfold frame_reg. intros H1 H2. destruct_and!. split_and!; congruence. Qed.

Lemma frame_sel_refl s : frame_sel s s.
Proof. by repeat split. Qed.

Lemma frame_sel_trans s1 s2 s3 : frame_sel s1 s2 → frame_sel s2 s3 → frame_sel s1 s3.
Proof.
  intros (R1 & O1 & U1) (R2 & O2 & U2).
  split; [by eapply frame_reg_trans|]. split; congruence.
Qed.

Lemma frame_frame_sel s s' : frame s s' → frame_sel s s'.
Proof. unfold frame, frame_sel, frame_reg. intros H. destruct_and!. by split_and!. Qed.


Lemma ui_step_frame_sel s s' : ui_step s s' → frame_sel s s'.
Proof. intros [F _]. by apply frame_frame_sel. Qed.

Lemma setCaret_frame i s : frame s (setCaret i s).
Proof. by repeat split. Qed.

Lemma setCaret_lastQuery i s : lastQuery (setCaret i s) = lastQuery s.
Proof. reflexivity. Qed.

Lemma setCaret_items i s : items (setCaret i s) = items s.
Proof. reflexivity. Qed.

(** The caret is within the selection. *)
Definition caret_ok (s : State) : Prop := 0 ≤ caretPos s ≤ Z.of_nat (length (items s)).

Lemma setCaret_caret_ok i s : caret_ok (setCaret i s).
Proof. unfold caret_ok, setCaret. simpl. destruct (_ || _); lia. Qed.

Lemma ui_step_caret_ok s s' : ui_step s s' → caret_ok s → caret_ok s'.
Proof.
  intros (F & _ & C) H. unfold caret_ok in *.
  assert (items s' = items s) as E by apply F. rewrite E. destruct C as [-> | ->]; lia.
Qed.

Lemma page_step_caret_ok s s' :
  frame s s' →
  caretPos s' = caretPos s ∨ caretPos s' = Z.of_nat (length (items s)) →
  caret_ok s → caret_ok s'.
Proof.
  intros F C H. unfold caret_ok in *.
  assert (items s' = items s) as E by apply F. rewrite E. destruct C as [-> | ->]; lia.
Qed.

(** [clear] is a no-op on the empty selection; otherwise it empties the
    selection and the control, resets the marker and moves the caret. *)
Lemma clear_cases silent s :
  (items s = [] ∧ clear silent s = s) ∨
  (items s ≠ [] ∧
   ui_step (setCaret 0 (set_lastQuery None (set_items [] (set_control [] s)))) (clear silent s)).
Proof.
  unfold clear. case_bool_decide as E; [by left|right]. split; [done|].
  eapply ui_step_trans; [apply ui_step_updateOriginalInput|apply ui_step_trigger].
Qed.

Lemma clear_frame_sel silent s : frame_sel s (clear silent s).
Proof.
  destruct (clear_cases silent s) as [[_ ->]|[_ H]]; [apply frame_sel_refl|].
  eapply frame_sel_trans; [|by apply ui_step_frame_sel]. by repeat split.
Qed.

Lemma clear_items silent s : items (clear silent s) = [].
Proof.
  destruct (clear_cases silent s) as [[E ->]|[_ ((_ & -> & _) & _)]]; done.
Qed.

Lemma clear_control silent s : items s ≠ [] → control (clear silent s) = [].
Proof.
  destruct (clear_cases silent s) as [[E _]|[_ ((_ & _ & -> & _) & _)]]; done.
Qed.

Lemma clear_caret_ok silent s : caret_ok s → caret_ok (clear silent s).
Proof.
  intros H. destruct (clear_cases silent s) as [[_ ->]|[_ U]]; [done|].
  eapply ui_step_caret_ok; [exact U|apply setCaret_caret_ok].
Qed.

Lemma clear_lastQuery silent s : items s ≠ [] → lastQuery (clear silent s) = None.
Proof.
  intros Hne. destruct (clear_cases silent s) as [[E _]|[_ (_ & -> & _)]]; done.
Qed.

Lemma clear_inputValue silent s : inputValue (clear silent s) = inputValue s.
Proof.
  unfold clear. case_bool_decide; [done|].
  rewrite (proj2 (proj2 (proj2 (proj2 (proj2 (proj2 (bus_step_trigger _ _))))))).
  unfold updateOriginalInput. destruct (_ && _); [|done].
  by rewrite (proj2 (proj2 (proj2 (proj2 (proj2 (proj2 (bus_step_trigger _ _))))))).
Qed.

(** [insert_item]: the key goes in at the caret and the caret behind it. *)
Lemma insert_item_frame_sel k s : frame_sel s (insert_item k s).
Proof. by repeat split. Qed.


Lemma insert_item_lastQuery k s : lastQuery (insert_item k s) = lastQuery s.
Proof. reflexivity. Qed.

Lemma insert_item_inputValue k s : inputValue (insert_item k s) = inputValue s.
Proof. reflexivity. Qed.

Lemma insert_item_caret_ok k s : caret_ok (insert_item k s).
Proof. unfold insert_item, insertAtCaret. apply setCaret_caret_ok. Qed.

Lemma splice_insert_length {A} (start : Z) (x : A) (l : list A) :
  length (splice_insert start x l) = S (length l).
Proof.
  unfold splice_insert. rewrite length_app. simpl.
  rewrite length_take, length_drop. lia.
Qed.

Lemma splice_insert_nil {A} (start : Z) (x : A) : splice_insert start x [] = [x].
Proof. unfold splice_insert. by rewrite take_nil, drop_nil. Qed.

(** [addItem_refresh] is a page-side step but for the marker: in a set-up
    widget outside a batch it is the current input text. *)
Lemma addItem_refresh_spec dom k silent s :
  let s' := addItem_refresh dom k silent s in
  frame s s' ∧
  (caretPos s' = caretPos s ∨ caretPos s' = Z.of_nat (length (items s))) ∧
  lastQuery s' = if isSetup s && negb (isPending s) then Some (inputValue s) else lastQuery s.
Proof.
  unfold addItem_refresh. destruct (isSetup s) eqn:Hsetup; simpl;
    [|split; [apply frame_refl|]; split; [by left|done]].
  set (s1 := if negb (isPending s) then _ else s).
  assert (frame s s1 ∧
          (caretPos s1 = caretPos s ∨ caretPos s1 = Z.of_nat (length (items s))) ∧
          lastQuery s1 = if negb (isPending s) then Some (inputValue s) else lastQuery s)
    as (F1 & C1 & Q1).
  { subst s1. destruct (negb (isPending s)).
    - pose proof (refreshOptions_spec dom (isFocused s && negb (is_single s)) s) as (? & ? & ?).
      by split_and!.
    - split; [apply frame_refl|]. split; [by left|done]. }
  assert (∀ s2, ui_step s1 s2 →
     frame s s2 ∧
     (caretPos s2 = caretPos s ∨ caretPos s2 = Z.of_nat (length (items s))) ∧
     lastQuery s2 = if negb (isPending s) then Some (inputValue s) else lastQuery s) as K.
  { intros s2 (F2 & Q2 & C2). split; [by eapply frame_trans|].
    assert (items s1 = items s) as E by apply F1. rewrite E in C2.
    split; [|congruence]. destruct C1 as [C1|C1], C2 as [C2|C2]; [left|right|right|right]; congruence. }
  apply K.
  eapply ui_step_trans;
    [|match goal with |- ui_step _ (if ?b then _ else _) => destruct b end;
      [apply ui_step_updateOriginalInput|apply ui_step_refl]].
  eapply ui_step_trans; [|apply ui_step_trigger].
  match goal with |- ui_step _ (if ?b then _ else _) => destruct b end;
    [apply ui_step_close|apply ui_step_refl].
Qed.

(** ** [addItem] by cases *)

Lemma addItem_body_eq dom value silent s :
  addItem_body dom value silent s =
  if bool_decide (hash_key value ∈ items s) && (is_single s || negb (duplicates (settings s)))
  then (if is_single s then close s else s)
  else if negb (has_option (hash_key value) s) then s
  else if is_multi s && isFull (if is_single s then clear silent s else s)
       then (if is_single s then clear silent s else s)
       else addItem_refresh dom (hash_key value) silent
              (insert_item (hash_key value) (if is_single s then clear silent s else s)).
Proof.
  unfold addItem_body.
  destruct (bool_decide (hash_key value ∈ items s)) eqn:Hsel, (is_single s) eqn:Hmode;
    cbn [andb orb negb].
  - pose proof (ui_step_close s) as [F _]. by rewrite (frame_is_single _ _ F), Hmode.
  - by rewrite !Hmode.
  - rewrite !Hmode. destruct (has_option _ s); cbn [andb orb negb]; [|done].
    pose proof (clear_frame_sel silent s) as [[E _] _].
    unfold is_multi. by rewrite E.
  - by rewrite !Hmode.
Qed.

Lemma is_single_multi s : is_multi s = negb (is_single s).
Proof.
  unfold is_multi, is_single. destruct (mode (settings s)); by repeat case_bool_decide.
Qed.

Lemma addItem_body_frame_sel dom value silent s :
  frame_sel s (addItem_body dom value silent s).
Proof.
  rewrite addItem_body_eq.
  assert (frame_sel s (if is_single s then clear silent s else s)) as H1.
  { destruct (is_single s); [apply clear_frame_sel|apply frame_sel_refl]. }
  destruct (_ && _).
  { destruct (is_single s); [apply ui_step_frame_sel, ui_step_close|apply frame_sel_refl]. }
  destruct (negb _); [apply frame_sel_refl|].
  destruct (_ && _); [done|].
  eapply frame_sel_trans; [exact H1|].
  eapply frame_sel_trans; [apply insert_item_frame_sel|].
  apply frame_frame_sel, addItem_refresh_spec.
Qed.

Lemma addItem_body_caret_ok dom value silent s :
  caret_ok s → caret_ok (addItem_body dom value silent s).
Proof.
  intros H. rewrite addItem_body_eq.
  assert (caret_ok (if is_single s then clear silent s else s)) as H1.
  { destruct (is_single s); [by apply clear_caret_ok|done]. }
  destruct (_ && _).
  { destruct (is_single s); [|done]. eapply ui_step_caret_ok; [apply ui_step_close|done]. }
  destruct (negb _); [done|].
  destruct (_ && _); [done|].
  pose proof (addItem_refresh_spec dom (hash_key value) silent
                (insert_item (hash_key value) (if is_single s then clear silent s else s)))
    as (F & C & _).
  eapply page_step_caret_ok; [exact F|exact C|apply insert_item_caret_ok].
Qed.



(** [addItem] itself: the body between two steps of the event bus. *)
Lemma addItem_bus dom value silent s :
  ∃ s0, bus_step s s0 ∧ bus_step (addItem_body dom value silent s0) (addItem dom value silent s).
Proof.
  eexists. split; [|apply debounce_events_bus]. apply bus_step_set_held.
Qed.

Lemma bus_step_frame_sel s s' : bus_step s s' → frame_sel s s'.
Proof. intros [F _]. by apply frame_frame_sel. Qed.

Lemma bus_step_caret_ok s s' : bus_step s s' → caret_ok s → caret_ok s'.
Proof. intros B. apply ui_step_caret_ok. by apply bus_step_ui. Qed.




Lemma addItem_frame_sel dom value silent s : frame_sel s (addItem dom value silent s).
Proof.
  destruct (addItem_bus dom value silent s) as (s0 & B0 & B1).
  eapply frame_sel_trans; [by apply bus_step_frame_sel|].
  eapply frame_sel_trans; [apply addItem_body_frame_sel|by apply bus_step_frame_sel].
Qed.

Lemma addItem_caret_ok dom value silent s :
  caret_ok s → caret_ok (addItem dom value silent s).
Proof.
  intros H. destruct (addItem_bus dom value silent s) as (s0 & B0 & B1).
  eapply bus_step_caret_ok; [exact B1|].
  apply addItem_body_caret_ok. by eapply bus_step_caret_ok.
Qed.



(** ** Unknown keys *)







(** ** [removeItem] *)

Lemma indexOf_Some {A} `{EqDecision A} (x : A) (l : list A) (i : nat) :
  indexOf x l = Some i → l !! i = Some x.
Proof.
  revert i. induction l as [|y l IH]; intros i; simpl; [done|].
  destruct (decide (y = x)) as [->|Hne].
  - by intros [= <-].
  - destruct (indexOf x l) as [j|]; simpl; [|done]. intros [= <-]. by apply IH.
Qed.

Lemma indexOf_elem {A} `{EqDecision A} (x : A) (l : list A) :
  x ∈ l → is_Some (indexOf x l).
Proof.
  induction 1 as [x l|x y l Hin IH]; simpl.
  - rewrite decide_True by done. by eexists.
  - destruct (decide (y = x)); [by eexists|]. destruct IH as [i ->]. by eexists.
Qed.

Lemma indexOf_None {A} `{EqDecision A} (x : A) (l : list A) :
  indexOf x l = None → x ∉ l.
Proof.
  intros E Hin. apply indexOf_elem in Hin as [i Hi]. congruence.
Qed.

(** What a call of [removeItem] or [removeOption] does to the fields the
    properties below read: the selection does not grow, the caret is within
    the selection or nothing moved, and the marker is null or untouched. *)
Definition removal_step (s s' : State) : Prop :=
  frame_reg s s' ∧
  (length (items s') ≤ length (items s))%nat ∧
  (0 ≤ caretPos s → caret_ok s' ∨ (items s' = items s ∧ caretPos s' = caretPos s)) ∧
  (lastQuery s' = None ∨ lastQuery s' = lastQuery s).

Definition removal_like (f : Value → bool → State → State) : Prop :=
  ∀ v sl s, removal_step s (f v sl s).

Lemma removal_step_refl s : removal_step s s.
Proof. split; [apply frame_reg_refl|]. split; [done|]. split; [by right|by right]. Qed.

Lemma removal_like_id : removal_like (λ _ _ s, s).
Proof. intros v sl s. apply removal_step_refl. Qed.

Lemma removeOption_open_spec f key sl s :
  removal_like f →
  let s' := removeOption_open f key sl s in
  removal_step s s' ∧ lastQuery s' = None.
Proof.
  intros Hf. unfold removeOption_open.
  set (s1 := trigger _ _).
  assert (frame_reg s s1 ∧ items s1 = items s ∧ caretPos s1 = caretPos s ∧ lastQuery s1 = None)
    as (R1 & I1 & C1 & Q1).
  { subst s1.
    match goal with |- context [trigger ?e ?s0] =>
      pose proof (bus_step_trigger e s0) as (F & Q & C & _) end.
    destruct F as (F1 & F2 & _ & _ & _ & F6 & F7 & F8 & F9 & F10 & F11).
    simpl in *. by repeat split. }
  destruct (Hf (value_of_key key) sl s1) as (R2 & L2 & C2 & Q2). simpl.
  split; [|destruct Q2; congruence].
  split; [by eapply frame_reg_trans|]. split; [by rewrite <- I1|].
  split; [|left; destruct Q2; congruence].
  intros H0. rewrite <- C1 in H0. destruct (C2 H0) as [?|[? ?]]; [by left|right].
  split; congruence.
Qed.

Lemma removeItem_at_spec f k i sl s :
  removal_like f →
  is_Some (items s !! i) →
  let s' := removeItem_at f k i sl s in
  frame_reg s s' ∧
  (length (items s') < length (items s))%nat ∧
  (0 ≤ caretPos s → caret_ok s') ∧
  lastQuery s' = None.
Proof.
  intros Hf Hi. unfold removeItem_at.
  set (s3 := set_lastQuery None _).
  assert (frame_reg s s3 ∧ items s3 = delete i (items s) ∧ caretPos s3 = caretPos s
          ∧ lastQuery s3 = None) as (R3 & I3 & C3 & Q3) by (by repeat split).
  set (s4 := if _ && _ then _ else s3).
  assert (removal_step s3 s4 ∧ lastQuery s4 = None) as ((R4 & L4 & C4 & _) & Q4).
  { subst s4. destruct (_ && _).
    - by apply removeOption_open_spec.
    - split; [apply removal_step_refl|done]. }
  set (s5 := if _ <? _ then _ else s4).
  assert (frame_reg s4 s5 ∧ items s5 = items s4 ∧ lastQuery s5 = None
          ∧ (0 ≤ caretPos s → caret_ok s5)) as (R5 & I5 & Q5 & C5).
  { subst s5. destruct (Z.ltb_spec (Z.of_nat i) (caretPos s4)) as [Hlt|Hge].
    - split; [by repeat split|]. split; [done|]. split; [done|].
      intros _. apply setCaret_caret_ok.
    - split; [apply frame_reg_refl|]. split; [done|]. split; [done|].
      intros H0. rewrite <- C3 in H0. destruct (C4 H0) as [?|[E4 E4']]; [done|].
      unfold caret_ok. rewrite E4, E4', I3, length_delete by done.
      apply lookup_lt_is_Some in Hi. rewrite E4', C3 in Hge. rewrite C3 in H0. lia. }
  assert (ui_step s5 (trigger (EvItemRemove k) (updateOriginalInput sl s5))) as U.
  { eapply ui_step_trans; [apply ui_step_updateOriginalInput|apply ui_step_trigger]. }
  pose proof (ui_step_frame_sel _ _ U) as [R6 _].
  destruct U as ((_ & I6 & _) & Q6 & C6).
  split; [eauto using frame_reg_trans|].
  split.
  { rewrite I6, I5. eapply Nat.le_lt_trans; [exact L4|].
    rewrite I3, length_delete by done. apply lookup_lt_is_Some in Hi. lia. }
  split; [|congruence].
  intros H0. eapply page_step_caret_ok; [|exact C6|by apply C5].
  eapply ui_step_trans; [apply ui_step_updateOriginalInput|apply ui_step_trigger].
Qed.

Lemma removal_like_open f : removal_like f → removal_like (removeItem_open f).
Proof.
  intros Hf v sl s. unfold removeItem_open.
  destruct (hash_key v) as [k|]; [|apply removal_step_refl].
  destruct (negb _); [apply removal_step_refl|].
  destruct (indexOf (Some k) (items s)) as [i|] eqn:Ei; [|apply removal_step_refl].
  apply indexOf_Some in Ei.
  destruct (removeItem_at_spec f k i sl s Hf (mk_is_Some _ _ Ei)) as (R & L & C & Q).
  split; [done|]. split; [lia|]. split; [by left; apply C|by left].
Qed.

Lemma removeItem_removal_like : removal_like removeItem.
Proof. apply removal_like_open, removal_like_open, removal_like_id. Qed.

Lemma removeOption_removal_step value sl s : removal_step s (removeOption value sl s).
Proof. apply removeOption_open_spec, removeItem_removal_like. Qed.

Lemma removal_step_caret_ok s s' : removal_step s s' → caret_ok s → caret_ok s'.
Proof.
  intros (_ & _ & C & _) H. destruct (C (proj1 H)) as [?|[E1 E2]]; [done|].
  unfold caret_ok in *. by rewrite E1, E2.
Qed.

(** The third [removeItem] of the recursion is never reached: the
    definition of [removeItem] satisfies the equation of the source. *)
Lemma removeItem_open_ext f g value sl s :
  (∀ k i, removeItem_at f k i sl s = removeItem_at g k i sl s) →
  removeItem_open f value sl s = removeItem_open g value sl s.
Proof.
  intros H. unfold removeItem_open. destruct (hash_key value) as [k|]; [|done].
  destruct (negb _); [done|]. destruct (indexOf _ _); [|done]. apply H.
Qed.

Lemma removeItem_at_ext f g k i sl s :
  (∀ s', k ∉ userOptions s' → f (VString k) sl s' = g (VString k) sl s') →
  removeItem_at f k i sl s = removeItem_at g k i sl s.
Proof.
  intros H. unfold removeItem_at.
  match goal with |- context [if ?b then removeOption_open f ?key sl ?s0 else _] =>
    assert (removeOption_open f key sl s0 = removeOption_open g key sl s0) as ->; [|done]
  end.
  unfold removeOption_open. apply H.
  match goal with |- _ ∉ userOptions (trigger ?e ?s0) =>
    pose proof (bus_step_trigger e s0) as ((_ & _ & _ & _ & E & _) & _) end.
  rewrite E. cbn [userOptions set_lastQuery set_options set_userOptions property_name default].
  set_solver.
Qed.

Lemma removeItem_at_indep f g k i sl s :
  k ∉ userOptions s → removeItem_at f k i sl s = removeItem_at g k i sl s.
Proof.
  intros H. unfold removeItem_at.
  cbn [userOptions settings set_lastQuery set_items set_control].
  rewrite (bool_decide_eq_false_2 (k ∈ userOptions s)) by done.
  by rewrite andb_false_r.
Qed.

Lemma removeItem_open_indep f g value sl s :
  (∀ k, hash_key value = Some k → k ∉ userOptions s) →
  removeItem_open f value sl s = removeItem_open g value sl s.
Proof.
  intros H. unfold removeItem_open. destruct (hash_key value) as [k|]; [|done].
  destruct (negb _); [done|]. destruct (indexOf _ _); [|done].
  apply removeItem_at_indep. by apply H.
Qed.

Lemma removeItem_unfold value sl s :
  removeItem value sl s = removeItem_open removeItem value sl s.
Proof.
  unfold removeItem. apply removeItem_open_ext. intros k i.
  apply removeItem_at_ext. intros s' Hs'.
  apply removeItem_open_indep. intros k' [= <-]. exact Hs'.
Qed.

(** ** Every call, step by step *)

Lemma addOption_spec key data s :
  frame_reg s (addOption key data s) ∧ items (addOption key data s) = items s ∧
  caretPos (addOption key data s) = caretPos s.
Proof.
  unfold addOption, registerOption. destruct key as [k|]; [|by repeat split].
  destruct (bool_decide _); [by repeat split|].
  match goal with |- context [trigger ?e ?s0] =>
    pose proof (bus_step_trigger e s0) as (F & _ & C & _) end.
  destruct F as (F1 & F2 & _ & _ & _ & F6 & F7 & F8 & F9 & F10 & F11).
  simpl in *. by repeat split.
Qed.

Lemma clearOptions_spec g s :
  settings (clearOptions g s).1 = settings s ∧ items (clearOptions g s).1 = items s ∧
  caretPos (clearOptions g s).1 = caretPos s ∧ dispatched (clearOptions g s).1 = dispatched s ∧
  loadedSearches (clearOptions g s).1 = ∅.
Proof.
  unfold clearOptions. destruct (_ && _); [by repeat split|]. simpl.
  match goal with |- context [trigger ?e ?s0] =>
    pose proof (bus_step_trigger e s0) as (F & _ & C & _) end.
  destruct F as (F1 & F2 & _ & _ & _ & F6 & F7 & F8 & _).
  simpl in *. by repeat split.
Qed.

Lemma onSearchChange_spec value s :
  settings (onSearchChange value s) = settings s ∧ items (onSearchChange value s) = items s ∧
  caretPos (onSearchChange value s) = caretPos s ∧
  loadedSearches s ⊆ loadedSearches (onSearchChange value s).
Proof.
  unfold onSearchChange. destruct (negb _); [by repeat split|].
  case_bool_decide; [by repeat split|]. simpl. repeat split. set_solver.
Qed.

Lemma step_settings op s : settings (step op s) = settings s.
Proof.
  destruct op; simpl.
  - apply addItem_frame_sel.
  - apply removeItem_removal_like.
  - apply clear_frame_sel.
  - reflexivity.
  - apply addOption_spec.
  - apply removeOption_removal_step.
  - apply clearOptions_spec.
  - apply onSearchChange_spec.
Qed.

Lemma run_snoc ops op s : run (ops ++ [op]) s = step op (run ops s).
Proof. unfold run. by rewrite foldl_app. Qed.

Lemma run_settings ops s : settings (run ops s) = settings s.
Proof.
  induction ops as [|op ops IH] using rev_ind; [done|].
  by rewrite run_snoc, step_settings.
Qed.

Lemma step_caret_ok op s : caret_ok s → caret_ok (step op s).
Proof.
  intros H. destruct op; simpl.
  - by apply addItem_caret_ok.
  - eapply removal_step_caret_ok; [apply removeItem_removal_like|done].
  - by apply clear_caret_ok.
  - apply setCaret_caret_ok.
  - destruct (addOption_spec key data s) as (_ & E1 & E2). unfold caret_ok. by rewrite E1, E2.
  - eapply removal_step_caret_ok; [apply removeOption_removal_step|done].
  - destruct (clearOptions_spec global_key s) as (_ & E1 & E2 & _). unfold caret_ok.
    by rewrite E1, E2.
  - destruct (onSearchChange_spec value s) as (_ & E1 & E2 & _). unfold caret_ok.
    by rewrite E1, E2.
Qed.


(** ** The caret *)

Lemma insert_item_advances k s :
  is_single s = false → controlInput (settings s) = false → caret_ok s →
  items (insert_item k s)
    = take (Z.to_nat (caretPos s)) (items s) ++ k :: drop (Z.to_nat (caretPos s)) (items s) ∧
  caretPos (insert_item k s) = caretPos s + 1.
Proof.
  intros Hmode Hci [H0 H1]. unfold insert_item, insertAtCaret, setCaret, splice_insert.
  cbn [items caretPos set_items set_control set_caretPos settings].
  unfold is_single in *. cbn [settings set_items set_control]. rewrite Hmode, Hci.
  cbn [orb]. rewrite length_app, length_take. cbn [length]. rewrite length_drop.
  destruct (Z.ltb_spec (caretPos s) 0) as [?|_]; [lia|].
  rewrite (Z.min_l (caretPos s)) by lia. split; [done|]. lia.
Qed.

Lemma removeItem_at_decrements f k i sl s :
  is_single s = false → controlInput (settings s) = false → caret_ok s →
  persist (settings s) = true →
  is_Some (items s !! i) →
  Z.of_nat i < caretPos s →
  items (removeItem_at f k i sl s) = delete i (items s) ∧
  caretPos (removeItem_at f k i sl s) = caretPos s - 1.
Proof.
  intros Hmode Hci [H0 H1] Hp Hi Hlt. unfold removeItem_at.
  match goal with |- context [trigger ?e ?s0] =>
    pose proof (bus_step_trigger e s0) as ((_ & -> & _) & _ & -> & _) end.
  unfold updateOriginalInput.
  match goal with |- context [if ?b then trigger ?e ?s0 else _] =>
    assert (items (if b then trigger e s0 else s0) = items s0
            ∧ caretPos (if b then trigger e s0 else s0) = caretPos s0) as [-> ->]
      by (destruct b; [pose proof (bus_step_trigger e s0) as ((_ & -> & _) & _ & -> & _)|]; done)
  end.
  cbn [settings set_lastQuery set_items set_control persist]. rewrite Hp. cbn [negb andb].
  cbn [caretPos set_lastQuery set_items set_control].
  apply Z.ltb_lt in Hlt. rewrite Hlt.
  unfold setCaret, is_single in *.
  cbn [settings caretPos items set_lastQuery set_items set_control set_caretPos].
  rewrite Hmode, Hci. cbn [orb]. split; [done|].
  rewrite length_delete by done. apply lookup_lt_is_Some in Hi. apply Z.ltb_lt in Hlt. lia.
Qed.

(** C5: after any sequence of calls the caret is within the selection.
    [setCaret] clamps its argument into that range, an insertion puts the
    caret behind the inserted key, and a removal before the caret takes the
    caret one position back. *)
Theorem caret_within_selection (ops : list Op) (s : State) :
  caret_ok s →
  caret_ok (run ops s) ∧
  (∀ i, caret_ok (setCaret i s) ∧
        (is_single s = false → controlInput (settings s) = false →
         caretPos (setCaret i s) = Z.max 0 (Z.min (Z.of_nat (length (items s))) i))) ∧
  (∀ k, is_single s = false → controlInput (settings s) = false →
        items (insert_item k s)
          = take (Z.to_nat (caretPos s)) (items s) ++ k :: drop (Z.to_nat (caretPos s)) (items s) ∧
        caretPos (insert_item k s) = caretPos s + 1) ∧
  (∀ f k i sl, is_single s = false → controlInput (settings s) = false →
        persist (settings s) = true → is_Some (items s !! i) → Z.of_nat i < caretPos s →
        items (removeItem_at f k i sl s) = delete i (items s) ∧
        caretPos (removeItem_at f k i sl s) = caretPos s - 1).
Proof.
  intros H. split_and!.
  - revert H. induction ops as [|op ops IH] using rev_ind; [done|].
    intros H. rewrite run_snoc. by apply step_caret_ok, IH.
  - intros i. split; [apply setCaret_caret_ok|].
    intros Hmode Hci. unfold setCaret. simpl. by rewrite Hmode, Hci.
  - intros k Hmode Hci. by apply insert_item_advances.
  - intros f k i sl Hmode Hci Hp Hi Hlt. by apply removeItem_at_decrements.
Qed.

Definition ops_example : list Op :=
  [OpAddItem no_rendering (VString "a") false;
   OpAddItem no_rendering (VString "b") false;
   OpSetCaret 0;
   OpRemoveItem (VString "b") false;
   OpAddItem no_rendering (VString "b") true;
   OpClear false].

Lemma caret_within_selection_witness :
  caret_ok (run ops_example (constructed settings_multi options_ab)).
Proof.
  refine (proj1 (caret_within_selection ops_example (constructed settings_multi options_ab) _)).
  unfold caret_ok. simpl. lia.
Defined.

(** ** Single mode *)




(** ** The query marker *)

(** [addItem] reaches the insertion: the key is not held back as already
    selected, its option exists, and a multi-select widget is not full. *)
Definition inserts (value : Value) (s : State) : bool :=
  negb (bool_decide (hash_key value ∈ items s)
        && (is_single s || negb (duplicates (settings s))))
  && has_option (hash_key value) s
  && negb (is_multi s && isFull s).

Lemma addItem_body_inserts dom value silent s :
  inserts value s = true →
  addItem_body dom value silent s
  = addItem_refresh dom (hash_key value) silent
      (insert_item (hash_key value) (if is_single s then clear silent s else s)).
Proof.
  unfold inserts. intros H.
  apply andb_prop in H as [H H3]. apply andb_prop in H as [H1 H2].
  rewrite addItem_body_eq. apply negb_true_iff in H1, H3. rewrite H1, H2. cbn [negb].
  rewrite is_single_multi in *. destruct (is_single s); [done|].
  cbn [negb andb] in *. by rewrite H3.
Qed.

Lemma addItem_body_marker dom value silent s :
  inserts value s = true → isSetup s = true → isPending s = false →
  lastQuery (addItem_body dom value silent s) = Some (inputValue s).
Proof.
  intros Hins Hsetup Hpend. rewrite addItem_body_inserts by done.
  set (s1 := if is_single s then clear silent s else s).
  assert (frame_sel s s1 ∧ inputValue s1 = inputValue s) as [[(_ & _ & _ & _ & E1 & E2 & _) _] E3].
  { subst s1. destruct (is_single s); [|split; [apply frame_sel_refl|done]].
    split; [apply clear_frame_sel|apply clear_inputValue]. }
  destruct (addItem_refresh_spec dom (hash_key value) silent (insert_item (hash_key value) s1))
    as (_ & _ & ->).
  destruct (insert_item_frame_sel (hash_key value) s1) as [(_ & _ & _ & _ & -> & -> & _) _].
  by rewrite E1, E2, Hsetup, Hpend, insert_item_inputValue, E3.
Qed.

(** C3, as the code has it: a call of [removeItem] that removes a selected
    item, and a call of [clear] on a selection that is not empty, leave the
    query marker null, so the next search computes its results again.
    [addItem] does not reset the marker: a call that inserts the item into a
    set-up widget outside a batch runs the search itself, through
    [refreshOptions], and leaves the current input text as the marker. *)
Theorem marker_after_selection_change :
  (∀ value k silent s,
     hash_key value = Some k → k ∈ control s → Some k ∈ items s →
     lastQuery (removeItem value silent s) = None ∧
     ∀ query, search_recomputes query (removeItem value silent s) = true) ∧
  (∀ silent s,
     items s ≠ [] →
     lastQuery (clear silent s) = None ∧
     ∀ query, search_recomputes query (clear silent s) = true) ∧
  (∀ dom value silent s,
     inserts value s = true → isSetup s = true → isPending s = false →
     lastQuery (addItem dom value silent s) = Some (inputValue s)).
Proof.
  assert (∀ s, lastQuery s = None → ∀ query, search_recomputes query s = true) as K.
  { intros s E query. unfold search_recomputes. rewrite E. by case_bool_decide. }
  split_and!.
  - intros value k silent s Hk Hc Hi.
    assert (lastQuery (removeItem value silent s) = None) as E; [|by split; [|apply K]].
    unfold removeItem. unfold removeItem_open at 1. rewrite Hk.
    rewrite (bool_decide_eq_true_2 _ Hc). cbn [negb].
    destruct (indexOf_elem _ _ Hi) as [i Ei]. rewrite Ei.
    apply removeItem_at_spec.
    + apply removal_like_open, removal_like_id.
    + apply indexOf_Some in Ei. by eexists.
  - intros silent s Hne. split; [by apply clear_lastQuery|]. by apply K, clear_lastQuery.
  - intros dom value silent s Hins Hsetup Hpend.
    destruct (addItem_bus dom value silent s) as (s0 & B0 & B1).
    destruct B1 as (_ & -> & _).
    destruct B0 as ((E1 & E2 & _ & E4 & _ & _ & _ & _ & E9 & E10 & _) & _ & _ & _ & _ & _ & E17).
    rewrite <- E17. apply addItem_body_marker; [|congruence|congruence].
    unfold inserts, has_option, is_single, is_multi, isFull in *.
    by rewrite E1, E2, E4.
Qed.

(** A set-up multi-select widget with the options a and b, nothing selected,
    the text ap in its input and a null marker. *)
Definition ready_multi : State :=
  {| settings := settings_multi; items := []; caretPos := 0; control := [];
     options := options_ab; userOptions := ∅; loadedSearches := ∅; lastQuery := None;
     loading := 0; dispatched := []; isSetup := true; isPending := false;
     isLocked := false; isOpen := false; isFocused := true; isBlurring := false;
     inputValue := "ap"; events := []; held := [] |}.

(** The same widget with a selected and a marker left by a search for ap. *)
Definition ready_multi_a : State :=
  {| settings := settings_multi; items := [Some "a"%string]; caretPos := 1; control := ["a"%string];
     options := options_ab; userOptions := ∅; loadedSearches := ∅; lastQuery := Some "ap"%string;
     loading := 0; dispatched := []; isSetup := true; isPending := false;
     isLocked := false; isOpen := false; isFocused := true; isBlurring := false;
     inputValue := "ap"; events := []; held := [] |}.

(** C3 as stated fails: after a completed [addItem] the marker holds the
    input text, not null. *)
Lemma addItem_leaves_marker :
  lastQuery (addItem {| results_length := 1; selectable_length := 1 |}
               (VString "a") false ready_multi) = Some "ap"%string.
Proof. vm_compute. reflexivity. Qed.

Lemma marker_after_selection_change_witness :
  lastQuery (removeItem (VString "a") false ready_multi_a) = None ∧
  lastQuery (clear false ready_multi_a) = None ∧
  lastQuery (addItem no_rendering (VString "b") false ready_multi_a) = Some "ap"%string.
Proof.
  destruct marker_after_selection_change as (H1 & H2 & H3). split_and!.
  - apply (H1 (VString "a") "a"%string false ready_multi_a).
    + reflexivity.
    + vm_compute. apply list_elem_of_here.
    + vm_compute. apply list_elem_of_here.
  - apply (H2 false ready_multi_a). discriminate.
  - apply (H3 no_rendering (VString "b") false ready_multi_a); vm_compute; reflexivity.
Defined.

(** ** The loader *)








End SelectionFacts.

(* ===================================================================== *)
(** * Properties of the search engine *)
(* ===================================================================== *)

Module SifterFacts.
Import Sifter.

(** ** Trimming *)

Lemma is_space_whitespace c : is_space c = true → is_whitespace c = true.
Proof. unfold is_space. intros ->%N.eqb_eq. reflexivity. Qed.

Lemma trim_start_whitespace s : forallb is_whitespace s = true → trim_start s = [].
Proof.
  induction s as [|c s IH]; simpl; [done|]. intros [-> H]%andb_prop. by apply IH.
Qed.

Lemma trim_whitespace s : forallb is_whitespace s = true → trim s = [].
Proof. intros H. unfold trim. by rewrite trim_start_whitespace. Qed.

(** A string that neither starts nor ends with white space. *)
Definition trimmed (s : jsstring) : Prop :=
  match s with
  | [] => True
  | c :: _ => is_whitespace c = false ∧ ∃ d, last s = Some d ∧ is_whitespace d = false
  end.

Lemma trim_end_last s :
  match last (trim_end s) with Some d => is_whitespace d = false | None => True end.
Proof.
  induction s as [|c s IH]; simpl; [done|].
  destruct (trim_end s) as [|x t] eqn:E.
  - destruct (is_whitespace c) eqn:Hc; simpl; done.
  - change (last (c :: x :: t)) with (last (x :: t)). exact IH.
Qed.

Lemma trim_end_head c s : is_whitespace c = false → ∃ t, trim_end (c :: s) = c :: t.
Proof.
  intros Hc. simpl. destruct (trim_end s); [rewrite Hc|]; eauto.
Qed.

Lemma trim_start_head s :
  match trim_start s with c :: _ => is_whitespace c = false | [] => True end.
Proof.
  induction s as [|c s IH]; simpl; [done|]. by destruct (is_whitespace c) eqn:Hc.
Qed.

Lemma trim_trimmed s : trimmed (trim s).
Proof.
  unfold trim. pose proof (trim_start_head s) as H.
  destruct (trim_start s) as [|c t]; [done|].
  destruct (trim_end_head c t H) as [t' E]. rewrite E. simpl. split; [done|].
  pose proof (trim_end_last (c :: t)) as L. rewrite E in L.
  destruct (last (c :: t')) as [d|] eqn:Ed; [by exists d|].
  by apply last_None in Ed.
Qed.

(** ** Splitting *)

(** Splitting at every separator: a separator ends a piece. *)
Fixpoint pieces (sep : char → bool) (s : jsstring) : list jsstring :=
  match s with
  | [] => [[]]
  | c :: s' =>
      if sep c then [] :: pieces sep s'
      else match pieces sep s' with
           | p :: ps => (c :: p) :: ps
           | [] => [[c]]
           end
  end.

Definition nonempty (w : jsstring) : bool := negb (bool_decide (w = [])).

(** The words of a string: its maximal runs of characters that are no
    separators. *)
Definition words (sep : char → bool) (s : jsstring) : list jsstring :=
  List.filter nonempty (pieces sep s).

Lemma pieces_cons sep s : ∃ p ps, pieces sep s = p :: ps.
Proof.
  destruct s as [|c s]; simpl; [eauto|].
  destruct (sep c); [eauto|]. destruct (pieces sep s); eauto.
Qed.

Lemma nonempty_app_cons (a : jsstring) c b : nonempty (a ++ c :: b) = true.
Proof. unfold nonempty. by destruct a. Qed.

Lemma split_go_words s :
  (∀ cur p ps, pieces is_space s = p :: ps →
     List.filter nonempty (split_go false cur s) = List.filter nonempty ((rev cur ++ p) :: ps)) ∧
  List.filter nonempty (split_go true [] s) = List.filter nonempty (pieces is_space s).
Proof.
  induction s as [|c s [IHa IHb]]; simpl.
  - split; [|done]. intros cur p ps [= <- <-]. by rewrite app_nil_r.
  - destruct (is_space c) eqn:Hc.
    + split.
      * intros cur p ps [= <- <-]. simpl. rewrite app_nil_r, IHb. done.
      * rewrite IHb. done.
    + destruct (pieces_cons is_space s) as (p0 & ps0 & E). rewrite E. split.
      * intros cur p ps [= <- <-]. rewrite (IHa (c :: cur) p0 ps0 E). simpl.
        by rewrite <- app_assoc.
      * by rewrite (IHa [c] p0 ps0 E).
Qed.

Lemma split_spaces_words s :
  List.filter nonempty (split_spaces s) = words is_space s.
Proof.
  unfold split_spaces, words. destruct (pieces_cons is_space s) as (p & ps & E).
  rewrite E. by rewrite (proj1 (split_go_words s) [] p ps E).
Qed.

(** No trailing space: the last character, if any, is no space. *)
Definition ends_ok (s : jsstring) : Prop :=
  match last s with Some d => is_space d = false | None => True end.

Lemma ends_ok_cons c s : ends_ok (c :: s) → s ≠ [] → ends_ok s.
Proof. unfold ends_ok. destruct s as [|x s]; [done|]. intros H _. exact H. Qed.

Lemma ends_ok_space c s : ends_ok (c :: s) → is_space c = true → s ≠ [].
Proof. unfold ends_ok. intros H Hc ->. simpl in H. congruence. Qed.

Lemma ends_ok_tail c s : ends_ok (c :: s) → ends_ok s.
Proof. destruct s as [|x s]; [done|]. intros H. by apply (ends_ok_cons c). Qed.

Lemma split_go_nonempty s :
  (∀ cur, cur ≠ [] → ends_ok s → Forall (λ w, nonempty w = true) (split_go false cur s)) ∧
  (s ≠ [] → ends_ok s → Forall (λ w, nonempty w = true) (split_go true [] s)).
Proof.
  induction s as [|c s [IHa IHb]]; simpl.
  - split; [|done]. intros cur Hcur _. constructor; [|done].
    unfold nonempty. destruct cur as [|x cur]; [done|]. simpl. by destruct (rev cur).
  - split.
    + intros cur Hcur He. destruct (is_space c) eqn:Hc.
      * constructor.
        { unfold nonempty. destruct cur as [|x cur]; [done|]. simpl. by destruct (rev cur). }
        apply IHb; [by eapply ends_ok_space|by eapply ends_ok_tail].
      * apply IHa; [done|by eapply ends_ok_tail].
    + intros _ He. destruct (is_space c) eqn:Hc.
      * apply IHb; [by eapply ends_ok_space|by eapply ends_ok_tail].
      * apply IHa; [done|by eapply ends_ok_tail].
Qed.

Lemma filter_all {A} (P : A → bool) (l : list A) :
  Forall (λ x, P x = true) l → List.filter P l = l.
Proof. induction 1 as [|x l Hx _ IH]; simpl; [done|]. by rewrite Hx, IH. Qed.

(** On a trimmed string [split(/ +/)] yields the words between the runs of
    spaces. *)
Lemma split_spaces_trimmed s :
  s ≠ [] → trimmed s → split_spaces s = words is_space s.
Proof.
  intros Hne Ht. rewrite <- split_spaces_words. symmetry. apply filter_all.
  destruct s as [|c s]; [done|]. destruct Ht as [Hc (d & Hd & Hd')].
  assert (is_space c = false) as Hc'.
  { destruct (is_space c) eqn:E; [|done]. apply is_space_whitespace in E. congruence. }
  assert (ends_ok (c :: s)) as He.
  { unfold ends_ok. rewrite Hd. destruct (is_space d) eqn:E; [|done].
    apply is_space_whitespace in E. congruence. }
  unfold split_spaces. simpl. rewrite Hc'.
  apply (proj1 (split_go_nonempty s)); [done|by eapply ends_ok_tail].
Qed.

(** ** The pattern of a word *)

(** The bracket expression the table has for a character, when the
    diacritics are on. *)
Definition class_of (d : bool) (c : char) : option jsstring :=
  if d then snd <$> List.find (λ e, (e.1 =? c)%N) DIACRITICS else None.

(** A bracket expression without its brackets. *)
Definition members (cls : jsstring) : jsstring := removelast (drop 1 cls).

(** What the pattern of a word holds for one character of it: the class of
    the character, or the character itself, metacharacter or not. *)
Definition atom_of (d : bool) (c : char) : Atom :=
  match class_of d c with
  | Some cls => AClass (members cls)
  | None => ALit c
  end.

Definition piece (d : bool) (c : char) : jsstring :=
  if is_metachar c then [92%N; c]
  else match class_of d c with Some cls => cls | None => [c] end.

Definition regex_source (d : bool) (word : jsstring) : jsstring :=
  if d then expand_diacritics (escape_regex word) else escape_regex word.

Definition subst_all (tab : list (char * jsstring)) (r : jsstring) : jsstring :=
  foldl (λ r entry, replace_all entry.1 entry.2 r) r tab.

Lemma replace_all_app l cls a b :
  replace_all l cls (a ++ b) = replace_all l cls a ++ replace_all l cls b.
Proof. unfold replace_all. apply flat_map_app. Qed.

Lemma subst_all_app tab a b : subst_all tab (a ++ b) = subst_all tab a ++ subst_all tab b.
Proof.
  revert a b. induction tab as [|e tab IH]; intros a b; simpl; [done|].
  rewrite replace_all_app. apply IH.
Qed.

Lemma subst_all_nil tab : subst_all tab [] = [].
Proof. induction tab as [|e tab IH]; simpl; done. Qed.

Lemma subst_all_flat_map tab f (w : jsstring) :
  subst_all tab (flat_map f w) = flat_map (λ c, subst_all tab (f c)) w.
Proof.
  induction w as [|c w IH]; simpl; [apply subst_all_nil|].
  by rewrite subst_all_app, IH.
Qed.

Lemma replace_all_absent l cls r : l ∉ r → replace_all l cls r = r.
Proof.
  induction r as [|c r IH]; simpl; [done|].
  intros H. apply not_elem_of_cons in H as [H1 H2].
  destruct (N.eqb_spec c l) as [->|_]; [done|]. simpl. f_equal. by apply IH.
Qed.

Lemma subst_all_absent tab r : (∀ e, e ∈ tab → e.1 ∉ r) → subst_all tab r = r.
Proof.
  induction tab as [|e tab IH]; simpl; [done|]. intros H.
  rewrite replace_all_absent by (apply H; left). apply IH.
  intros e' He'. apply H. by right.
Qed.

(** No bracket expression of the table holds the letter of a later entry. *)
Fixpoint table_ok (tab : list (char * jsstring)) : bool :=
  match tab with
  | [] => true
  | e :: t => forallb (λ e', negb (existsb (N.eqb e'.1) e.2)) t && table_ok t
  end.

Lemma existsb_eqb_elem (x : char) (l : jsstring) : existsb (N.eqb x) l = false → x ∉ l.
Proof.
  induction l as [|y l IH]; simpl; [intros _; apply not_elem_of_nil|].
  intros [H1 H2]%orb_false_elim. apply not_elem_of_cons. split; [|by apply IH].
  by apply N.eqb_neq.
Qed.

Lemma subst_all_single tab c :
  table_ok tab = true →
  subst_all tab [c]
  = match List.find (λ e, (e.1 =? c)%N) tab with Some e => e.2 | None => [c] end.
Proof.
  induction tab as [|e tab IH]; simpl; [done|].
  intros [H1 H2]%andb_prop. rewrite app_nil_r.
  rewrite (N.eqb_sym e.1 c). destruct (N.eqb_spec c e.1) as [->|Hne].
  - apply subst_all_absent. intros e' He'.
    rewrite forallb_forall in H1. apply list_elem_of_In in He'.
    apply H1 in He'. apply negb_true_iff in He'. by apply existsb_eqb_elem.
  - by apply IH.
Qed.

Lemma DIACRITICS_ok : table_ok DIACRITICS = true.
Proof. vm_compute. reflexivity. Qed.

Lemma DIACRITICS_no_metachar :
  forallb (λ e, negb (is_metachar e.1)) DIACRITICS = true.
Proof. vm_compute. reflexivity. Qed.

Lemma metachar_no_class e : e ∈ DIACRITICS → is_metachar e.1 = false.
Proof.
  intros He. pose proof DIACRITICS_no_metachar as H. rewrite forallb_forall in H.
  apply list_elem_of_In in He. apply H in He. by apply negb_true_iff.
Qed.

Lemma find_key_None (c : char) :
  is_metachar c = true → List.find (λ e, (e.1 =? c)%N) DIACRITICS = None.
Proof.
  intros Hc. destruct (List.find _ _) as [e|] eqn:E; [|done].
  apply find_some in E as [He Heq]. apply N.eqb_eq in Heq.
  apply list_elem_of_In, metachar_no_class in He. congruence.
Qed.

Lemma is_metachar_backslash : is_metachar 92 = true.
Proof. vm_compute. reflexivity. Qed.

Lemma expand_piece c :
  expand_diacritics (if is_metachar c then [92%N; c] else [c]) = piece true c.
Proof.
  unfold piece, class_of. change expand_diacritics with (subst_all DIACRITICS).
  destruct (is_metachar c) eqn:Hc.
  - apply subst_all_absent. intros e He. apply metachar_no_class in He.
    apply not_elem_of_cons. split; [intros E; rewrite E, is_metachar_backslash in He; done|].
    apply not_elem_of_cons. split; [intros E; congruence|apply not_elem_of_nil].
  - rewrite subst_all_single by apply DIACRITICS_ok. by destruct (List.find _ _).
Qed.

Lemma regex_source_pieces d w : regex_source d w = flat_map (piece d) w.
Proof.
  unfold regex_source, escape_regex. destruct d.
  - change expand_diacritics with (subst_all DIACRITICS).
    rewrite subst_all_flat_map. apply flat_map_ext. intros c. apply expand_piece.
  - apply flat_map_ext. intros c. unfold piece, class_of. by destruct (is_metachar c).
Qed.

(** A character a bracket expression may hold as it stands. *)
Definition class_char (c : char) : bool :=
  negb (c =? 93)%N && negb (bool_decide (c ∈ str "\^-")).

(** A bracket expression: an opening bracket, plain members, a closing
    bracket. *)
Definition class_ok (cls : jsstring) : bool :=
  match cls with
  | c :: r =>
      (c =? 91)%N
      && match last r with Some d => (d =? 93)%N | None => false end
      && forallb class_char (removelast r)
  | [] => false
  end.

Lemma DIACRITICS_classes : forallb (λ e, class_ok e.2) DIACRITICS = true.
Proof. vm_compute. reflexivity. Qed.

Lemma class_ok_inv cls :
  class_ok cls = true →
  ∃ inner, cls = 91%N :: inner ++ [93%N] ∧ forallb class_char inner = true ∧ members cls = inner.
Proof.
  destruct cls as [|c r]; simpl; [done|].
  intros [[Hc Hl]%andb_prop Hf]%andb_prop. apply N.eqb_eq in Hc as ->.
  destruct (last r) as [d|] eqn:Ed; [|done]. apply N.eqb_eq in Hl as ->.
  assert (r ≠ []) as Hr by (intros ->; done).
  pose proof (app_removelast_last 0%N Hr) as E.
  assert (List.last r 0%N = 93%N) as El.
  { clear -Ed. induction r as [|x [|y r] IH]; simpl in *; [done|by injection Ed|by apply IH]. }
  rewrite El in E. exists (removelast r). split; [by rewrite <- E|]. split; [done|].
  unfold members. simpl. rewrite drop_0. done.
Qed.

Lemma parse_class inner acc rest :
  forallb class_char inner = true →
  parse_pattern (Some acc) (inner ++ 93%N :: rest)
  = cons (AClass (rev acc ++ inner)) <$> parse_pattern None rest.
Proof.
  revert acc. induction inner as [|c inner IH]; intros acc; simpl.
  - intros _. by rewrite app_nil_r.
  - intros [[H1 H2]%andb_prop Hf]%andb_prop.
    apply negb_true_iff in H1, H2. rewrite H1, H2. rewrite IH by done.
    simpl. by rewrite <- app_assoc.
Qed.

Lemma is_metachar_bracket : is_metachar 91 = true.
Proof. vm_compute. reflexivity. Qed.

Lemma class_of_table d c cls : class_of d c = Some cls → class_ok cls = true.
Proof.
  unfold class_of. destruct d; [|done].
  destruct (List.find _ _) as [e|] eqn:E; [|done]. intros [= <-].
  apply find_some in E as [He _].
  pose proof DIACRITICS_classes as H. rewrite forallb_forall in H. by apply H.
Qed.

Lemma class_of_metachar d c : is_metachar c = true → class_of d c = None.
Proof.
  intros Hc. unfold class_of. destruct d; [|done]. by rewrite find_key_None.
Qed.

(** Each character of a word contributes one atom to the pattern. *)
Lemma parse_piece d c rest :
  parse_pattern None (piece d c ++ rest) = cons (atom_of d c) <$> parse_pattern None rest.
Proof.
  unfold piece, atom_of. destruct (is_metachar c) eqn:Hc.
  - rewrite class_of_metachar by done. simpl. by rewrite Hc.
  - destruct (class_of d c) as [cls|] eqn:E.
    + apply class_of_table in E. apply class_ok_inv in E as (inner & -> & Hf & ->).
      simpl. rewrite <- app_assoc. simpl. by rewrite (parse_class inner [] rest Hf).
    + simpl. rewrite Hc.
      destruct (N.eqb_spec c 92) as [->|_]; [by rewrite is_metachar_backslash in Hc|].
      destruct (N.eqb_spec c 91) as [->|_]; [by rewrite is_metachar_bracket in Hc|].
      done.
Qed.

Lemma parse_source d w :
  parse_pattern None (regex_source d w) = Some (map (atom_of d) w).
Proof.
  rewrite regex_source_pieces. induction w as [|c w IH]; simpl; [done|].
  by rewrite parse_piece, IH.
Qed.

(** The token of a word. *)
Definition token_of (d : bool) (word : jsstring) : Token :=
  {| tok_string := word;
     tok_regex := {| source := regex_source d word; pattern := map (atom_of d) word |} |}.

Lemma mapM_total {A B} (f : A → option B) (g : A → B) (l : list A) :
  (∀ x, f x = Some (g x)) → mapM f l = Some (map g l).
Proof.
  intros H. induction l as [|x l IH]; simpl; [done|]. by rewrite H, IH.
Qed.

Lemma words_nil sep : words sep [] = [].
Proof. reflexivity. Qed.

Section WithRuntime.
Context `{Runtime}.

(** [tokenize] never fails: it yields the token of every word between the
    runs of spaces of the lowercased, trimmed query. *)
Lemma tokenize_eq (self : Sifter) (query : jsstring) :
  tokenize self query
  = Some (map (token_of (diacritics self)) (words is_space (trim (toLowerCase query)))).
Proof.
  unfold tokenize. case_bool_decide as E; [by rewrite E|].
  rewrite split_spaces_trimmed by (done || apply trim_trimmed).
  apply mapM_total. intros w. unfold new_RegExp.
  change (if diacritics self then expand_diacritics (escape_regex w) else escape_regex w)
    with (regex_source (diacritics self) w).
  by rewrite parse_source.
Qed.

End WithRuntime.

(** ** Tokens *)

Section Tokens.
Context `{Runtime}.

(** C6, as the code has it: [tokenize] lowercases and trims the query, splits
    it at the runs of spaces (U+0020; other white space separates no words)
    and yields one token per word.  The pattern of a token holds one atom per
    character of the word, and a metacharacter is matched as itself.  A query
    that is empty or white space only has no token. *)
Theorem tokenize_words (self : Sifter) (query : jsstring) :
  tokenize self query
  = Some (map (token_of (diacritics self)) (words is_space (trim (toLowerCase query)))) ∧
  (∀ word, source (tok_regex (token_of false word)) = escape_regex word ∧
           pattern (tok_regex (token_of false word)) = map ALit word) ∧
  (∀ d c, is_metachar c = true → atom_of d c = ALit c) ∧
  (forallb is_whitespace query = true → tokenize self query = Some []).
Proof.
  split_and!.
  - apply tokenize_eq.
  - intros word. split; [done|]. simpl. apply map_ext. intros c. reflexivity.
  - intros d c Hc. unfold atom_of. by rewrite class_of_metachar.
  - intros Hws. rewrite tokenize_eq, toLowerCase_whitespace by done.
    by rewrite trim_whitespace.
Qed.

End Tokens.

(** The tokens the claim C6 describes: the words between the runs of white
    space. *)
Definition tokens_by_whitespace `{Runtime} (self : Sifter) (query : jsstring) : list Token :=
  map (token_of (diacritics self)) (words is_whitespace (trim (toLowerCase query))).

Definition sifter_empty : Sifter := {| items := []; diacritics := false |}.

(** C6 as stated fails: a tab splits no word.  The query a, tab, b has one
    token, the claim gives it two. *)
Lemma tokenize_tab_one_token :
  map tok_string <$> tokenize sifter_empty [97; 9; 98]%N = Some [[97; 9; 98]%N] ∧
  map tok_string (tokens_by_whitespace sifter_empty [97; 9; 98]%N) = [[97]; [98]]%N.
Proof. split; vm_compute; reflexivity. Qed.

Example tokenize_example :
  map (λ t, (tok_string t, pattern (tok_regex t)))
    <$> tokenize sifter_empty (str "  Foo   a.b ")
  = Some [ (str "foo", [ALit 102; ALit 111; ALit 111]%N);
           (str "a.b", [ALit 97; ALit 46; ALit 98]%N) ].
Proof. vm_compute. reflexivity. Qed.

(** ** Scores *)

Section Scores.
Context `{Runtime}.






Lemma length_Q_nonneg {A} (l : list A) : (0 <= length_Q l)%Q.
Proof.
  unfold length_Q. change 0%Q with (inject_Z 0). rewrite <- Zle_Qle. lia.
Qed.




End Scores.

Section ScoreFunction.
Context `{Runtime}.






End ScoreFunction.

(** The scenario of the specification: Apple, Banana and Grape searched for
    ap in the field text. *)
Definition fruit : Sifter :=
  {| items := [ ("a"%string, {[ "text"%string := str "Apple" ]});
                ("b"%string, {[ "text"%string := str "Banana" ]});
                ("c"%string, {[ "text"%string := str "Grape" ]}) ];
     diacritics := true |}.

Definition by_text : Options :=
  {| o_fields := ["text"%string]; o_sort := None; o_sort_empty := None; o_score := None;
     o_filter := None; o_limit := None; o_conjunction := "and" |}.

Example search_ap :
  s_items <$> search fruit (str "ap") by_text
  = Some [ {| score := 9 # 10; id := "a" |}; {| score := 2 # 5; id := "c" |} ].
Proof. vm_compute. reflexivity. Qed.


(** ** Sort keys *)

Definition implicit_score : SortKey := {| field := "$score"; direction := Some "desc"%string |}.



Lemma filter_true {A} (l : list A) : List.filter (λ _, true) l = l.
Proof. induction l as [|x l IH]; simpl; [done|]. by rewrite IH. Qed.

(** The explicit sort list [getSortFunction] reads: [sort_empty], when it is
    given, for the empty query, and [sort] otherwise. *)
Definition explicit_sort (search : Search) (options : Options) : list SortKey :=
  default []
    (if bool_decide (s_query search = []) then
       match o_sort_empty options with Some l => Some l | None => o_sort options end
     else o_sort options).

Lemma sort_fields_query (search : Search) (options : Options) :
  s_query search ≠ [] →
  sort_fields search options
  = if existsb is_score_key (explicit_sort search options)
    then explicit_sort search options
    else implicit_score :: explicit_sort search options.
Proof.
  intros Hq. unfold sort_fields, explicit_sort.
  rewrite (bool_decide_eq_false_2 _ Hq). cbn [negb orb].
  destruct (o_sort options) as [l|]; simpl; [|done].
  by rewrite filter_true.
Qed.


Section Sorting.
Context `{Runtime}.


Lemma insert_sorted_perm {A} (cmp : A → A → Z) (x : A) (l : list A) :
  insert_sorted cmp x l ≡ₚ x :: l.
Proof.
  induction l as [|y l IH]; simpl; [done|].
  destruct (0 <? cmp y x); [done|]. rewrite IH. apply Permutation_swap.
Qed.

Lemma Array_sort_perm {A} (cmp : A → A → Z) (l : list A) : Array_sort cmp l ≡ₚ l.
Proof.
  unfold Array_sort.
  assert (∀ acc, foldl (λ sorted x, insert_sorted cmp x sorted) acc l ≡ₚ acc ++ l) as K.
  { induction l as [|x l IH]; intros acc; simpl; [by rewrite app_nil_r|].
    rewrite IH, insert_sorted_perm. simpl. apply Permutation_middle. }
  apply K.
Qed.


Definition limited (options : Options) (l : list ResultItem) : list ResultItem :=
  match o_limit options with Some limit => slice_to limit l | None => l end.

(** What [prepareSearch] returns. *)
Definition prepared (self : Sifter) (query : jsstring) (options : Options) : Search :=
  {| s_options := options; s_query := toLowerCase query;
     s_tokens := map (token_of (diacritics self)) (words is_space (trim (toLowerCase query)));
     s_total := 0; s_items := [] |}.

(** The items [search] has once it has sorted them. *)
Definition found (self : Sifter) (query : jsstring) (options : Options) : list ResultItem :=
  let search := prepared self query options in
  let collected :=
    collect self (default (getScoreFunction search) (o_score options)) options (s_query search) in
  match getSortFunction self search options with
  | Some fn_sort => Array_sort fn_sort collected
  | None => collected
  end.

(** The result of [search]: the collected items, sorted when there is a
    comparator, counted, then cut at the limit. *)
Lemma search_eq (self : Sifter) (query : jsstring) (options : Options) :
  search self query options
  = Some {| s_options := options; s_query := toLowerCase query;
            s_tokens := s_tokens (prepared self query options);
            s_total := length (found self query options);
            s_items := limited options (found self query options) |}.
Proof. unfold search, prepareSearch. rewrite tokenize_eq. reflexivity. Qed.


Lemma found_perm (self : Sifter) (query : jsstring) (options : Options) :
  found self query options
  ≡ₚ collect self (default (getScoreFunction (prepared self query options)) (o_score options))
       options (toLowerCase query).
Proof.
  unfold found. destruct (getSortFunction _ _ _); [apply Array_sort_perm|done].
Qed.



End Sorting.

End SifterFacts.
(* ===================================================================== *)
(** * Laws of the selection *)
(* ===================================================================== *)

Module SelectionLaws.
Import TomSelect SelectionFacts.

(** [addOption] tests the key that [registerOption] returns for truth, and
    the empty string is not true: an option with the empty key is registered
    without its user-option marker and without the option_add event.  The
    model of [addOption] is the code for every other key, and the laws over
    sequences of calls are stated for the sequences that add no option with
    the empty key. *)
Definition named (op : Op) : bool :=
  match op with
  | OpAddOption (Some k) _ => negb (String.eqb k "")
  | _ => true
  end.

(** ** The shape of the selection after a call *)

Lemma setCaret_zero_empty s : items s = [] → caretPos (setCaret 0 s) = 0.
Proof.
  intros E. unfold setCaret. rewrite E. simpl. by destruct (_ || _).
Qed.

(** [clear] by its fields: nothing is left of the selection, and the caret
    is 0 (it is not moved when there was nothing to clear). *)
Lemma clear_shape silent s :
  items (clear silent s) = [] ∧
  control (clear silent s) = (if bool_decide (items s = []) then control s else []) ∧
  caretPos (clear silent s) = (if bool_decide (items s = []) then caretPos s else 0).
Proof.
  split; [apply clear_items|].
  destruct (clear_cases silent s) as [[E ->]|[Hne ((_ & Hi & Hc & _) & _ & C)]].
  - by rewrite bool_decide_eq_true_2.
  - rewrite bool_decide_eq_false_2 by done. split; [done|].
    assert (caretPos (setCaret 0 (set_lastQuery None (set_items [] (set_control [] s)))) = 0)
      as E0 by (by apply setCaret_zero_empty).
    destruct C as [C|C]; [congruence|]. rewrite C. by rewrite setCaret_items.
Qed.

(** The key goes into the control where [insertAtCaret] puts its element. *)
Definition control_insert (caret : Z) (len : nat) (k : string) (c : list string) : list string :=
  let i := Z.to_nat (Z.min caret (Z.of_nat len)) in
  take i c ++ k :: drop i c.

(** A call of [addItem] that does not reach the insertion leaves the
    selection and the item elements alone. *)
Lemma addItem_body_kept dom value silent s :
  inserts value s = false →
  items (addItem_body dom value silent s) = items s ∧
  control (addItem_body dom value silent s) = control s.
Proof.
  unfold inserts. intros H. rewrite addItem_body_eq.
  destruct (bool_decide (hash_key value ∈ items s) && _) eqn:H1; [|cbn [negb andb] in H].
  { destruct (is_single s); [|done]. by destruct (ui_step_close s) as [(_ & ? & ? & _) _]. }
  destruct (has_option _ s); cbn [negb andb] in *; [|done].
  apply negb_false_iff in H. rewrite is_single_multi in *.
  destruct (is_single s); cbn [negb andb] in *; [done|]. by rewrite H.
Qed.

(** A call that reaches the insertion: the selection before it is the one of
    the widget, or empty in single mode. *)
Lemma addItem_body_inserted dom value silent s :
  inserts value s = true →
  let s1 := if is_single s then clear silent s else s in
  items (addItem_body dom value silent s)
    = splice_insert (caretPos s1) (hash_key value) (items s1) ∧
  control (addItem_body dom value silent s)
    = control_insert (caretPos s1) (S (length (items s1)))
        (property_name (hash_key value)) (control s1).
Proof.
  intros H s1. rewrite addItem_body_inserts by done. fold s1.
  destruct (addItem_refresh_spec dom (hash_key value) silent (insert_item (hash_key value) s1))
    as ((_ & -> & -> & _) & _).
  split; [done|]. unfold insert_item, insertAtCaret, control_insert. simpl.
  by rewrite splice_insert_length.
Qed.

Lemma inserts_set_held value hs s : inserts value (set_held hs s) = inserts value s.
Proof. reflexivity. Qed.

(** The same for [addItem] itself. *)
Lemma addItem_kept dom value silent s :
  inserts value s = false →
  items (addItem dom value silent s) = items s ∧
  control (addItem dom value silent s) = control s.
Proof.
  intros H. unfold addItem.
  match goal with |- context [debounce_events ?tys ?fn s] =>
    pose proof (debounce_events_bus tys fn s) as ((_ & -> & -> & _) & _);
    set (s0 := set_held ({| types := tys; event_args := [] |} :: held s) s) end.
  by destruct (addItem_body_kept dom value silent s0 H) as [-> ->].
Qed.

Lemma addItem_inserted dom value silent s :
  inserts value s = true →
  let s1 := if is_single s then clear silent s else s in
  items (addItem dom value silent s)
    = splice_insert (caretPos s1) (hash_key value) (items s1) ∧
  control (addItem dom value silent s)
    = control_insert (caretPos s1) (S (length (items s1)))
        (property_name (hash_key value)) (control s1).
Proof.
  intros H s1. unfold addItem.
  match goal with |- context [debounce_events ?tys ?fn s] =>
    pose proof (debounce_events_bus tys fn s) as ((_ & -> & -> & _) & _);
    set (s0 := set_held ({| types := tys; event_args := [] |} :: held s) s) end.
  destruct (addItem_body_inserted dom value silent s0 H) as [-> ->].
  assert ((if is_single s0 then clear silent s0 else s0) = set_held (held s0) s1
          ∨ (items (if is_single s0 then clear silent s0 else s0) = items s1
             ∧ control (if is_single s0 then clear silent s0 else s0) = control s1
             ∧ caretPos (if is_single s0 then clear silent s0 else s0) = caretPos s1))
    as [->|(-> & -> & ->)]; [|done|done].
  right. subst s1. change (is_single s0) with (is_single s).
  destruct (is_single s); [|done].
  destruct (clear_shape silent s0) as (-> & -> & ->).
  destruct (clear_shape silent s) as (-> & -> & ->). done.
Qed.


(** ** Item elements and selected keys *)

(** The item elements of the control are those of the selected keys, in
    their order, and no selected key is null. *)
Definition mirror (s : State) : Prop :=
  control s = map property_name (items s) ∧ None ∉ items s.

Lemma remove_first_mirror (l : list Key) (k : string) (i : nat) :
  None ∉ l → indexOf (Some k) l = Some i →
  remove_first k (map property_name l) = map property_name (delete i l).
Proof.
  revert i. induction l as [|x l IH]; intros i Hn; simpl; [done|].
  apply not_elem_of_cons in Hn as [Hx Hn]. destruct x as [y|]; [|done]. simpl.
  destruct (decide (Some y = Some k)) as [[= ->]|Hne].
  - intros [= <-]. by rewrite decide_True.
  - rewrite decide_False by congruence.
    destruct (indexOf (Some k) l) as [j|] eqn:Ej; simpl; [|done].
    intros [= <-]. simpl. f_equal. by apply IH.
Qed.

Lemma sublist_not_elem {A} (x : A) (l k : list A) : l `sublist_of` k → x ∉ k → x ∉ l.
Proof. intros Hs Hx Hin. apply Hx. by eapply elem_of_sublist. Qed.

(** What [removeOption] does before it calls [removeItem]. *)
Definition option_removed (key : Key) (s : State) : State :=
  trigger (EvOptionRemove key)
    (set_lastQuery None
       (set_options (delete (property_name key) (options s))
          (set_userOptions (userOptions s ∖ {[property_name key]}) s))).

Lemma removeOption_open_eq f key sl s :
  removeOption_open f key sl s = f (value_of_key key) sl (option_removed key s).
Proof. reflexivity. Qed.

Lemma option_removed_spec key s :
  frame_reg s (option_removed key s) ∧
  items (option_removed key s) = items s ∧ control (option_removed key s) = control s ∧
  caretPos (option_removed key s) = caretPos s ∧
  options (option_removed key s) = delete (property_name key) (options s) ∧
  userOptions (option_removed key s) = userOptions s ∖ {[property_name key]}.
Proof.
  unfold option_removed.
  match goal with |- context [trigger ?e ?s0] =>
    pose proof (bus_step_trigger e s0) as (F & _ & C & _) end.
  destruct F as (F1 & F2 & F3 & F4 & F5 & F6 & F7 & F8 & F9 & F10 & F11).
  simpl in *. by repeat split.
Qed.

(** The selection once [removeItem] has taken out the item at [i]: what is
    left when the item is gone and, for a user option that does not
    persist, [removeOption] has run. *)
Definition item_removed (f : Value → bool → State → State)
    (k : string) (i : nat) (sl : bool) (s : State) : State :=
  let s1 := set_lastQuery None
              (set_items (delete i (items s)) (set_control (remove_first k (control s)) s)) in
  if negb (persist (settings s)) && bool_decide (k ∈ userOptions s)
  then removeOption_open f (Some k) sl s1 else s1.

Lemma removeItem_at_frame f k i sl s :
  frame (item_removed f k i sl s) (removeItem_at f k i sl s).
Proof.
  unfold removeItem_at. fold (item_removed f k i sl s).
  set (s2 := item_removed f k i sl s).
  eapply frame_trans; [|apply bus_step_trigger].
  eapply frame_trans; [|apply ui_step_updateOriginalInput].
  destruct (_ <? _); [apply setCaret_frame|apply frame_refl].
Qed.

(** A function in the place of [removeItem]: it only takes keys out, and it
    keeps the item elements in line with the keys. *)
Definition shrinks (f : Value → bool → State → State) : Prop :=
  ∀ v sl s, items (f v sl s) `sublist_of` items s ∧ (mirror s → mirror (f v sl s)).

Lemma shrinks_id : shrinks (λ _ _ s, s).
Proof. by intros v sl s. Qed.

Lemma item_removed_shrinks f k i sl s :
  shrinks f → indexOf (Some k) (items s) = Some i →
  items (item_removed f k i sl s) `sublist_of` items s ∧
  (mirror s → mirror (item_removed f k i sl s)).
Proof.
  intros Hf Hi. unfold item_removed.
  set (s1 := set_lastQuery None _).
  assert (items s1 `sublist_of` items s ∧ (mirror s → mirror s1)) as [S1 M1].
  { split; [apply sublist_delete|]. intros [Hc Hn]. split; simpl.
    - rewrite Hc. by apply remove_first_mirror.
    - eapply sublist_not_elem; [apply sublist_delete|done]. }
  destruct (_ && _); [|done].
  rewrite removeOption_open_eq.
  destruct (option_removed_spec (Some k) s1) as (_ & Ei & Ec & _).
  destruct (Hf (value_of_key (Some k)) sl (option_removed (Some k) s1)) as [S2 M2].
  split; [by rewrite S2, Ei|].
  intros Hm. apply M2. unfold mirror. rewrite Ei, Ec. by apply M1.
Qed.

Lemma shrinks_open f : shrinks f → shrinks (removeItem_open f).
Proof.
  intros Hf v sl s. unfold removeItem_open.
  destruct (hash_key v) as [k|]; [|done].
  destruct (negb _); [done|].
  destruct (indexOf (Some k) (items s)) as [i|] eqn:Ei; [|done].
  destruct (removeItem_at_frame f k i sl s) as (_ & Hi & Hc & _).
  destruct (item_removed_shrinks f k i sl s Hf Ei) as [S M].
  split; [by rewrite Hi|]. unfold mirror. rewrite Hi, Hc. exact M.
Qed.

Lemma removeItem_shrinks : shrinks removeItem.
Proof. apply shrinks_open, shrinks_open, shrinks_id. Qed.

Lemma removeOption_shrinks value sl s :
  items (removeOption value sl s) `sublist_of` items s ∧
  (mirror s → mirror (removeOption value sl s)).
Proof.
  unfold removeOption. rewrite removeOption_open_eq.
  destruct (option_removed_spec (hash_key value) s) as (_ & Ei & Ec & _).
  destruct (removeItem_shrinks (value_of_key (hash_key value)) sl
              (option_removed (hash_key value) s)) as [S M].
  split; [by rewrite S, Ei|]. intros Hm. apply M. unfold mirror. by rewrite Ei, Ec.
Qed.


(** ** Invariants of the selection *)

Lemma splice_insert_perm {A} (start : Z) (x : A) (l : list A) :
  splice_insert start x l ≡ₚ x :: l.
Proof.
  unfold splice_insert. rewrite <- Permutation_middle. by rewrite take_drop.
Qed.

Lemma inserts_not_selected value s :
  duplicates (settings s) = false → inserts value s = true → hash_key value ∉ items s.
Proof.
  unfold inserts. intros Hd H.
  apply andb_prop in H as [H _]. apply andb_prop in H as [H _].
  rewrite Hd, orb_true_r, andb_true_r in H. apply negb_true_iff in H.
  by apply bool_decide_eq_false_1 in H.
Qed.

Lemma inserts_not_full value s m :
  is_single s = false → maxItems (settings s) = Some m → inserts value s = true →
  Z.of_nat (length (items s)) < m.
Proof.
  unfold inserts. intros Hm Hmax H. apply andb_prop in H as [_ H].
  rewrite is_single_multi, Hm in H. cbn [negb andb] in H.
  apply negb_true_iff in H. unfold isFull in H. rewrite Hmax in H. by apply Z.leb_gt in H.
Qed.

Lemma addItem_NoDup dom value silent s :
  duplicates (settings s) = false → NoDup (items s) →
  NoDup (items (addItem dom value silent s)).
Proof.
  intros Hd Hn. destruct (inserts value s) eqn:Hins.
  - destruct (addItem_inserted dom value silent s Hins) as [-> _].
    rewrite splice_insert_perm. apply NoDup_cons.
    destruct (is_single s).
    + rewrite (proj1 (clear_shape silent s)). split; [apply not_elem_of_nil|constructor].
    + split; [by apply inserts_not_selected|done].
  - by destruct (addItem_kept dom value silent s Hins) as [-> _].
Qed.

Lemma step_NoDup op s :
  duplicates (settings s) = false → NoDup (items s) → NoDup (items (step op s)).
Proof.
  intros Hd Hn. destruct op; simpl.
  - by apply addItem_NoDup.
  - eapply sublist_NoDup; [exact Hn|apply removeItem_shrinks].
  - rewrite clear_items. constructor.
  - done.
  - by destruct (addOption_spec key data s) as (_ & -> & _).
  - eapply sublist_NoDup; [exact Hn|apply removeOption_shrinks].
  - by destruct (clearOptions_spec global_key s) as (_ & -> & _).
  - by destruct (onSearchChange_spec value s) as (_ & -> & _).
Qed.

(** Without the [duplicates] setting no key is selected twice, whatever
    calls are made. *)
Theorem selection_no_duplicates (ops : list Op) (s : State) :
  forallb named ops = true →
  duplicates (settings s) = false → NoDup (items s) → NoDup (items (run ops s)).
Proof.
  intros _ Hd Hn. induction ops as [|op ops IH] using rev_ind; [done|].
  rewrite run_snoc. apply step_NoDup; [by rewrite run_settings|done].
Qed.

Lemma selection_no_duplicates_witness :
  NoDup (items (run [OpAddItem no_rendering (VString "a") false;
                     OpAddItem no_rendering (VString "a") false;
                     OpAddItem no_rendering (VString "b") false]
                    (constructed settings_multi options_ab))).
Proof.
  apply selection_no_duplicates; [reflexivity|reflexivity|constructor].
Defined.

Lemma addItem_within_maxItems dom value silent s m :
  is_single s = false → maxItems (settings s) = Some m →
  Z.of_nat (length (items s)) ≤ m →
  Z.of_nat (length (items (addItem dom value silent s))) ≤ m.
Proof.
  intros Hm Hmax Hlen. destruct (inserts value s) eqn:Hins.
  - destruct (addItem_inserted dom value silent s Hins) as [-> _].
    rewrite splice_insert_length, Hm.
    pose proof (inserts_not_full value s m Hm Hmax Hins). lia.
  - by destruct (addItem_kept dom value silent s Hins) as [-> _].
Qed.

Lemma step_within_maxItems op s m :
  is_single s = false → maxItems (settings s) = Some m →
  Z.of_nat (length (items s)) ≤ m → Z.of_nat (length (items (step op s))) ≤ m.
Proof.
  intros Hm Hmax Hlen. destruct op; simpl.
  - by apply addItem_within_maxItems.
  - pose proof (sublist_length _ _ (proj1 (removeItem_shrinks value silent s))). lia.
  - rewrite clear_items. simpl. lia.
  - done.
  - by destruct (addOption_spec key data s) as (_ & -> & _).
  - pose proof (sublist_length _ _ (proj1 (removeOption_shrinks value silent s))). lia.
  - by destruct (clearOptions_spec global_key s) as (_ & -> & _).
  - by destruct (onSearchChange_spec value s) as (_ & -> & _).
Qed.

(** A multi-select widget never holds more than [maxItems] keys. *)
Theorem selection_within_maxItems (ops : list Op) (s : State) (m : Z) :
  forallb named ops = true →
  mode (settings s) = multi → maxItems (settings s) = Some m →
  Z.of_nat (length (items s)) ≤ m →
  Z.of_nat (length (items (run ops s))) ≤ m.
Proof.
  intros _ Hm Hmax Hlen. induction ops as [|op ops IH] using rev_ind; [done|].
  rewrite run_snoc. apply step_within_maxItems; [|by rewrite run_settings|done].
  unfold is_single. rewrite run_settings, Hm. by apply bool_decide_eq_false_2.
Qed.

Definition settings_two : Settings :=
  {| mode := multi; maxItems := Some 2; duplicates := true; persist := true;
     controlInput := false; load := true; maxOptions := Some 1000;
     render_no_results := true |}.

Lemma selection_within_maxItems_witness :
  Z.of_nat (length (items (run [OpAddItem no_rendering (VString "a") false;
                                OpAddItem no_rendering (VString "b") false;
                                OpAddItem no_rendering (VString "a") false]
                               (constructed settings_two options_ab)))) ≤ 2.
Proof.
  apply selection_within_maxItems; [reflexivity|reflexivity|reflexivity|simpl; lia].
Defined.




(** ** The item elements follow the selection *)

Lemma control_insert_mirror (c : Z) (k : Key) (l : list Key) :
  0 ≤ c ≤ Z.of_nat (length l) →
  control_insert c (S (length l)) (property_name k) (map property_name l)
  = map property_name (splice_insert c k l).
Proof.
  intros Hc. unfold control_insert, splice_insert.
  rewrite (proj2 (Z.ltb_ge c 0)) by lia.
  rewrite !Z.min_l by lia.
  by rewrite map_app, <- fmap_take, <- fmap_drop.
Qed.

Lemma addItem_mirror dom value silent s :
  is_Some (hash_key value) → caret_ok s → mirror s → mirror (addItem dom value silent s).
Proof.
  intros [k Hk] Hc [Hm Hn]. destruct (inserts value s) eqn:Hins.
  - destruct (addItem_inserted dom value silent s Hins) as [Hi Hctl].
    unfold mirror. rewrite Hi, Hctl, Hk. destruct (is_single s).
    + destruct (clear_shape silent s) as (-> & -> & _).
      rewrite splice_insert_nil.
      assert ((if bool_decide (items s = []) then control s else []) = []) as ->.
      { case_bool_decide as E; [|done]. by rewrite Hm, E. }
      split; [by unfold control_insert; rewrite take_nil, drop_nil|].
      by intros ?%list_elem_of_singleton.
    + rewrite Hm. split; [by apply control_insert_mirror|].
      intros Hin. apply Hn. rewrite splice_insert_perm in Hin.
      by apply elem_of_cons in Hin as [?|?].
  - destruct (addItem_kept dom value silent s Hins) as [Hi Hctl].
    unfold mirror. by rewrite Hi, Hctl.
Qed.

Lemma clear_mirror silent s : mirror s → mirror (clear silent s).
Proof.
  intros [Hm Hn]. destruct (clear_shape silent s) as (Hi & Hc & _).
  unfold mirror. rewrite Hi, Hc. split; [|apply not_elem_of_nil].
  case_bool_decide as E; [|done]. by rewrite Hm, E.
Qed.

Lemma addOption_control key data s : control (addOption key data s) = control s.
Proof.
  unfold addOption, registerOption. destruct key as [k|]; [|done].
  destruct (bool_decide _); [done|].
  match goal with |- context [trigger ?e ?s0] =>
    by pose proof (bus_step_trigger e s0) as ((_ & _ & -> & _) & _) end.
Qed.

Lemma clearOptions_control g s : control (clearOptions g s).1 = control s.
Proof.
  unfold clearOptions. destruct (_ && _); [done|]. simpl.
  match goal with |- context [trigger ?e ?s0] =>
    by pose proof (bus_step_trigger e s0) as ((_ & _ & -> & _) & _) end.
Qed.

Lemma onSearchChange_control value s : control (onSearchChange value s) = control s.
Proof.
  unfold onSearchChange. destruct (negb _); [done|]. by case_bool_decide.
Qed.

(** A call with a value that has a key: every call but [addItem] of [null]
    or [undefined]. *)
Definition keyed (op : Op) : bool :=
  match op with
  | OpAddItem _ value _ => bool_decide (is_Some (hash_key value))
  | _ => true
  end.

Lemma step_mirror op s :
  keyed op = true → caret_ok s → mirror s → mirror (step op s).
Proof.
  intros Hk Hc Hm. destruct op; simpl in *.
  - apply addItem_mirror; [by apply bool_decide_eq_true_1 in Hk|done|done].
  - by apply removeItem_shrinks.
  - by apply clear_mirror.
  - done.
  - unfold mirror. rewrite addOption_control.
    by destruct (addOption_spec key data s) as (_ & -> & _).
  - by apply removeOption_shrinks.
  - unfold mirror. rewrite clearOptions_control.
    by destruct (clearOptions_spec global_key s) as (_ & -> & _).
  - unfold mirror. rewrite onSearchChange_control.
    by destruct (onSearchChange_spec value s) as (_ & -> & _).
Qed.

(** The item elements of the control are the selected keys, in their order,
    after every sequence of calls on a widget where they were. *)
Theorem control_mirrors_selection (ops : list Op) (s : State) :
  forallb named ops = true → forallb keyed ops = true → caret_ok s → mirror s →
  control (run ops s) = map property_name (items (run ops s)) ∧ None ∉ items (run ops s).
Proof.
  intros _ Hk Hc Hm. change (mirror (run ops s)).
  induction ops as [|op ops IH] using rev_ind; [done|].
  rewrite forallb_app in Hk. apply andb_prop in Hk as [Hk1 Hk2]. simpl in Hk2.
  rewrite andb_true_r in Hk2. rewrite run_snoc. apply step_mirror; [done| |by apply IH].
  clear IH. induction ops as [|op' ops IH] using rev_ind; [done|].
  rewrite forallb_app in Hk1. apply andb_prop in Hk1 as [Hk1 _].
  rewrite run_snoc. by apply step_caret_ok, IH.
Qed.

Lemma control_mirrors_selection_witness :
  control (run ops_example (constructed settings_multi options_ab))
  = map property_name (items (run ops_example (constructed settings_multi options_ab))).
Proof.
  refine (proj1 (control_mirrors_selection ops_example
                   (constructed settings_multi options_ab) _ _ _ _)).
  - reflexivity.
  - reflexivity.
  - unfold caret_ok. simpl. lia.
  - split; [reflexivity|apply not_elem_of_nil].
Defined.


(** ** Removing a key *)

Lemma removeItem_open_absent f value sl s :
  hash_key value = None ∨ hash_key value ∉ items s → removeItem_open f value sl s = s.
Proof.
  intros Hcase. unfold removeItem_open. destruct (hash_key value) as [k|]; [|done].
  destruct Hcase as [?|Hn]; [done|]. destruct (negb _); [done|].
  destruct (indexOf (Some k) (items s)) as [i|] eqn:Ei; [|done].
  apply indexOf_Some in Ei. destruct Hn. by eapply list_elem_of_lookup_2.
Qed.

(** [removeItem] with a key that is not selected, or with [null] or
    [undefined], changes nothing. *)
Theorem removeItem_not_selected (value : Value) (silent : bool) (s : State) :
  hash_key value = None ∨ hash_key value ∉ items s → removeItem value silent s = s.
Proof. intros Hcase. unfold removeItem. by apply removeItem_open_absent. Qed.

Lemma removeItem_not_selected_witness :
  removeItem (VString "b") false
    (run [OpAddItem no_rendering (VString "a") false] (constructed settings_multi options_ab))
  = run [OpAddItem no_rendering (VString "a") false] (constructed settings_multi options_ab).
Proof.
  apply removeItem_not_selected. right. vm_compute. set_solver.
Defined.

Lemma updateOriginalInput_bus silent s : bus_step s (updateOriginalInput silent s).
Proof.
  unfold updateOriginalInput. destruct (_ && _); [apply bus_step_trigger|apply bus_step_refl].
Qed.

(** The caret once the item at [i] is gone. *)
Definition caret_after (i : nat) (s : State) : State :=
  if Z.of_nat i <? caretPos s then setCaret (caretPos s - 1) s else s.


Lemma removeItem_at_caret f k i sl s :
  caretPos (removeItem_at f k i sl s) = caretPos (caret_after i (item_removed f k i sl s)).
Proof.
  unfold removeItem_at, caret_after, item_removed. cbv zeta.
  match goal with |- caretPos (trigger ?e (updateOriginalInput ?sl0 ?s3)) = _ =>
    pose proof (bus_step_trigger e (updateOriginalInput sl0 s3)) as (_ & _ & -> & _);
    pose proof (updateOriginalInput_bus sl0 s3) as (_ & _ & -> & _) end.
  reflexivity.
Qed.

(** The condition under which [removeItem] goes on to [removeOption]. *)
Definition drops_option (k : string) (s : State) : bool :=
  negb (persist (settings s)) && bool_decide (k ∈ userOptions s).

(** What [removeItem] does to the selection, the item elements and the
    options when it finds the key at [i], provided the key is not selected
    a second time if its option is to go. *)
Lemma removeItem_found value k i sl s :
  hash_key value = Some k → k ∈ control s → indexOf (Some k) (items s) = Some i →
  drops_option k s = false ∨ Some k ∉ delete i (items s) →
  let s' := removeItem value sl s in
  items s' = delete i (items s) ∧
  control s' = remove_first k (control s) ∧
  options s' = (if drops_option k s then delete k (options s) else options s) ∧
  userOptions s' = (if drops_option k s then userOptions s ∖ {[k]} else userOptions s) ∧
  caretPos s' = (if Z.of_nat i <? caretPos s
                 then caretPos (setCaret (caretPos s - 1) (set_items (delete i (items s)) s))
                 else caretPos s).
Proof.
  intros Hk Hc Hi Hcase s'. subst s'.
  set (f := removeItem_open (λ _ _ s0, s0)).
  assert (removeItem value sl s = removeItem_at f k i sl s) as ->.
  { unfold removeItem, removeItem_open at 1.
    by rewrite Hk, (bool_decide_eq_true_2 _ Hc), Hi. }
  destruct (removeItem_at_frame f k i sl s) as (_ & -> & -> & -> & -> & _).
  rewrite removeItem_at_caret.
  set (s1 := set_lastQuery None
               (set_items (delete i (items s)) (set_control (remove_first k (control s)) s))).
  assert (item_removed f k i sl s
          = if drops_option k s then option_removed (Some k) s1 else s1) as ->.
  { unfold item_removed, drops_option. fold s1. destruct (_ && _) eqn:E; [|done].
    rewrite removeOption_open_eq. apply removeItem_open_absent. right. simpl.
    destruct (option_removed_spec (Some k) s1) as (_ & -> & _).
    destruct Hcase as [Hd|?]; [unfold drops_option in Hd; congruence|done]. }
  destruct (option_removed_spec (Some k) s1) as (_ & E1 & E2 & E3 & E4 & E5).
  destruct (drops_option k s).
  - rewrite E1, E2, E4, E5. split_and!; try done.
    unfold caret_after. rewrite !E3. change (caretPos s1) with (caretPos s).
    destruct (_ <? _); [|exact E3].
    pose proof (option_removed_spec (Some k) s1) as ((Hs & _) & _).
    unfold setCaret, is_single. simpl. by rewrite Hs, E1.
  - split_and!; try done. unfold caret_after. simpl. by destruct (_ <? _).
Qed.

Lemma filter_Forall {A} (P : A → Prop) `{∀ x, Decision (P x)} (l : list A) :
  Forall P l → filter P l = l.
Proof.
  induction 1 as [|x l Hx _ IH]; [done|]. by rewrite filter_cons_True, IH.
Qed.

Lemma delete_filter {A} `{EqDecision A} (l : list A) (i : nat) (x : A) :
  NoDup l → l !! i = Some x → delete i l = filter (λ y, y ≠ x) l.
Proof.
  revert i. induction l as [|y l IH]; intros i Hn Hi; [done|].
  apply NoDup_cons in Hn as [Hy Hn]. destruct i as [|i]; simpl in *.
  - injection Hi as ->. rewrite filter_cons_False by (by intros ?).
    symmetry. apply filter_Forall. apply Forall_forall. intros z Hz ->. done.
  - rewrite filter_cons_True.
    + f_equal. by apply IH.
    + intros ->. apply Hy. by eapply list_elem_of_lookup_2.
Qed.

Lemma mirror_control k s : mirror s → Some k ∈ items s → k ∈ control s.
Proof.
  intros [-> _] Hin. apply list_elem_of_fmap. by exists (Some k).
Qed.

Lemma removeItem_items (value : Value) (k : string) (silent : bool) (s : State) :
  hash_key value = Some k → NoDup (items s) → mirror s →
  items (removeItem value silent s) = filter (λ x, x ≠ Some k) (items s).
Proof.
  intros Hk Hn Hm.
  destruct (decide (Some k ∈ items s)) as [Hin|Hnot].
  - destruct (indexOf_elem _ _ Hin) as [i Hi].
    destruct (removeItem_found value k i silent s Hk (mirror_control k s Hm Hin) Hi)
      as (-> & _).
    + right. pose proof (indexOf_Some _ _ _ Hi) as Hl.
      rewrite (delete_filter _ _ _ Hn Hl). by intros [? _]%list_elem_of_filter.
    + apply delete_filter; [done|by apply indexOf_Some].
  - assert (removeItem value silent s = s) as ->
      by (apply removeItem_open_absent; right; by rewrite Hk).
    symmetry. apply filter_Forall. apply Forall_forall. by intros z Hz ->.
Qed.




(** ** Selecting and deselecting *)










(** ** Removing an option *)

Lemma removeItem_keeps_options value sl s :
  (∀ k, hash_key value = Some k → drops_option k s = false) →
  options (removeItem value sl s) = options s ∧
  userOptions (removeItem value sl s) = userOptions s.
Proof.
  intros Hd. destruct (hash_key value) as [k|] eqn:Hk;
    [|by assert (removeItem value sl s = s) as ->
         by (apply removeItem_open_absent; by left)].
  destruct (decide (k ∈ control s)) as [Hc|Hc].
  - destruct (indexOf (Some k) (items s)) as [i|] eqn:Hi.
    + destruct (removeItem_found value k i sl s Hk Hc Hi) as (_ & _ & -> & -> & _);
        [left; by apply Hd|]. by rewrite (Hd k).
    + assert (removeItem value sl s = s) as ->; [|done].
      apply removeItem_open_absent. right. rewrite Hk. by apply indexOf_None.
  - unfold removeItem, removeItem_open at 1 3.
    by rewrite Hk, (bool_decide_eq_false_2 _ Hc).
Qed.

(** [removeOption] deletes the option and the user-option marker of the
    key, resets the query marker, and deselects the key: the other keys stay
    selected in their order and the item elements follow. *)
Theorem removeOption_removes (value : Value) (silent : bool) (s : State) :
  options (removeOption value silent s)
    = delete (property_name (hash_key value)) (options s) ∧
  userOptions (removeOption value silent s)
    = userOptions s ∖ {[property_name (hash_key value)]} ∧
  lastQuery (removeOption value silent s) = None ∧
  (∀ k, hash_key value = Some k → NoDup (items s) → mirror s →
     items (removeOption value silent s) = filter (λ x, x ≠ Some k) (items s) ∧
     mirror (removeOption value silent s)).
Proof.
  set (key := hash_key value).
  assert (removeOption value silent s
          = removeItem (value_of_key key) silent (option_removed key s)) as -> by done.
  destruct (option_removed_spec key s) as ((Hset & _) & Ei & Ec & _ & Eo & Eu).
  destruct (removeItem_keeps_options (value_of_key key) silent (option_removed key s))
    as [-> ->].
  { intros k Hk. unfold drops_option. rewrite Eu.
    assert (key = Some k) as -> by (by destruct key). simpl.
    rewrite bool_decide_eq_false_2 by set_solver. apply andb_false_r. }
  split; [done|]. split; [done|]. split.
  { apply (removeOption_open_spec removeItem key silent s removeItem_removal_like). }
  intros k Hk Hn Hm. subst key. rewrite Hk in *.
  change (value_of_key (Some k)) with (VString k).
  assert (mirror (option_removed (Some k) s)) as Hm' by (unfold mirror; by rewrite Ei, Ec).
  assert (items (removeItem (VString k) silent (option_removed (Some k) s))
          = filter (λ x, x ≠ Some k) (items s)) as E1.
  { rewrite <- Ei. apply removeItem_items; [done|by rewrite Ei|done]. }
  rewrite E1. split; [done|]. by apply removeItem_shrinks.
Qed.


(** ** Registering an option *)


End SelectionLaws.

(* ===================================================================== *)
(** * Laws of the event bus *)
(* ===================================================================== *)

Module EventLaws.
Import TomSelect SelectionFacts SelectionLaws.

(** What [trigger] reads and writes: the log of the events that reached
    the subscribers and the events held back. *)
Definition bus (s : State) : list Event * list Hold := (events s, held s).

Definition triggers (es : list Event) (s : State) : State :=
  foldl (λ s0 e, trigger e s0) s es.

Lemma trigger_bus e s1 s2 : bus s1 = bus s2 → bus (trigger e s1) = bus (trigger e s2).
Proof.
  unfold bus, trigger. intros [= E1 E2]. rewrite E2.
  destruct (trigger_held e (held s2)); simpl; congruence.
Qed.

Lemma triggers_bus es s1 s2 : bus s1 = bus s2 → bus (triggers es s1) = bus (triggers es s2).
Proof.
  revert s1 s2. induction es as [|e es IH]; intros s1 s2 E; simpl; [done|].
  by apply IH, trigger_bus.
Qed.

Lemma triggers_app es1 es2 s : triggers (es1 ++ es2) s = triggers es2 (triggers es1 s).
Proof. unfold triggers. apply foldl_app. Qed.

(** [fires es s s']: going from [s] to [s'] does to the subscribers and to
    the events held back what triggering the events [es], in this order,
    does. *)
Definition fires (es : list Event) (s s' : State) : Prop := bus s' = bus (triggers es s).

Lemma fires_same s s' : bus s' = bus s → fires [] s s'.
Proof. done. Qed.

Lemma fires_refl s : fires [] s s.
Proof. done. Qed.

Lemma fires_trigger e s : fires [e] s (trigger e s).
Proof. done. Qed.

Lemma fires_app es1 es2 s1 s2 s3 :
  fires es1 s1 s2 → fires es2 s2 s3 → fires (es1 ++ es2) s1 s3.
Proof.
  unfold fires. intros H1 H2. rewrite triggers_app, H2. by apply triggers_bus.
Qed.

Lemma fires_from es s0 s s' : bus s0 = bus s → fires es s0 s' → fires es s s'.
Proof. unfold fires. intros E ->. by apply triggers_bus. Qed.

Lemma fires_to es s s1 s2 : fires es s s1 → bus s2 = bus s1 → fires es s s2.
Proof. unfold fires. congruence. Qed.

(** Outside a debounced call nothing is held back: the events go to the
    subscribers as they are fired. *)
Lemma triggers_top es s :
  held s = [] → events (triggers es s) = events s ++ es ∧ held (triggers es s) = [].
Proof.
  revert s. induction es as [|e es IH]; intros s Hh; simpl.
  - by rewrite app_nil_r.
  - assert (trigger e s = set_events (events s ++ [e]) s) as ->.
    { unfold trigger. by rewrite Hh. }
    destruct (IH (set_events (events s ++ [e]) s) Hh) as [-> ->].
    simpl. by rewrite <- app_assoc.
Qed.

Lemma fires_top es s s' :
  held s = [] → fires es s s' → events s' = events s ++ es ∧ held s' = [].
Proof.
  unfold fires, bus. intros Hh [= -> ->]. by apply triggers_top.
Qed.

(** ** Page-side calls *)

Definition onBlur_events (s : State) : list Event :=
  if isFocused s then (if isOpen s then [EvDropdownClose] else []) ++ [EvBlur] else [].

Lemma hideInput_bus s : bus (hideInput s) = bus s.
Proof. unfold hideInput. by destruct (controlInput _). Qed.

Lemma close_blurring_fires s :
  isBlurring s = true →
  fires (if isOpen s then [EvDropdownClose] else []) s (close_blurring s).
Proof.
  intros Hb. unfold close_blurring, close_with.
  set (s1 := if _ && _ then _ else s).
  assert (bus s1 = bus s) as E1.
  { subst s1. destruct (_ && _); [|done].
    assert (isBlurring (hideInput s) = true) as ->.
    { unfold hideInput. by destruct (controlInput _). }
    apply hideInput_bus. }
  destruct (isOpen s).
  - apply (fires_from _ (set_isOpen false s1)); [exact E1|apply fires_trigger].
  - by apply fires_same.
Qed.

Lemma onBlur_fires s : fires (onBlur_events s) s (onBlur s).
Proof.
  unfold onBlur, onBlur_events. destruct (isFocused s); simpl; [|apply fires_refl].
  set (s1 := set_isBlurring true (set_isFocused false s)).
  pose proof (close_blurring_fires s1 eq_refl) as H1.
  change (isOpen s1) with (isOpen s) in H1.
  eapply fires_app.
  - apply (fires_from _ s1); [done|exact H1].
  - set (s2 := close_blurring s1).
    apply (fires_from _ (set_isBlurring false (setCaret (Z.of_nat (length (items s2))) s2)));
      [done|apply fires_trigger].
Qed.

Definition close_events (s : State) : list Event :=
  (if is_single s && negb (bool_decide (items s = [])) && negb (isBlurring s)
   then onBlur_events s else [])
  ++ (if isOpen s then [EvDropdownClose] else []).

Lemma close_fires s : fires (close_events s) s (close s).
Proof.
  unfold close, close_with, close_events.
  set (s1 := if _ && _ then _ else s).
  assert (fires (if is_single s && negb (bool_decide (items s = [])) && negb (isBlurring s)
                 then onBlur_events s else []) s s1) as H1.
  { subst s1. destruct (is_single s && negb (bool_decide (items s = []))); simpl;
      [|apply fires_refl].
    assert (isBlurring (hideInput s) = isBlurring s) as ->.
    { unfold hideInput. by destruct (controlInput _). }
    destruct (isBlurring s); simpl.
    - apply fires_same, hideInput_bus.
    - assert (onBlur_events s = onBlur_events (hideInput s)) as ->.
      { unfold onBlur_events, hideInput. by destruct (controlInput _). }
      eapply fires_from; [apply hideInput_bus|]. apply onBlur_fires. }
  eapply fires_app; [exact H1|].
  destruct (isOpen s).
  - apply (fires_from _ (set_isOpen false s1)); [done|apply fires_trigger].
  - by apply fires_same.
Qed.

Definition open_events (s : State) : list Event :=
  if isLocked s || isOpen s || (is_multi s && isFull s) then [] else [EvDropdownOpen].

Lemma open_fires s : fires (open_events s) s (open s).
Proof.
  unfold open, open_events. destruct (_ || _); [apply fires_refl|].
  apply (fires_from _ (set_isOpen true s)); [done|apply fires_trigger].
Qed.

Lemma isOpen_trigger e s : isOpen (trigger e s) = isOpen s.
Proof. unfold trigger. by destruct (trigger_held e (held s)). Qed.

Lemma isOpen_close s : isOpen (close s) = false.
Proof.
  unfold close, close_with. cbv zeta.
  destruct (isOpen s); [by rewrite isOpen_trigger|done].
Qed.

(** The events of the dropdown, outside a debounced call.  [close()] leaves
    the dropdown closed; it fires dropdown_close when the dropdown was open,
    and in single mode with a selection, on a focused widget that handles
    no blur yet, it blurs the widget first, which fires dropdown_close for
    an open dropdown a first time, and then blur.  [open()] fires
    dropdown_open exactly when it opens the dropdown: not on a widget that
    is locked, open already, or in multi mode and full. *)
Theorem dropdown_events (s : State) :
  held s = [] →
  let blurs := is_single s && negb (bool_decide (items s = []))
               && negb (isBlurring s) && isFocused s in
  let stays := isLocked s || isOpen s || (is_multi s && isFull s) in
  isOpen (close s) = false ∧
  events (close s)
  = events s ++ (if isOpen s
                 then (if blurs then [EvDropdownClose; EvBlur] else []) ++ [EvDropdownClose]
                 else if blurs then [EvBlur] else []) ∧
  events (open s) = events s ++ (if stays then [] else [EvDropdownOpen]) ∧
  isOpen (open s) = isOpen s || negb stays.
Proof.
  intros Hh. cbv zeta. split_and!.
  - apply isOpen_close.
  - destruct (fires_top _ _ _ Hh (close_fires s)) as [-> _]. f_equal.
    unfold close_events, onBlur_events.
    destruct (is_single s), (bool_decide (items s = [])), (isBlurring s),
      (isFocused s), (isOpen s); reflexivity.
  - by destruct (fires_top _ _ _ Hh (open_fires s)) as [-> _].
  - unfold open. destruct (isLocked s), (isOpen s) eqn:Eo, (is_multi s && isFull s);
      simpl; rewrite ?isOpen_trigger; done.
Qed.

Lemma dropdown_events_witness :
  let s := set_isFocused true
             (open (run [OpAddItem no_rendering (VString "a") false]
                        (constructed settings_single options_ab))) in
  isOpen s = true ∧
  events (close s) = events s ++ [EvDropdownClose; EvBlur; EvDropdownClose].
Proof.
  cbv zeta. split; [vm_compute; reflexivity|].
  refine (eq_trans (proj1 (proj2 (dropdown_events _ _))) _).
  - vm_compute. reflexivity.
  - vm_compute. reflexivity.
Defined.

(** The events of the dropdown and of the focus. *)
Definition page_event (e : Event) : Prop :=
  e = EvDropdownOpen ∨ e = EvDropdownClose ∨ e = EvBlur.

(** [emits P s s']: the events fired on the way from [s] to [s'] all
    satisfy [P]. *)
Definition emits (P : Event → Prop) (s s' : State) : Prop :=
  ∃ es, fires es s s' ∧ Forall P es.

Lemma emits_refl P s : emits P s s.
Proof. exists []. split; [apply fires_refl|constructor]. Qed.

Lemma emits_same P s s' : bus s' = bus s → emits P s s'.
Proof. intros E. exists []. split; [by apply fires_same|constructor]. Qed.

Lemma emits_trans P s1 s2 s3 : emits P s1 s2 → emits P s2 s3 → emits P s1 s3.
Proof.
  intros (es1 & F1 & P1) (es2 & F2 & P2). exists (es1 ++ es2).
  split; [by eapply fires_app|by apply Forall_app].
Qed.

Lemma emits_from P s0 s s' : bus s0 = bus s → emits P s0 s' → emits P s s'.
Proof. intros E (es & F & HP). exists es. split; [by eapply fires_from|done]. Qed.

Lemma emits_trigger (P : Event → Prop) e s : P e → emits P s (trigger e s).
Proof. intros HP. exists [e]. split; [apply fires_trigger|by constructor]. Qed.

Lemma emits_weaken (P Q : Event → Prop) s s' : (∀ e, P e → Q e) → emits P s s' → emits Q s s'.
Proof.
  intros HPQ (es & F & HP). exists es. split; [done|]. by eapply Forall_impl.
Qed.

Lemma onBlur_events_page s : Forall page_event (onBlur_events s).
Proof.
  unfold onBlur_events, page_event. destruct (isFocused s); [|constructor].
  destruct (isOpen s); simpl; repeat (first [by constructor | constructor; [by auto|]]).
Qed.

Lemma close_emits s : emits page_event s (close s).
Proof.
  exists (close_events s). split; [apply close_fires|].
  unfold close_events. apply Forall_app. split.
  - destruct (_ && _); [apply onBlur_events_page|constructor].
  - unfold page_event. destruct (isOpen s);
      repeat (first [by constructor | constructor; [by auto|]]).
Qed.

Lemma open_emits s : emits page_event s (open s).
Proof.
  exists (open_events s). split; [apply open_fires|].
  unfold open_events, page_event. destruct (_ || _);
    repeat (first [by constructor | constructor; [by auto|]]).
Qed.

Lemma refreshOptions_emits dom td s : emits page_event s (refreshOptions dom td s).
Proof.
  unfold refreshOptions.
  assert (bus (search (inputValue s) s) = bus s) as E.
  { unfold search. by destruct (search_recomputes _ _). }
  eapply emits_from; [exact E|].
  cbv zeta. destruct (_ || _).
  - destruct (_ && _); [apply open_emits|apply emits_refl].
  - destruct (_ && _); [apply close_emits|apply emits_refl].
Qed.


(** ** Debounced calls *)

(** The events [debounce_events] fires once [fn] is back: one per type, the
    last of its type, in the order in which the types came up. *)
Definition collapse (es : list Event) : list Event :=
  foldl (λ q e, queue_event e q) [] es.

Lemma triggers_layer tys es : ∀ q hs t,
  held t = {| types := tys; event_args := q |} :: hs →
  bus (triggers es t)
  = (events (triggers (filter (λ e, event_type e ∉ tys) es) (set_held hs t)),
     {| types := tys;
        event_args := foldl (λ q e, queue_event e q) q
                        (filter (λ e, event_type e ∈ tys) es) |}
     :: held (triggers (filter (λ e, event_type e ∉ tys) es) (set_held hs t))).
Proof.
  induction es as [|e es IH]; intros q hs t Ht.
  - simpl. unfold bus. by rewrite Ht.
  - change (triggers (e :: es) t) with (triggers es (trigger e t)).
    destruct (decide (event_type e ∈ tys)) as [Hin|Hout].
    + rewrite (filter_cons_True (λ e, event_type e ∈ tys)) by done.
      rewrite (filter_cons_False (λ e, event_type e ∉ tys)) by (by intros ?).
      assert (trigger e t
              = set_held ({| types := tys; event_args := queue_event e q |} :: hs) t) as ->.
      { unfold trigger. rewrite Ht. simpl. by rewrite (bool_decide_eq_true_2 _ Hin). }
      by rewrite (IH (queue_event e q) hs
                    (set_held ({| types := tys; event_args := queue_event e q |} :: hs) t)
                    eq_refl).
    + rewrite (filter_cons_False (λ e, event_type e ∈ tys)) by done.
      rewrite (filter_cons_True (λ e, event_type e ∉ tys)) by done.
      change (triggers (e :: ?l) ?s0) with (triggers l (trigger e s0)).
      destruct (trigger_held e hs) as [hs'|] eqn:Eh.
      * assert (trigger e t = set_held ({| types := tys; event_args := q |} :: hs') t) as ->.
        { unfold trigger. rewrite Ht. simpl.
          by rewrite (bool_decide_eq_false_2 _ Hout), Eh. }
        assert (trigger e (set_held hs t) = set_held hs' (set_held hs t)) as ->.
        { unfold trigger. simpl. by rewrite Eh. }
        by rewrite (IH q hs' (set_held ({| types := tys; event_args := q |} :: hs') t)
                      eq_refl).
      * assert (trigger e t = set_events (events t ++ [e]) t) as ->.
        { unfold trigger. rewrite Ht. simpl.
          by rewrite (bool_decide_eq_false_2 _ Hout), Eh. }
        assert (trigger e (set_held hs t)
                = set_events (events t ++ [e]) (set_held hs t)) as ->.
        { unfold trigger. simpl. by rewrite Eh. }
        by rewrite (IH q hs (set_events (events t ++ [e]) t) Ht).
Qed.

(** The law of [debounce_events]: when [fn] fires the events [es], the call
    fires those of the other types as [fn] does, and then the held ones. *)
Lemma debounce_events_fires tys fn es s :
  fires es (set_held ({| types := tys; event_args := [] |} :: held s) s)
           (fn (set_held ({| types := tys; event_args := [] |} :: held s) s)) →
  fires (filter (λ e, event_type e ∉ tys) es
         ++ collapse (filter (λ e, event_type e ∈ tys) es))
        s (debounce_events tys fn s).
Proof.
  intros F. unfold debounce_events.
  set (s0 := set_held _ s) in *. set (s1 := fn s0) in *.
  unfold fires in F. rewrite (triggers_layer tys es [] (held s) s0 eq_refl) in F.
  set (low := triggers (filter (λ e, event_type e ∉ tys) es) (set_held (held s) s0)) in *.
  fold (collapse (filter (λ e, event_type e ∈ tys) es)) in F.
  injection F as Fe Fh. rewrite Fh.
  change (foldl (λ s' e, trigger e s') ?a ?b) with (triggers b a). cbn [event_args].
  unfold fires. rewrite triggers_app. apply triggers_bus.
  unfold bus. simpl. rewrite Fe. subst low.
  change (bus (triggers (filter (λ e, event_type e ∉ tys) es) (set_held (held s) s0))
          = bus (triggers (filter (λ e, event_type e ∉ tys) es) s)).
  apply triggers_bus. done.
Qed.

(** The held events: one per type. *)
Lemma queue_event_types e q :
  NoDup (map event_type q) → NoDup (map event_type (queue_event e q)).
Proof.
  intros Hn. unfold queue_event. destruct (existsb (same_type e) q) eqn:Ex.
  - assert (map event_type (map (λ e', if same_type e e' then e else e') q)
            = map event_type q) as ->; [|done].
    rewrite map_map. apply map_ext. intros e'. unfold same_type.
    destruct (String.eqb_spec (event_type e) (event_type e')); congruence.
  - rewrite map_app. simpl. apply NoDup_app. split; [done|].
    split; [|apply NoDup_singleton].
    intros x Hx ->%list_elem_of_singleton.
    apply list_elem_of_fmap in Hx as (e' & He & Hin).
    assert (existsb (same_type e) q = true) as Htrue; [|congruence].
    apply existsb_exists. exists e'. split; [by apply list_elem_of_In|].
    unfold same_type. rewrite He. apply String.eqb_refl.
Qed.

Lemma queue_event_elem e q x : x ∈ queue_event e q → x = e ∨ x ∈ q.
Proof.
  unfold queue_event. destruct (existsb _ _).
  - intros (e' & -> & Hin)%list_elem_of_fmap. destruct (same_type e e'); auto.
  - intros [?|?%list_elem_of_singleton]%elem_of_app; auto.
Qed.

Lemma collapse_spec es :
  NoDup (map event_type (collapse es)) ∧ ∀ x, x ∈ collapse es → x ∈ es.
Proof.
  unfold collapse.
  assert (∀ q, NoDup (map event_type q) →
            NoDup (map event_type (foldl (λ q e, queue_event e q) q es)) ∧
            ∀ x, x ∈ foldl (λ q e, queue_event e q) q es → x ∈ q ∨ x ∈ es) as K.
  { induction es as [|e es IH]; intros q Hq; simpl; [split; [done|by left]|].
    destruct (IH (queue_event e q) (queue_event_types e q Hq)) as [H1 H2].
    split; [done|]. intros x Hx. destruct (H2 x Hx) as [H|H]; [|right; by right].
    apply queue_event_elem in H as [->|H]; [right; left|by left]. }
  destruct (K [] (NoDup_nil_2)) as [H1 H2]. split; [done|].
  intros x Hx. destruct (H2 x Hx) as [H|H]; [by apply elem_of_nil in H|done].
Qed.


Lemma queue_event_last e q x :
  x ∈ queue_event e q → x = e ∨ (x ∈ q ∧ event_type x ≠ event_type e).
Proof.
  unfold queue_event. destruct (existsb (same_type e) q) eqn:Ex.
  - intros (e' & -> & Hin)%list_elem_of_fmap. unfold same_type.
    destruct (String.eqb_spec (event_type e) (event_type e')); [by left|right].
    split; [done|congruence].
  - intros [Hx|?%list_elem_of_singleton]%elem_of_app; [right|by left].
    split; [done|]. intros Heq.
    assert (existsb (same_type e) q = true) as Htrue; [|congruence].
    apply existsb_exists. exists x. split; [by apply list_elem_of_In|].
    unfold same_type. rewrite Heq. apply String.eqb_refl.
Qed.

Lemma collapse_snoc es e : collapse (es ++ [e]) = queue_event e (collapse es).
Proof. unfold collapse. by rewrite foldl_app. Qed.

Lemma collapse_last es x :
  x ∈ collapse es →
  ∃ l1 l2, es = l1 ++ x :: l2 ∧ ∀ e', e' ∈ l2 → event_type e' ≠ event_type x.
Proof.
  induction es as [|e es IH] using rev_ind; [by intros ?%elem_of_nil|].
  rewrite collapse_snoc. intros [->|[Hx Hne]]%queue_event_last.
  - exists es, []. split; [done|]. by intros e' ?%elem_of_nil.
  - destruct (IH Hx) as (l1 & l2 & -> & Hl2). exists l1, (l2 ++ [e]).
    split; [by rewrite <- app_assoc|].
    intros e' [?|E'%list_elem_of_singleton]%elem_of_app; [by apply Hl2|by subst e'].
Qed.

Lemma collapse_types es e : e ∈ es → event_type e ∈ map event_type (collapse es).
Proof.
  induction es as [|e0 es IH] using rev_ind; [by intros ?%elem_of_nil|].
  rewrite collapse_snoc.
  assert (∀ x, x ∈ collapse es → event_type x ∈ map event_type (queue_event e0 (collapse es)))
    as Hkeep.
  { intros x Hx. unfold queue_event. destruct (existsb _ _) eqn:Ex.
    - rewrite map_map. apply list_elem_of_fmap. exists x. split; [|done].
      unfold same_type. destruct (String.eqb_spec (event_type e0) (event_type x)); congruence.
    - rewrite map_app. apply elem_of_app. left. apply list_elem_of_fmap. by exists x. }
  assert (event_type e0 ∈ map event_type (queue_event e0 (collapse es))) as Hnew.
  { unfold queue_event. destruct (existsb _ _) eqn:Ex.
    - apply existsb_exists in Ex as (x & Hx & Hs). apply list_elem_of_In in Hx.
      rewrite map_map. apply list_elem_of_fmap. exists x. split; [|done]. by rewrite Hs.
    - rewrite map_app. apply elem_of_app. right. simpl. left. }
  intros [Hin|E'%list_elem_of_singleton]%elem_of_app; [|by subst e].
  apply IH in Hin. apply list_elem_of_fmap in Hin as (x & -> & Hx). by apply Hkeep.
Qed.

Lemma filter_split {A} (P : A → Prop) `{∀ x, Decision (P x)} (l l1 l2 : list A) (x : A) :
  filter P l = l1 ++ x :: l2 → ∃ k1 k2, l = k1 ++ x :: k2 ∧ filter P k2 = l2.
Proof.
  revert l1. induction l as [|y l IH]; intros l1 E.
  { rewrite filter_nil in E. by destruct l1. }
  destruct (decide (P y)) as [Hy|Hy].
  - rewrite filter_cons_True in E by done. destruct l1 as [|z l1]; simpl in E.
    + injection E as -> E. by exists [], l.
    + injection E as -> E. destruct (IH l1 E) as (k1 & k2 & -> & Hk).
      by exists (z :: k1), k2.
  - rewrite filter_cons_False in E by done. destruct (IH l1 E) as (k1 & k2 & -> & Hk).
    by exists (y :: k1), k2.
Qed.

(** [debounce_events]: the events of the other types are fired as [fn]
    fires them; those of the listed types are fired when [fn] is back, one
    per type, each the last that [fn] fired of its type. *)
Theorem debounce_events_law (tys : list string) (fn : State → State)
    (es : list Event) (s : State) :
  fires es (set_held ({| types := tys; event_args := [] |} :: held s) s)
           (fn (set_held ({| types := tys; event_args := [] |} :: held s) s)) →
  ∃ late,
    fires (filter (λ e, event_type e ∉ tys) es ++ late) s (debounce_events tys fn s) ∧
    NoDup (map event_type late) ∧
    (∀ e, e ∈ late →
       event_type e ∈ tys ∧
       ∃ l1 l2, es = l1 ++ e :: l2 ∧
                ∀ e', e' ∈ l2 → event_type e' ∈ tys → event_type e' ≠ event_type e) ∧
    (∀ e, e ∈ es → event_type e ∈ tys → event_type e ∈ map event_type late).
Proof.
  intros F. exists (collapse (filter (λ e, event_type e ∈ tys) es)).
  split; [by apply debounce_events_fires|].
  split; [apply collapse_spec|]. split.
  - intros e He.
    assert (event_type e ∈ tys) as Hty.
    { apply collapse_spec in He. by apply list_elem_of_filter in He as [? _]. }
    split; [done|]. apply collapse_last in He as (l1 & l2 & E & Hl2).
    apply filter_split in E as (k1 & k2 & -> & <-). exists k1, k2. split; [done|].
    intros e' He' Hty'. apply Hl2. by apply list_elem_of_filter.
  - intros e He Hty. apply collapse_types. by apply list_elem_of_filter.
Qed.


(** A function that fires change, clear and change again, debounced for
    change: clear goes out at once and change once, at the end. *)
Lemma debounce_events_law_witness :
  ∃ late,
    fires (filter (λ e, event_type e ∉ ["change"%string]) [EvChange; EvClear; EvChange] ++ late)
          (constructed settings_multi options_ab)
          (debounce_events ["change"%string]
             (λ s, trigger EvChange (trigger EvClear (trigger EvChange s)))
             (constructed settings_multi options_ab)) ∧
    NoDup (map event_type late).
Proof.
  destruct (debounce_events_law ["change"%string]
              (λ s, trigger EvChange (trigger EvClear (trigger EvChange s)))
              [EvChange; EvClear; EvChange] (constructed settings_multi options_ab))
    as (late & F & N & _); [reflexivity|].
  by exists late.
Defined.

(** ** The events of the selection calls *)

Definition change_events (silent : bool) (s : State) : list Event :=
  if isSetup s && negb silent then [EvChange] else [].

Lemma updateOriginalInput_fires silent s :
  fires (change_events silent s) s (updateOriginalInput silent s).
Proof.
  unfold updateOriginalInput, change_events.
  destruct (_ && _); [apply fires_trigger|apply fires_refl].
Qed.

Definition clear_events (silent : bool) (s : State) : list Event :=
  if bool_decide (items s = []) then [] else change_events silent s ++ [EvClear].

Lemma clear_fires silent s : fires (clear_events silent s) s (clear silent s).
Proof.
  unfold clear, clear_events. case_bool_decide; [apply fires_refl|].
  set (s1 := setCaret 0 _).
  eapply fires_app; [|apply fires_trigger].
  apply (fires_from _ s1); [done|]. apply (updateOriginalInput_fires silent s1).
Qed.

(** [clear]: nothing on an empty selection; otherwise change, in a widget
    that is set up and unless the call is silent, and then clear. *)
Theorem clear_events_order (silent : bool) (s : State) :
  held s = [] →
  events (clear silent s)
  = events s ++ (if bool_decide (items s = []) then []
                 else (if isSetup s && negb silent then [EvChange] else []) ++ [EvClear]) ∧
  clear silent (clear silent s) = clear silent s.
Proof.
  intros Hh. split.
  - by destruct (fires_top _ _ _ Hh (clear_fires silent s)) as [-> _].
  - unfold clear at 1. by rewrite (bool_decide_eq_true_2 _ (clear_items silent s)).
Qed.


Lemma clear_events_order_witness :
  events (clear false (run [OpAddItem no_rendering (VString "a") false]
                           (constructed settings_multi options_ab)))
  = events (run [OpAddItem no_rendering (VString "a") false]
                (constructed settings_multi options_ab)) ++ [EvClear].
Proof.
  refine (eq_trans (proj1 (clear_events_order false _ _)) _).
  - vm_compute. reflexivity.
  - vm_compute. reflexivity.
Defined.

(** The events a call of [addItem] for the key [key] may fire. *)
Definition addItem_event (key : Key) (e : Event) : Prop :=
  page_event e ∨ e = EvClear ∨ e = EvItemAdd key ∨ e = EvChange.

Definition quiet (silent : bool) (e : Event) : Prop := e = EvChange → silent = false.

Definition addItem_emits (key : Key) (silent : bool) (s s' : State) : Prop :=
  emits (λ e, addItem_event key e ∧ quiet silent e) s s'.

Lemma page_emits key silent s s' : emits page_event s s' → addItem_emits key silent s s'.
Proof.
  apply emits_weaken. intros e He. split; [by left|].
  intros ->. by destruct He as [?|[?|?]].
Qed.

Lemma change_events_quiet key silent s :
  Forall (λ e, addItem_event key e ∧ quiet silent e) (change_events silent s).
Proof.
  unfold change_events. destruct (isSetup s && negb silent) eqn:E; [|constructor].
  constructor; [|constructor]. split; [unfold addItem_event; auto|].
  intros _. destruct silent; [by rewrite andb_false_r in E|done].
Qed.

Lemma change_emits key silent s : addItem_emits key silent s (updateOriginalInput silent s).
Proof.
  exists (change_events silent s). split; [apply updateOriginalInput_fires|].
  apply change_events_quiet.
Qed.

Lemma clear_emits key silent s : addItem_emits key silent s (clear silent s).
Proof.
  exists (clear_events silent s). split; [apply clear_fires|].
  unfold clear_events. case_bool_decide; [constructor|].
  apply Forall_app. split; [apply change_events_quiet|].
  constructor; [|constructor]. split; [unfold addItem_event; auto|by intros ?].
Qed.

Lemma addItem_refresh_emits dom key silent s :
  addItem_emits key silent s (addItem_refresh dom key silent s).
Proof.
  unfold addItem_refresh. destruct (isSetup s); [|apply emits_refl]. cbv zeta.
  eapply emits_trans; [|match goal with |- emits _ _ (if ?b then _ else _) => destruct b end;
                         [apply change_emits|apply emits_refl]].
  eapply emits_trans; [|apply emits_trigger; split; [unfold addItem_event; auto|by intros ?]].
  eapply emits_trans; [|match goal with |- emits _ _ (if ?b then _ else _) => destruct b end;
                         [apply page_emits, close_emits|apply emits_refl]].
  destruct (negb _); [apply page_emits, refreshOptions_emits|apply emits_refl].
Qed.

Lemma addItem_body_emits dom value silent s :
  addItem_emits (hash_key value) silent s (addItem_body dom value silent s).
Proof.
  rewrite addItem_body_eq.
  assert (addItem_emits (hash_key value) silent s (if is_single s then clear silent s else s))
    as H1.
  { destruct (is_single s); [apply clear_emits|apply emits_refl]. }
  destruct (_ && _).
  { destruct (is_single s); [apply page_emits, close_emits|apply emits_refl]. }
  destruct (negb _); [apply emits_refl|].
  destruct (_ && _); [done|].
  eapply emits_trans; [exact H1|].
  set (s1 := if is_single s then _ else s).
  apply (emits_from _ (insert_item (hash_key value) s1)); [done|].
  apply addItem_refresh_emits.
Qed.

Lemma event_type_change e : event_type e = "change"%string → e = EvChange.
Proof. by destruct e. Qed.

(** [addItem] fires nothing but the events of the dropdown and of the
    focus, clear, item_add for its key and change; a silent call fires no
    change, and any other call fires change at most once, as its last
    event. *)
Theorem addItem_events (dom : Rendering) (value : Value) (silent : bool) (s : State) :
  ∃ es,
    fires es s (addItem dom value silent s) ∧
    Forall (addItem_event (hash_key value)) es ∧
    (silent = true → EvChange ∉ es) ∧
    (EvChange ∈ es → ∃ es0, es = es0 ++ [EvChange] ∧ EvChange ∉ es0).
Proof.
  unfold addItem. set (tys := if silent then [] else ["change"%string]).
  set (s0 := set_held ({| types := tys; event_args := [] |} :: held s) s).
  destruct (addItem_body_emits dom value silent s0) as (esb & Fb & Pb).
  assert (∃ late,
            fires (filter (λ e, event_type e ∉ tys) esb ++ late) s
                  (debounce_events tys (addItem_body dom value silent) s) ∧
            NoDup (map event_type late) ∧
            ∀ e, e ∈ late → event_type e ∈ tys ∧ e ∈ esb) as (late & F & Hn & Hlate).
  { exists (collapse (filter (λ e, event_type e ∈ tys) esb)).
    split; [by apply debounce_events_fires|]. split; [apply collapse_spec|].
    intros e He. apply collapse_spec in He. by apply list_elem_of_filter in He as [? ?]. }
  rewrite Forall_forall in Pb.
  assert (∀ e, e ∈ late → e ∈ esb) as Hsub.
  { intros e He. by destruct (Hlate e He). }
  assert (∀ e, e ∈ filter (λ e, event_type e ∉ tys) esb ++ late → e ∈ esb) as Hall.
  { intros e [[_ ?]%list_elem_of_filter|?]%elem_of_app; auto. }
  exists (filter (λ e, event_type e ∉ tys) esb ++ late).
  split; [done|]. split; [|split].
  - apply Forall_forall. intros e He. by apply Pb, Hall.
  - intros -> Hin. apply Hall, Pb in Hin as [_ Hq]. by specialize (Hq eq_refl).
  - intros Hin.
    assert (silent = false) as -> by (apply Hall, Pb in Hin as [_ Hq]; by apply Hq).
    subst tys.
    assert (EvChange ∉ filter (λ e, event_type e ∉ ["change"%string]) esb) as Hfront.
    { intros [Hty _]%list_elem_of_filter. apply Hty. simpl. left. }
    exists (filter (λ e, event_type e ∉ ["change"%string]) esb). split; [|done].
    f_equal.
    assert (∀ e, e ∈ late → e = EvChange) as Hch.
    { intros e He. destruct (Hlate e He) as (Hty & _).
      apply list_elem_of_singleton in Hty. by apply event_type_change. }
    destruct late as [|e1 [|e2 late]].
    + apply elem_of_app in Hin as [?|?%elem_of_nil]; done.
    + by rewrite (Hch e1) by left.
    + exfalso. rewrite (Hch e1), (Hch e2) in Hn by (by repeat constructor).
      simpl in Hn. apply NoDup_cons in Hn as [Hn _]. apply Hn. left.
Qed.





End EventLaws.

(* ===================================================================== *)
(** * Laws of the dropdown *)
(* ===================================================================== *)

Module DropdownLaws.
Import TomSelect SelectionFacts SelectionLaws.

(** A locked widget with its dropdown closed. *)
Definition shut (s : State) : Prop := isLocked s = true ∧ isOpen s = false.

Lemma shut_bus s s' : bus_step s s' → shut s → shut s'.
Proof.
  intros (F & _ & _ & Ho & _) [Hl Hc]. unfold shut.
  destruct F as (_ & _ & _ & _ & _ & _ & _ & _ & _ & _ & ->). by rewrite Ho.
Qed.

Lemma trigger_shut e s : shut s → shut (trigger e s).
Proof. apply shut_bus, bus_step_trigger. Qed.

Lemma hideInput_shut s : shut s → shut (hideInput s).
Proof. unfold hideInput. by destruct (controlInput _). Qed.

Lemma close_with_shut blur s :
  (∀ s0, shut s0 → shut (blur s0)) → shut s → shut (close_with blur s).
Proof.
  intros Hb Hs. unfold close_with.
  set (s1 := if _ && _ then _ else s).
  assert (shut s1) as [H1 H2].
  { subst s1. destruct (_ && _); [|done].
    destruct (isBlurring _); [by apply hideInput_shut|by apply Hb, hideInput_shut]. }
  destruct (isOpen s); [|done]. by apply trigger_shut.
Qed.

Lemma onBlur_shut s : shut s → shut (onBlur s).
Proof.
  intros Hs. unfold onBlur. destruct (negb _); [done|].
  apply trigger_shut.
  assert (shut (close_blurring (set_isBlurring true (set_isFocused false s)))) as [H1 H2].
  { by apply close_with_shut. }
  done.
Qed.

Lemma close_shut s : shut s → shut (close s).
Proof. apply close_with_shut. intros s0. apply onBlur_shut. Qed.

Lemma open_shut s : shut s → open s = s.
Proof. intros [Hl _]. unfold open. by rewrite Hl. Qed.

Lemma refreshOptions_shut dom td s : shut s → shut (refreshOptions dom td s).
Proof.
  intros Hs. unfold refreshOptions.
  assert (shut (search (inputValue s) s)) as Hs1.
  { unfold search. by destruct (search_recomputes _ _). }
  cbv zeta. destruct (_ || _).
  - destruct (_ && _); [by rewrite open_shut|done].
  - destruct (_ && _); [by apply close_shut|done].
Qed.

Lemma updateOriginalInput_shut silent s : shut s → shut (updateOriginalInput silent s).
Proof.
  intros Hs. unfold updateOriginalInput. destruct (_ && _); [by apply trigger_shut|done].
Qed.

Lemma clear_shut silent s : shut s → shut (clear silent s).
Proof.
  intros Hs. unfold clear. case_bool_decide; [done|].
  apply trigger_shut, updateOriginalInput_shut. done.
Qed.

Lemma addItem_refresh_shut dom key silent s : shut s → shut (addItem_refresh dom key silent s).
Proof.
  intros Hs. unfold addItem_refresh. destruct (isSetup s); [|done]. cbv zeta.
  set (s1 := if negb (isPending s) then _ else s).
  assert (shut s1) as H1.
  { subst s1. destruct (negb _); [by apply refreshOptions_shut|done]. }
  set (s2 := if _ || _ then _ else s1).
  assert (shut s2) as H2.
  { subst s2. destruct (_ || _); [by apply close_shut|done]. }
  match goal with |- shut (if ?b then _ else _) => destruct b end;
    [apply updateOriginalInput_shut|]; by apply trigger_shut.
Qed.

Lemma addItem_shut dom value silent s : shut s → shut (addItem dom value silent s).
Proof.
  intros Hs. unfold addItem.
  eapply shut_bus; [apply debounce_events_bus|].
  set (s0 := set_held _ s). assert (shut s0) as Hs0 by done.
  rewrite addItem_body_eq.
  assert (shut (if is_single s0 then clear silent s0 else s0)) as H1.
  { destruct (is_single s0); [by apply clear_shut|done]. }
  destruct (_ && _).
  { destruct (is_single s0); [by apply close_shut|done]. }
  destruct (negb _); [done|]. destruct (_ && _); [done|].
  apply addItem_refresh_shut. done.
Qed.

Definition shut_like (f : Value → bool → State → State) : Prop :=
  ∀ v sl s, shut s → shut (f v sl s).

Lemma removeItem_open_shut f : shut_like f → shut_like (removeItem_open f).
Proof.
  intros Hf v sl s Hs. unfold removeItem_open.
  destruct (hash_key v) as [k|]; [|done]. destruct (negb _); [done|].
  destruct (indexOf _ _) as [i|]; [|done].
  unfold removeItem_at. cbv zeta.
  apply trigger_shut, updateOriginalInput_shut.
  set (s2 := if _ && _ then _ else _).
  assert (shut s2) as H2.
  { subst s2. destruct (_ && _); [|done].
    unfold removeOption_open. apply Hf, trigger_shut. done. }
  by destruct (_ <? _).
Qed.

Lemma removeItem_shut : shut_like removeItem.
Proof. apply removeItem_open_shut, removeItem_open_shut. by intros v sl s. Qed.

Lemma step_shut op s : shut s → shut (step op s).
Proof.
  intros Hs. destruct op; simpl.
  - by apply addItem_shut.
  - by apply removeItem_shut.
  - by apply clear_shut.
  - done.
  - unfold addOption, registerOption. destruct key as [k|]; [|done].
    destruct (bool_decide _); [done|]. by apply trigger_shut.
  - unfold removeOption, removeOption_open. apply removeItem_shut, trigger_shut. done.
  - unfold clearOptions. destruct (_ && _); [done|]. simpl. by apply trigger_shut.
  - unfold onSearchChange. destruct (negb _); [done|]. by case_bool_decide.
Qed.

(** After [lock()] the dropdown is closed, and it stays closed whatever is
    selected, deselected, registered or loaded: [open()] does nothing on a
    locked widget, and no other call opens the dropdown. *)
Theorem locked_stays_closed (ops : list Op) (s : State) :
  forallb named ops = true →
  isLocked (run ops (lock s)) = true ∧
  isOpen (run ops (lock s)) = false ∧
  open (run ops (lock s)) = run ops (lock s).
Proof.
  intros _.
  assert (shut (run ops (lock s))) as Hs.
  { induction ops as [|op ops IH] using rev_ind.
    - split; [done|]. unfold lock, close, close_with. simpl.
      destruct (isOpen s); [|done].
      match goal with |- context [trigger ?e ?s0] =>
        by pose proof (bus_step_trigger e s0) as (_ & _ & _ & -> & _) end.
    - rewrite run_snoc. by apply step_shut. }
  destruct Hs as [H1 H2]. split; [done|]. split; [done|]. by apply open_shut.
Qed.

(** A locked widget takes a key, but its dropdown stays closed. *)
Lemma locked_stays_closed_witness :
  let s := run [OpAddItem no_rendering (VString "a") false]
               (lock (open (constructed settings_multi options_ab))) in
  items s = [Some "a"%string] ∧ isLocked s = true ∧ isOpen s = false ∧ open s = s.
Proof.
  cbv zeta. split; [vm_compute; reflexivity|].
  apply (locked_stays_closed [OpAddItem no_rendering (VString "a") false]
           (open (constructed settings_multi options_ab))).
  reflexivity.
Defined.

End DropdownLaws.

(* ===================================================================== *)
(** * Laws of the event emitter *)
(* ===================================================================== *)

Module MicroEventLaws.
Import MicroEvent.

(** The handlers [trigger(event)] calls. *)
Definition handlers (event : string) (self : Emitter) : list Handler :=
  (trigger event self).2.

Lemma indexOf_absent fct l : fct ∉ l → indexOf fct l = None.
Proof.
  induction l as [|g l IH]; simpl; [done|].
  intros [Hg Hl]%not_elem_of_cons. rewrite decide_False by done. by rewrite IH.
Qed.



Lemma handlers_eq event self : handlers event self = default [] (events_of self !! event).
Proof. reflexivity. Qed.


Lemma events_of_off event fct self :
  events_of (off event fct self)
  = match events_of self !! event with
    | None => events_of self
    | Some l => <[event := splice_one (indexOf fct l) l]> (events_of self)
    end.
Proof. unfold off. by destruct (events_of self !! event). Qed.


(** [off] with a handler that is not registered for the event does not
    leave the event alone: [indexOf] answers -1 and [splice(-1, 1)] takes
    the last registered handler out. *)
Theorem off_unregistered_drops_last (event : string) (fct last : Handler)
    (rest : list Handler) (self : Emitter) :
  handlers event self = rest ++ [last] → fct ∉ rest ++ [last] →
  handlers event (off event fct self) = rest.
Proof.
  intros Hl Hn. rewrite handlers_eq in Hl. rewrite handlers_eq, events_of_off.
  destruct (events_of self !! event) as [l|] eqn:E; simpl in Hl.
  - subst l. rewrite lookup_insert_eq. simpl. rewrite indexOf_absent by done. simpl.
    apply removelast_last.
  - by destruct rest.
Qed.

Lemma off_unregistered_drops_last_witness :
  handlers "change" (off "change" 3 (on "change" 2 (on "change" 1 None))) = [1%nat].
Proof.
  apply (off_unregistered_drops_last "change" 3 2 [1%nat]).
  - vm_compute. reflexivity.
  - vm_compute. set_solver.
Defined.

End MicroEventLaws.

(* ===================================================================== *)
(** * Laws of the escaping *)
(* ===================================================================== *)

Module HtmlLaws.
Import Sifter Html.

(** What [escape_html] writes for one character. *)
Definition entity (c : char) : jsstring :=
  if (c =? 38)%N then str "&amp;"
  else if (c =? 60)%N then str "&lt;"
  else if (c =? 62)%N then str "&gt;"
  else if (c =? 34)%N then str "&quot;"
  else [c].

Lemma replace_all_flat_map l r (f : char → jsstring) (s : jsstring) :
  replace_all l r (flat_map f s) = flat_map (λ c, replace_all l r (f c)) s.
Proof.
  unfold replace_all. induction s as [|c s IH]; simpl; [done|].
  by rewrite flat_map_app, IH.
Qed.

Lemma replace_all_alt l r s : replace_all l r s = flat_map (λ c, replace_all l r [c]) s.
Proof.
  unfold replace_all. apply flat_map_ext. intros c. simpl. by rewrite app_nil_r.
Qed.

(** The four replacements do not meet: the text an earlier one writes holds
    none of the characters a later one looks for. *)
Lemma escape_html_entities s : escape_html s = flat_map entity s.
Proof.
  unfold escape_html. rewrite (replace_all_alt 38), !replace_all_flat_map.
  apply flat_map_ext. intros c. unfold entity.
  destruct (N.eqb_spec c 38) as [->|H1]; [by vm_compute|].
  destruct (N.eqb_spec c 60) as [->|H2]; [by vm_compute|].
  destruct (N.eqb_spec c 62) as [->|H3]; [by vm_compute|].
  destruct (N.eqb_spec c 34) as [->|H4]; [by vm_compute|].
  unfold replace_all. simpl.
  rewrite (proj2 (N.eqb_neq c 38)) by done. simpl.
  rewrite (proj2 (N.eqb_neq c 60)) by done. simpl.
  rewrite (proj2 (N.eqb_neq c 62)) by done. simpl.
  by rewrite (proj2 (N.eqb_neq c 34)) by done.
Qed.

(** Reading the entities back. *)
Fixpoint unescape (s : jsstring) : jsstring :=
  match s with
  | [] => []
  | c :: r =>
      if (c =? 38)%N then
        match r with
        | 97 :: 109 :: 112 :: 59 :: r' => 38 :: unescape r'
        | 108 :: 116 :: 59 :: r' => 60 :: unescape r'
        | 103 :: 116 :: 59 :: r' => 62 :: unescape r'
        | 113 :: 117 :: 111 :: 116 :: 59 :: r' => 34 :: unescape r'
        | _ => c :: unescape r
        end%N
      else c :: unescape r
  end.

Lemma unescape_entity c r : unescape (entity c ++ r) = c :: unescape r.
Proof.
  unfold entity.
  destruct (N.eqb_spec c 38) as [->|H1]; [done|].
  destruct (N.eqb_spec c 60) as [->|H2]; [done|].
  destruct (N.eqb_spec c 62) as [->|H3]; [done|].
  destruct (N.eqb_spec c 34) as [->|H4]; [done|].
  simpl. by rewrite (proj2 (N.eqb_neq c 38)) by done.
Qed.

Lemma unescape_escape s : unescape (escape_html s) = s.
Proof.
  rewrite escape_html_entities. induction s as [|c s IH]; simpl; [done|].
  by rewrite unescape_entity, IH.
Qed.

(** The escaped text holds no angle bracket and no double quote, a text
    with none of the four characters is left as it is, and no two texts are
    escaped to the same text. *)
Theorem escape_html_safe (s : jsstring) :
  Forall (λ c, c ≠ 60%N ∧ c ≠ 62%N ∧ c ≠ 34%N) (escape_html s) ∧
  (Forall (λ c, c ∉ [38; 60; 62; 34]%N) s → escape_html s = s) ∧
  (∀ t, escape_html s = escape_html t → s = t).
Proof.
  split_and!.
  - rewrite escape_html_entities. induction s as [|c s IH]; simpl; [constructor|].
    apply Forall_app. split; [|done]. unfold entity.
    destruct (N.eqb_spec c 38) as [->|H1]; [by repeat constructor|].
    destruct (N.eqb_spec c 60) as [->|H2]; [by repeat constructor|].
    destruct (N.eqb_spec c 62) as [->|H3]; [by repeat constructor|].
    destruct (N.eqb_spec c 34) as [->|H4]; [by repeat constructor|].
    by repeat constructor.
  - rewrite escape_html_entities. induction 1 as [|c s Hc _ IH]; simpl; [done|].
    rewrite IH. unfold entity.
    rewrite (proj2 (N.eqb_neq c 38)) by set_solver.
    rewrite (proj2 (N.eqb_neq c 60)) by set_solver.
    rewrite (proj2 (N.eqb_neq c 62)) by set_solver.
    by rewrite (proj2 (N.eqb_neq c 34)) by set_solver.
  - intros t E. by rewrite <- (unescape_escape s), E, unescape_escape.
Qed.

End HtmlLaws.

(* ===================================================================== *)
(** * Laws of the search engine *)
(* ===================================================================== *)

Module SifterLaws.
Import Sifter SifterFacts.

(** ** [trim] *)

Lemma trim_start_split s :
  ∃ a, s = a ++ trim_start s ∧ forallb is_whitespace a = true.
Proof.
  induction s as [|c s (a & E & Ha)]; simpl; [by exists []|].
  destruct (is_whitespace c) eqn:Hc.
  - exists (c :: a). simpl. rewrite Hc, Ha. by rewrite E at 1.
  - by exists [].
Qed.

Lemma trim_end_split s :
  ∃ b, s = trim_end s ++ b ∧ forallb is_whitespace b = true.
Proof.
  induction s as [|c s (b & E & Hb)]; simpl; [by exists []|].
  destruct (trim_end s) as [|x t] eqn:Et.
  - simpl in E. subst b. destruct (is_whitespace c) eqn:Hc.
    + exists (c :: s). simpl. by rewrite Hc, Hb.
    + by exists s.
  - exists b. by rewrite E at 1.
Qed.

Lemma trim_start_id s :
  match s with c :: _ => is_whitespace c = false | [] => True end → trim_start s = s.
Proof. destruct s as [|c s]; simpl; [done|]. by intros ->. Qed.

Lemma trim_end_id s :
  match last s with Some d => is_whitespace d = false | None => True end → trim_end s = s.
Proof.
  induction s as [|c s IH]; simpl; [done|].
  destruct s as [|x s].
  - simpl. by intros ->.
  - intros H. change (last (c :: x :: s)) with (last (x :: s)) in H.
    rewrite IH by done. done.
Qed.

(** [trim] takes the white space off both ends and nothing else: the text
    is the trimmed text between two runs of white space, the trimmed text
    neither starts nor ends with white space, and trimming it again changes
    nothing. *)
Theorem trim_both_ends (s : jsstring) :
  (∃ a b, s = a ++ trim s ++ b ∧
          forallb is_whitespace a = true ∧ forallb is_whitespace b = true) ∧
  trimmed (trim s) ∧
  trim (trim s) = trim s.
Proof.
  split_and!.
  - destruct (trim_start_split s) as (a & Ea & Ha).
    destruct (trim_end_split (trim_start s)) as (b & Eb & Hb).
    exists a, b. split; [|done]. unfold trim. by rewrite <- Eb.
  - apply trim_trimmed.
  - pose proof (trim_trimmed s) as Ht. unfold trim at 1.
    destruct (trim s) as [|c t] eqn:E; [done|].
    destruct Ht as [Hc (d & Hd & Hd')].
    rewrite trim_start_id by done. apply trim_end_id. by rewrite Hd.
Qed.


(** ** What [search] lists *)

Section Results.
Context `{Runtime}.

Lemma Qle_bool_false (x : Q) : negb (Qle_bool x 0) = true ↔ (0 < x)%Q.
Proof.
  rewrite negb_true_iff. split.
  - intros E. apply Qnot_le_lt. intros Hle. apply Qle_bool_iff in Hle. congruence.
  - intros Hlt. destruct (Qle_bool x 0) eqn:E; [|done].
    apply Qle_bool_iff in E. by apply Qlt_not_le in Hlt.
Qed.

(** The items [search] collects for a query that is not empty, unless the
    filter is off: those of the corpus with a positive score, in the order
    of the corpus. *)
Lemma collect_matches (self : Sifter) (fn_score : Item → Q) (options : Options)
    (query : jsstring) :
  query ≠ [] → o_filter options ≠ Some false →
  collect self fn_score options query
  = map (λ e, {| score := fn_score e.2; id := e.1 |})
        (List.filter (λ e, negb (Qle_bool (fn_score e.2) 0)) (items self)).
Proof.
  intros Hq Hf. unfold collect.
  rewrite (bool_decide_eq_false_2 _ Hq), (bool_decide_eq_false_2 _ Hf). cbn [negb orb].
  induction (items self) as [|e l IH]; simpl; [done|].
  rewrite IH. by destruct (negb _).
Qed.

Lemma limited_sublist (options : Options) (l : list ResultItem) :
  ∃ rest, l = limited options l ++ rest.
Proof.
  unfold limited, slice_to. destruct (o_limit options) as [n|].
  - eexists. symmetry. apply take_drop.
  - exists []. by rewrite app_nil_r.
Qed.

(** For a query that is not empty, unless the filter is off: [total] counts
    the items of the corpus with a positive score, and the list holds such
    items only, each with its score; without a limit it holds each of
    them. *)
Theorem search_lists_matches (self : Sifter) (query : jsstring) (options : Options)
    (r : Search) :
  search self query options = Some r →
  toLowerCase query ≠ [] → o_filter options ≠ Some false →
  let fn_score := default (getScoreFunction r) (o_score options) in
  s_total r = length (List.filter (λ e, negb (Qle_bool (fn_score e.2) 0)) (items self)) ∧
  Forall (λ it, (0 < score it)%Q ∧
                ∃ data, (id it, data) ∈ items self ∧ score it = fn_score data) (s_items r) ∧
  (o_limit options = None →
   ∀ e, e ∈ items self → (0 < fn_score e.2)%Q →
        {| score := fn_score e.2; id := e.1 |} ∈ s_items r).
Proof.
  rewrite search_eq. intros [= <-] Hq Hf fn_score. simpl.
  assert (fn_score = default (getScoreFunction (prepared self query options)) (o_score options))
    as Efn.
  { subst fn_score. reflexivity. }
  pose proof (found_perm self query options) as Hp.
  rewrite collect_matches in Hp by done. rewrite <- Efn in Hp.
  split_and!.
  - by rewrite Hp, length_map.
  - destruct (limited_sublist options (found self query options)) as [rest E].
    assert (Forall (λ it, (0 < score it)%Q ∧
                          ∃ data, (id it, data) ∈ items self ∧ score it = fn_score data)
              (found self query options)) as Hall.
    { rewrite Hp. apply Forall_forall. intros it (e & -> & He)%list_elem_of_fmap.
      apply list_elem_of_In, filter_In in He as [He Hpos]. simpl.
      split; [by apply Qle_bool_false|]. exists e.2. split; [|done].
      apply list_elem_of_In in He. by destruct e. }
    rewrite E in Hall. by apply Forall_app in Hall as [? _].
  - intros Hl e He Hpos. unfold limited. rewrite Hl, Hp.
    apply list_elem_of_fmap. exists e. split; [done|].
    apply list_elem_of_In, filter_In. split; [by apply list_elem_of_In|].
    by apply Qle_bool_false.
Qed.

End Results.

Definition pear : Sifter :=
  {| items := [ ("a"%string, {[ "text"%string := str "Apple" ]});
                ("b"%string, {[ "text"%string := str "Pear" ]}) ];
     diacritics := true |}.

Lemma search_lists_matches_witness :
  (s_total <$> search pear (str "pe") by_text) = Some 1%nat.
Proof.
  destruct (search pear (str "pe") by_text) as [r|] eqn:E; [|by vm_compute in E].
  simpl. f_equal.
  refine (eq_trans (proj1 (search_lists_matches pear (str "pe") by_text r E _ _)) _).
  - by vm_compute.
  - done.
  - injection (eq_trans (eq_sym E) (search_eq pear (str "pe") by_text)) as ->.
    vm_compute. reflexivity.
Defined.


(** ** The order of the results *)

(** Every item scores at most what the items before it score. *)
Fixpoint descending (l : list ResultItem) : Prop :=
  match l with
  | [] => True
  | a :: l' => Forall (λ b, (score b <= score a)%Q) l' ∧ descending l'
  end.

(** The comparator of the implicit sort key: by score, the greater first. *)
Definition by_score (a b : ResultItem) : Z := -1 * cmp_number (score a) (score b).

Lemma by_score_pos a b : (0 <? by_score a b) = true ↔ (score a < score b)%Q.
Proof.
  unfold by_score, cmp_number. rewrite Qlt_alt.
  destruct (score a ?= score b)%Q; simpl; split; intros; done.
Qed.

Lemma insert_sorted_descending x l :
  descending l → descending (insert_sorted by_score x l).
Proof.
  induction l as [|y l IH]; simpl; [by split|].
  intros [Hy Hl]. destruct (0 <? by_score y x) eqn:E.
  - apply by_score_pos in E. simpl. split; [|done].
    constructor; [by apply Qlt_le_weak|].
    eapply Forall_impl; [exact Hy|]. intros b Hb. simpl in Hb.
    apply Qle_trans with (score y); [done|by apply Qlt_le_weak].
  - simpl. split; [|by apply IH].
    rewrite (insert_sorted_perm by_score x l). constructor; [|done].
    apply Qnot_lt_le. intros Hlt. apply by_score_pos in Hlt. congruence.
Qed.

Lemma Array_sort_descending l : descending (Array_sort by_score l).
Proof.
  unfold Array_sort.
  assert (∀ acc, descending acc →
            descending (foldl (λ sorted x, insert_sorted by_score x sorted) acc l)) as K.
  { induction l as [|x l IH]; intros acc Hacc; simpl; [done|].
    by apply IH, insert_sorted_descending. }
  by apply K.
Qed.

Lemma descending_take n l : descending l → descending (take n l).
Proof.
  revert n. induction l as [|a l IH]; intros n; [by rewrite take_nil|].
  destruct n as [|n]; simpl; [done|]. intros [Ha Hl].
  split; [by apply Forall_take|by apply IH].
Qed.

Section Order.
Context `{Runtime}.

(** With a query that is not empty and no sort option, the results come by
    score, the greatest first: the list is a rearrangement of the items
    collected, cut at the limit, in which no item scores more than an item
    before it. *)
Theorem search_by_score (self : Sifter) (query : jsstring) (options : Options) (r : Search) :
  search self query options = Some r →
  toLowerCase query ≠ [] → o_sort options = None →
  descending (s_items r) ∧
  ∃ rest, s_items r ++ rest
          ≡ₚ collect self (default (getScoreFunction r) (o_score options)) options (s_query r).
Proof.
  rewrite search_eq. intros [= <-] Hq Hs. simpl.
  assert (getSortFunction self (prepared self query options) options = Some by_score) as Esort.
  { unfold getSortFunction. rewrite sort_fields_query by done.
    unfold explicit_sort. simpl. rewrite (bool_decide_eq_false_2 _ Hq), Hs. reflexivity. }
  split.
  - unfold limited. assert (descending (found self query options)) as Hd.
    { unfold found. rewrite Esort. apply Array_sort_descending. }
    destruct (o_limit options); [by apply descending_take|done].
  - destruct (limited_sublist options (found self query options)) as [rest E].
    exists rest. rewrite <- E. apply found_perm.
Qed.

End Order.

Lemma search_by_score_witness :
  ∃ r, search fruit (str "ap") by_text = Some r ∧ descending (s_items r).
Proof.
  destruct (search fruit (str "ap") by_text) as [r|] eqn:E; [|by vm_compute in E].
  exists r. split; [done|].
  apply (search_by_score fruit (str "ap") by_text r E); [by vm_compute|reflexivity].
Defined.

(** ** The limit *)

Definition without_limit (options : Options) : Options :=
  {| o_fields := o_fields options; o_sort := o_sort options;
     o_sort_empty := o_sort_empty options; o_score := o_score options;
     o_filter := o_filter options; o_limit := None;
     o_conjunction := o_conjunction options |}.

Section Limit.
Context `{Runtime}.

Lemma found_without_limit (self : Sifter) (query : jsstring) (options : Options) :
  found self query (without_limit options) = found self query options.
Proof. reflexivity. Qed.

(** The limit cuts the list and nothing else: [total] is the one of the
    search without the limit, and the list is the start of the list of that
    search, [limit] items long when there are as many. *)
Theorem search_limit (self : Sifter) (query : jsstring) (options : Options)
    (n : Z) (r r0 : Search) :
  o_limit options = Some n → 0 ≤ n →
  search self query options = Some r →
  search self query (without_limit options) = Some r0 →
  s_total r = s_total r0 ∧
  s_items r = take (Z.to_nat n) (s_items r0) ∧
  length (s_items r) = Nat.min (Z.to_nat n) (s_total r).
Proof.
  intros Hl Hn. rewrite !search_eq, found_without_limit. intros [= <-] [= <-]. simpl.
  split; [done|]. unfold limited. rewrite Hl. simpl. unfold slice_to.
  rewrite (proj2 (Z.ltb_ge n 0)) by lia.
  assert (Z.to_nat (Z.min n (Z.of_nat (length (found self query options))))
          = Nat.min (Z.to_nat n) (length (found self query options))) as -> by lia.
  split.
  - destruct (Nat.le_ge_cases (Z.to_nat n) (length (found self query options)))
      as [Hle|Hge]; [by rewrite Nat.min_l|].
    rewrite Nat.min_r by done. by rewrite !take_ge.
  - rewrite length_take. lia.
Qed.

End Limit.

Definition by_text_first : Options :=
  {| o_fields := ["text"%string]; o_sort := None; o_sort_empty := None;
     o_score := None; o_filter := None; o_limit := Some 1; o_conjunction := "and" |}.

Lemma search_limit_witness :
  ∃ r r0,
    search fruit (str "ap") by_text_first = Some r ∧
    search fruit (str "ap") (without_limit by_text_first) = Some r0 ∧
    s_items r = take 1 (s_items r0).
Proof.
  destruct (search fruit (str "ap") by_text_first) as [r|] eqn:E; [|by vm_compute in E].
  destruct (search fruit (str "ap") (without_limit by_text_first)) as [r0|] eqn:E0;
    [|by vm_compute in E0].
  exists r, r0. split; [done|]. split; [done|].
  apply (search_limit fruit (str "ap") by_text_first 1 r r0 eq_refl ltac:(lia) E E0).
Defined.


(** ** Scores of several tokens *)







Section Conjunction.
Context `{Runtime}.











End Conjunction.



(** ** Comparing field values *)





Section Compare.
Context `{Runtime}.




End Compare.


(** ** Sorting by any keys *)









Section Sorted.
Context `{Runtime}.







End Sorted.



End SifterLaws.
